(** * glenn2vcf: from per-base graph calls to variant records

    A shallow embedding of [main.cpp]: the [BaseCall] constructor, the
    reference tracer, the call-file reader, the pass over non-reference
    nodes and the pass over reference nodes, followed by the properties
    of these that the specification states and by further properties of
    the code.

    Conventions of the embedding.
    - [size_t] values are integers in [0, 2^64); every [size_t]
      operation of the source is followed by [wrap].
    - [std::string] is [list ascii]; [s.size()] is [len s].
    - [assert] is enabled: a failed assertion ends the run ([Err]).
    - [operator[]] past the end of a [std::vector] or a [std::string] has
      no defined behaviour; the embedding stops there with [Err], and so
      says nothing of what a run wrote before.
    - A [std::vector] asked to grow beyond its [max_size] throws; an
      allocation that [max_size] allows is granted.
    - The loops that count with an [int] are taken over node sequences
      shorter than [2^31].
    - A pointer to a graph node is the node itself. *)

From Stdlib Require Import ZArith Lia Ascii String.
From stdpp Require Import base tactics option list gmap strings pretty.

Local Open Scope Z_scope.

(** ** Outcomes of fallible code *)

Inductive failure : Type :=
  | AssertionFailed (expr : string)   (* assert(expr) did not hold *)
  | Uncaught (what : string)          (* an exception nobody catches *)
  | Indeterminate (variable : string) (* a variable read before any write *)
  | CallIndexOutOfBounds (node offset : Z) (* callsByNodeOffset[node][offset] *)
  | RefSeqOutOfBounds (pos : Z)       (* refSeq[pos] *)
  | NoTermination.                    (* a loop that never leaves *)

Inductive result (A : Type) : Type :=
  | Ok (a : A)
  | Err (f : failure).
Arguments Ok {A} a.
Arguments Err {A} f.

#[global] Instance result_ret : MRet result := @Ok.
#[global] Instance result_bind : MBind result := λ A B f r,
  match r with Ok a => f a | Err e => Err e end.

(** [assert(b)] *)
Definition assert (b : bool) (expr : string) : result unit :=
  if b then Ok tt else Err (AssertionFailed expr).

(** ** Machine integers and text *)

Definition wrap (z : Z) : Z := z mod 2 ^ 64.
Definition SIZE_MAX : Z := 2 ^ 64 - 1.

Definition len {A} (s : list A) : Z := Z.of_nat (length s).

Definition text (s : string) : list ascii := String.list_ascii_of_string s.
Definition show (s : list ascii) : string := String.string_of_list_ascii s.

(** ** struct BaseCall *)

Definition MAX_ALTS : Z := 2.

(** [alts] holds the used prefix [alts[0 .. numberOfAlts)] of the array. *)
Record BaseCall : Type := mkBaseCall {
  graphBasePresent : bool;
  alts : list ascii
}.

Definition numberOfAlts (c : BaseCall) : Z := len (alts c).

(** The default constructor: the member initialisers apply. *)
Definition BaseCall_default : BaseCall := mkBaseCall false [].

(** *** std::set<std::string>

    A set of strings is the strictly ascending list of its elements, which
    is the order in which a range-for visits them. Strings compare
    lexicographically, characters by their code. *)

Fixpoint string_lt (a b : list ascii) : bool :=
  match a, b with
  | _, [] => false
  | [], _ :: _ => true
  | x :: a', y :: b' =>
      if (N_of_ascii x <? N_of_ascii y)%N then true
      else if (N_of_ascii y <? N_of_ascii x)%N then false
      else string_lt a' b'
  end.

Fixpoint set_insert (x : list ascii) (s : list (list ascii)) : list (list ascii) :=
  match s with
  | [] => [x]
  | y :: s' =>
      if string_lt x y then x :: s
      else if string_lt y x then y :: set_insert x s'
      else s
  end.

(** The range constructor of [std::set]. *)
Definition std_set (range : list (list ascii)) : list (list ascii) :=
  fold_left (λ s x, set_insert x s) range [].

(** One turn of the constructor's loop. *)
Definition BaseCall_add (c : BaseCall) (alt : list ascii) : result BaseCall :=
  if decide (alt = text "-") then Ok c
  else if decide (alt = text ".") then Ok (mkBaseCall true (alts c))
  else
    _ ← assert (len alt =? 1) "alt.size() == 1";
    _ ← assert (numberOfAlts c <? MAX_ALTS) "numberOfAlts < MAX_ALTS";
    Ok (mkBaseCall (graphBasePresent c) (alts c ++ take 1 alt)).

Fixpoint BaseCall_loop (c : BaseCall) (altSet : list (list ascii)) : result BaseCall :=
  match altSet with
  | [] => Ok c
  | alt :: rest => c' ← BaseCall_add c alt; BaseCall_loop c' rest
  end.

(** [BaseCall::BaseCall(const std::set<std::string>&)] *)
Definition BaseCall_of (altSet : list (list ascii)) : result BaseCall :=
  BaseCall_loop (mkBaseCall false []) altSet.

(** ** Reading a line of the call file

    A [std::stringstream] over the line: [Some rest] while no extraction has
    failed, [None] once [failbit] is set. (An extraction that stops at the
    end of the text also sets [eofbit]; the next one then fails, as it does
    here on finding no text.) *)

Definition stream : Type := option (list ascii).

Definition code (c : ascii) : N := N_of_ascii c.

Definition isspace (c : ascii) : bool :=
  ((code c =? 32) || ((9 <=? code c) && (code c <=? 13)))%N.

Definition isdigit (c : ascii) : bool :=
  ((48 <=? code c) && (code c <=? 57))%N.

Fixpoint take_while {A} (p : A → bool) (s : list A) : list A :=
  match s with
  | c :: s' => if p c then c :: take_while p s' else []
  | [] => []
  end.

Fixpoint drop_while {A} (p : A → bool) (s : list A) : list A :=
  match s with
  | c :: s' => if p c then drop_while p s' else s
  | [] => []
  end.

(** The sentry of a formatted extraction: skip white space, fail at the end. *)
Definition sentry (st : stream) : stream :=
  match st with
  | None => None
  | Some s => match drop_while isspace s with [] => None | s' => Some s' end
  end.

Definition decimal (ds : list ascii) : Z :=
  fold_left (λ acc c, acc * 10 + (Z.of_N (code c) - 48)) ds 0.

(** [num_get] in base ten on text that starts with a non-space character:
    an optional sign, then digits. The value that is stored, and the
    stream afterwards. *)
Definition num_get (is_signed : bool) (s : list ascii) : Z * stream :=
  let '(negative, s1) :=
    match s with
    | c :: r => if decide (c = "-"%char) then (true, r)
                else if decide (c = "+"%char) then (false, r) else (false, s)
    | [] => (false, s)
    end in
  let ds := take_while isdigit s1 in
  let rest := drop_while isdigit s1 in
  match ds with
  | [] => (0, None)
  | _ :: _ =>
      let v := decimal ds in
      if is_signed then
        if negative then (if v <=? 2 ^ 63 then (- v, Some rest) else (- 2 ^ 63, None))
        else (if v <=? 2 ^ 63 - 1 then (v, Some rest) else (2 ^ 63 - 1, None))
      else
        if v <=? SIZE_MAX then (wrap (if negative then - v else v), Some rest)
        else (SIZE_MAX, None)
  end.

(** [tokens >> x] for an integer [x] declared without initialiser: [None]
    is the value of a variable that was never written. *)
Definition extract_num (is_signed : bool) (st : stream) : option Z * stream :=
  match sentry st with
  | None => (None, None)
  | Some s => let '(v, st') := num_get is_signed s in (Some v, st')
  end.

(** [tokens >> graphBase]: one character. *)
Definition extract_char (st : stream) : option ascii * stream :=
  match sentry st with
  | Some (c :: s) => (Some c, Some s)
  | _ => (None, None)
  end.

(** [tokens >> call] into a string that holds [old]. *)
Definition extract_string (old : list ascii) (st : stream) : list ascii * stream :=
  match sentry st with
  | None => (old, None)
  | Some s => (take_while (λ c, negb (isspace c)) s,
               Some (drop_while (λ c, negb (isspace c)) s))
  end.

(** The pieces of [s] between the occurrences of [sep], the last one
    included even when empty; [cur] is the piece being read, reversed. *)
Fixpoint pieces (sep : ascii) (cur s : list ascii) : list (list ascii) :=
  match s with
  | [] => [reverse cur]
  | c :: s' =>
      if decide (c = sep) then reverse cur :: pieces sep [] s'
      else pieces sep (c :: cur) s'
  end.

(** [std::sregex_token_iterator(call.begin(), call.end(), std::regex(","), -1)]:
    the text before each comma, then the text after the last comma unless
    that is empty; a call without comma is one token, also when empty. *)
Definition call_tokens (call : list ascii) : list (list ascii) :=
  match pieces ","%char [] call with
  | [] => []
  | [whole] => [whole]
  | ps => if decide (last ps = Some []) then removelast ps else ps
  end.

(** ** The call table *)

Abbreviation CallTable := (gmap Z (list BaseCall)).

(** [callsByNodeOffset[nodeId]]: a key that is absent reads as the empty
    vector (which [operator[]] then also stores; no later read can tell). *)
Definition calls_of (calls : CallTable) (nodeId : Z) : list BaseCall :=
  default [] (calls !! nodeId).

(** [callsByNodeOffset[nodeId][i]] *)
Definition call_at (calls : CallTable) (nodeId : Z) (i : Z) : result BaseCall :=
  match calls_of calls nodeId !! Z.to_nat i with
  | Some c => Ok c
  | None => Err (CallIndexOutOfBounds nodeId i)
  end.

(** The four extractions of one line. *)
Record Fields : Type := mkFields {
  f_nodeId : option Z;
  f_offset : option Z;
  f_graphBase : option ascii;
  f_call : list ascii;
  f_stream : stream
}.

Definition read_fields (line : list ascii) : Fields :=
  let tokens : stream := Some line in
  let '(nodeId, tokens) := extract_num true tokens in
  let '(offset, tokens) := extract_num false tokens in
  let '(graphBase, tokens) := extract_char tokens in
  let '(call, tokens) := extract_string [] tokens in
  mkFields nodeId offset graphBase call tokens.

(** [sizeof(BaseCall)]: a [bool], a [char] and an array of two [char]. *)
Definition sizeof_BaseCall : Z := 4.

(** [std::vector<BaseCall>::max_size()]: defined by the implementation; here
    the greatest [ptrdiff_t] over the size of an entry, as libstdc++ has it
    on a 64-bit target. The statements below use it by name only. *)
Definition max_size : Z := (2 ^ 63 - 1) / sizeof_BaseCall.

(** [vec.resize(n)]: a vector that would have to grow beyond [max_size]
    throws [std::length_error], which nobody catches; else the vector is cut
    to [n] entries or filled up to [n] entries with default calls. *)
Definition vector_resize (n : Z) (vec : list BaseCall) : result (list BaseCall) :=
  if (len vec <? n) && (max_size <? n) then Err (Uncaught "std::length_error")
  else Ok (resize (Z.to_nat n) BaseCall_default vec).

(** The body of the reading loop for one line. *)
Definition add_line (calls : CallTable) (line : list ascii) : result CallTable :=
  if decide (line = []) then Ok calls
  else
    let f := read_fields line in
    match f_nodeId f, f_offset f with
    | Some nodeId, Some offset =>
        let offset := wrap (offset - 1) in
        let callCharacters := std_set (call_tokens (f_call f)) in
        let vec := calls_of calls nodeId in
        vec ← (if len vec <=? offset
               then vector_resize (wrap (offset + 1)) vec
               else Ok vec);
        c ← BaseCall_of callCharacters;
        if offset <? len vec
        then Ok (<[nodeId := <[Z.to_nat offset := c]> vec]> calls)
        else Err (CallIndexOutOfBounds nodeId offset)
    | None, _ => Err (Indeterminate "nodeId")
    | _, None => Err (Indeterminate "offset")
    end.

Fixpoint read_calls (calls : CallTable) (lines : list (list ascii)) : result CallTable :=
  match lines with
  | [] => Ok calls
  | line :: rest => calls' ← add_line calls line; read_calls calls' rest
  end.

(** ** The graph, as this program consumes it *)

Module Node.
Record t : Type := mk { id : Z; sequence : list ascii }.
End Node.

Module NodeTraversal.
Record t : Type := mk { node : Node.t; backward : bool }.
End NodeTraversal.

Module Edit.
Record t : Type := mk { from_length : Z; to_length : Z; sequence : list ascii }.
End Edit.

Module Mapping.
(** [node_id] stands for [position().node_id()]. *)
Record t : Type := mk { node_id : Z; is_reverse : bool; edit : list Edit.t }.
End Mapping.

(** What the program asks of [vg::VG]: the nodes in the order of
    [for_each_node], the named paths, the neighbours of a traversal, and
    [vg::reverse_complement]. *)
Record VG : Type := mkVG {
  nodes : list Node.t;
  paths : gmap string (list Mapping.t);
  nodes_prev : NodeTraversal.t → list NodeTraversal.t;
  nodes_next : NodeTraversal.t → list NodeTraversal.t;
  reverse_complement : list ascii → list ascii
}.

(** [vg.get_node(id)] *)
Definition get_node (vg : VG) (i : Z) : option Node.t :=
  List.find (λ n, Node.id n =? i) (nodes vg).

Definition mapping_is_perfect_match (mapping : Mapping.t) : bool :=
  forallb (λ e, negb ((negb (Edit.from_length e =? Edit.to_length e))
                      || negb (bool_decide (Edit.sequence e = []))))
          (Mapping.edit mapping).

(** ** Tracing the reference path *)

Abbreviation Placements := (gmap Z (Z * bool)).

(** [std::map<size_t, vg::NodeTraversal, std::greater<size_t>>]: the entries
    by descending key. *)
Abbreviation ByReference := (list (Z * NodeTraversal.t)).

(** [m[k] = v] *)
Fixpoint by_reference_put (k : Z) (v : NodeTraversal.t) (m : ByReference) : ByReference :=
  match m with
  | [] => [(k, v)]
  | (k', v') :: m' =>
      if k' <? k then (k, v) :: m
      else if k' =? k then (k, v) :: m'
      else (k', v') :: by_reference_put k v m'
  end.

(** [m.lower_bound(q)]: under [std::greater], the first entry whose key is
    not greater than [q]; [None] is [m.end()]. *)
Definition lower_bound (q : Z) (m : ByReference) : option (Z * NodeTraversal.t) :=
  List.find (λ e, e.1 <=? q) m.

Record Trace : Type := mkTrace {
  referencePositionAndOrientation : Placements;
  refSeq : list ascii;
  nodesByReference : ByReference;
  referenceBase : Z
}.

Definition trace_start : Trace := mkTrace ∅ [] [] 0.

(** The body of the tracing loop. *)
Definition trace_step (vg : VG) (t : Trace) (mapping : Mapping.t) : result Trace :=
  _ ← assert (mapping_is_perfect_match mapping) "mapping_is_perfect_match(mapping)";
  let placements :=
    match referencePositionAndOrientation t !! Mapping.node_id mapping with
    | Some _ => referencePositionAndOrientation t
    | None => <[Mapping.node_id mapping := (referenceBase t, Mapping.is_reverse mapping)]>
                (referencePositionAndOrientation t)
    end in
  match get_node vg (Mapping.node_id mapping) with
  | None => Err (Uncaught "get_node: no such node")
  | Some n =>
      Ok (mkTrace placements
                  (refSeq t ++ Node.sequence n)
                  (by_reference_put (referenceBase t)
                     (NodeTraversal.mk n (Mapping.is_reverse mapping))
                     (nodesByReference t))
                  (wrap (referenceBase t + len (Node.sequence n))))
  end.

Fixpoint trace_from (vg : VG) (t : Trace) (path : list Mapping.t) : result Trace :=
  match path with
  | [] => Ok t
  | mapping :: rest => t' ← trace_step vg t mapping; trace_from vg t' rest
  end.

(** From [assert(vg.paths.has_path(refPathName))] to the end of the loop. *)
Definition trace_reference (vg : VG) (refPathName : string) : result Trace :=
  match paths vg !! refPathName with
  | None => Err (AssertionFailed "vg.paths.has_path(refPathName)")
  | Some path => trace_from vg trace_start path
  end.

(** ** Variant records and what a pass emits *)

(** The fields of [vcflib::Variant] that the program sets; [position]
    holds the [size_t] value assigned to it, and [genotype] is the one string
    pushed to [samples[sampleName]["GT"]]. *)
Record Variant : Type := mkVariant {
  position : Z;
  ref : list ascii;
  alt : list (list ascii);
  genotype : string;
  quality : Z
}.

(** Lines written to [std::cerr] and records written to [std::cout] by the
    two passes over the nodes. *)
Record Emission : Type := mkEmission {
  stderr : list string;
  stdout : list Variant
}.

Definition nothing : Emission := mkEmission [] [].
Definition say (line : string) : Emission := mkEmission [line] [].
Definition emission_app (a b : Emission) : Emission :=
  mkEmission (stderr a ++ stderr b) (stdout a ++ stdout b).

(** [char_to_string]: the letter pushed onto an empty string. *)
Definition char_to_string (letter : ascii) : list ascii :=
  let toReturn := [] in
  toReturn ++ [letter].

(** [m.at(k)] *)
Definition placement_at (m : Placements) (k : Z) : result (Z * bool) :=
  match m !! k with
  | Some p => Ok p
  | None => Err (Uncaught "std::out_of_range")
  end.

(** [s[i]] on a [std::string] that is not const: [s[s.size()]] is the
    terminating null character. *)
Definition char_at (s : list ascii) (i : Z) : result ascii :=
  match s !! Z.to_nat i with
  | Some c => Ok c
  | None => if i =? len s then Ok "000"%char else Err (RefSeqOutOfBounds i)
  end.

(** [s.substr(pos, n)] *)
Definition substr (s : list ascii) (pos n : Z) : result (list ascii) :=
  if len s <? pos then Err (Uncaught "std::out_of_range")
  else Ok (take (Z.to_nat n) (drop (Z.to_nat pos) s)).

(** ** The pass over non-reference nodes *)

(** One turn of the loop that looks for the leftmost anchor; [acc] is the
    pair of [leftmostInPosition] and [leftmostInNode], whose null node is
    [None]. *)
Definition leftmost_step (placements : Placements)
    (acc : Z * option NodeTraversal.t) (candidate : NodeTraversal.t)
    : Z * option NodeTraversal.t :=
  match placements !! Node.id (NodeTraversal.node candidate) with
  | None => acc
  | Some found => if found.1 <? acc.1 then (found.1, Some candidate) else acc
  end.

Definition leftmost (placements : Placements) (candidates : list NodeTraversal.t)
    : Z * option NodeTraversal.t :=
  fold_left (leftmost_step placements) candidates (SIZE_MAX, None).

(** The loop over the calls of the node: [nodeFullyPresent],
    [nodePartlyPresent] and [maxAltsPresent]. *)
Definition presence (cs : list BaseCall) : bool * bool * Z :=
  fold_left (λ '(fully, partly, maxAlts) call,
               (fully && graphBasePresent call,
                partly || graphBasePresent call,
                Z.max maxAlts (numberOfAlts call)))
            cs (true, false, 0).

(** The [for] loop over the bases of one reference node; [offsets] are the
    values that [i] still has to take. *)
Fixpoint scan_node (calls : CallTable) (nodeId : Z) (offsets : list Z)
    (refPathExists : bool) : result bool :=
  match offsets with
  | [] => Ok refPathExists
  | i :: rest =>
      call ← call_at calls nodeId i;
      scan_node calls nodeId rest
        (if graphBasePresent call || (0 <? numberOfAlts call) then true
         else refPathExists)
  end.

(** The [while] loop over the reference interval; each unit of [fuel] pays
    for one turn. *)
Fixpoint scan_interval (fuel : nat) (t : Trace) (calls : CallTable)
    (refPosition referenceIntervalPastEnd : Z) (refPathExists : bool) : result bool :=
  if refPosition <? referenceIntervalPastEnd then
    match fuel with
    | O => Err NoTermination
    | S fuel' =>
        match lower_bound refPosition (nodesByReference t) with
        | None => Err (AssertionFailed "refNodeResult != nodesByReference.end()")
        | Some refNodeResult =>
            let refNode := NodeTraversal.node refNodeResult.2 in
            exists' ← scan_node calls (Node.id refNode)
                        (seqZ 0 (len (Node.sequence refNode))) refPathExists;
            scan_interval fuel' t calls
              (wrap (refPosition + len (Node.sequence refNode)))
              referenceIntervalPastEnd exists'
        end
    end
  else Ok refPathExists.

(** Turns that suffice whenever every turn moves [refPosition] forward
    without wrapping; a turn that does not move it repeats for ever. *)
Definition scan_fuel (refPosition referenceIntervalPastEnd : Z) : nat :=
  Z.to_nat (referenceIntervalPastEnd - refPosition).

Definition node_name (n : Node.t) : string := "Node " +:+ pretty (Node.id n).

(** From the allele strings to the record and its log line. *)
Definition structural_variant (vg : VG) (t : Trace) (node : Node.t)
    (altBackward : bool) (referenceIntervalStart referenceIntervalSize : Z)
    (refPathExists : bool) : result Emission :=
  refAllele ← substr (refSeq t) referenceIntervalStart referenceIntervalSize;
  let altAllele :=
    if altBackward then reverse_complement vg (Node.sequence node)
    else Node.sequence node in
  '(referenceIntervalStart, refAllele, altAllele) ←
    (if len refAllele =? 0 then
       _ ← assert (negb (referenceIntervalStart =? 0)) "referenceIntervalStart != 0";
       let referenceIntervalStart := wrap (referenceIntervalStart - 1) in
       base ← char_at (refSeq t) referenceIntervalStart;
       Ok (referenceIntervalStart, base :: refAllele, base :: altAllele)
     else Ok (referenceIntervalStart, refAllele, altAllele));
  let variant :=
    mkVariant (wrap (referenceIntervalStart + 1)) refAllele [altAllele]
              (if refPathExists then "1/0" else "1/1") 0 in
  Ok (mkEmission
        ["Found variant " +:+ show refAllele +:+ " -> " +:+ show altAllele
           +:+ " caused by node " +:+ pretty (Node.id node)
           +:+ " at 1-based reference position " +:+ pretty (position variant)]
        [variant]).

(** The body of the first [for_each_node] from [referenceIntervalSize] on. *)
Definition call_interval (vg : VG) (t : Trace) (calls : CallTable) (node : Node.t)
    (altBackward : bool) (referenceIntervalStart referenceIntervalPastEnd : Z)
    : result Emission :=
  let referenceIntervalSize := wrap (referenceIntervalPastEnd - referenceIntervalStart) in
  let '(nodeFullyPresent, nodePartlyPresent, maxAltsPresent) :=
    presence (calls_of calls (Node.id node)) in
  if negb nodePartlyPresent then Ok nothing
  else if nodePartlyPresent && negb nodeFullyPresent
  then Ok (say (node_name node +:+ " is nonreference attached to "
                +:+ "reference, but only partially present. Skipping!"))
  else
    let warning :=
      if 0 <? maxAltsPresent
      then say (node_name node +:+ " is nonreference attached to "
                +:+ "reference, and present, but has additional novel alts!")
      else nothing in
    refPathExists ← scan_interval
                      (scan_fuel referenceIntervalStart referenceIntervalPastEnd)
                      t calls referenceIntervalStart referenceIntervalPastEnd false;
    found ← structural_variant vg t node altBackward
              referenceIntervalStart referenceIntervalSize refPathExists;
    Ok (emission_app warning found).

(** The bounds of the reference interval and the assertion on them: the
    node has passed the checks of its anchors; read along the reference it
    is entered from [leftmostInNode] and left towards the node placed at
    [outNodePlacement]. *)
Definition call_bubble (vg : VG) (t : Trace) (calls : CallTable) (node : Node.t)
    (altBackward : bool) (leftmostInNode : NodeTraversal.t)
    (inNodePlacement outNodePlacement : Z * bool) : result Emission :=
  let referenceIntervalStart :=
    wrap (inNodePlacement.1 + len (Node.sequence (NodeTraversal.node leftmostInNode))) in
  let referenceIntervalPastEnd := outNodePlacement.1 in
  _ ← assert (referenceIntervalStart <=? referenceIntervalPastEnd)
        "referenceIntervalPastEnd >= referenceIntervalStart";
  call_interval vg t calls node altBackward referenceIntervalStart referenceIntervalPastEnd.

(** The body of the first [for_each_node]. *)
Definition call_alt_node (vg : VG) (t : Trace) (calls : CallTable) (node : Node.t)
    : result Emission :=
  let placements := referencePositionAndOrientation t in
  match placements !! Node.id node with
  | Some _ => Ok nothing
  | None =>
    let leftmostInNode := (leftmost placements (nodes_prev vg (NodeTraversal.mk node false))).2 in
    let leftmostOutNode := (leftmost placements (nodes_next vg (NodeTraversal.mk node false))).2 in
    match leftmostInNode, leftmostOutNode with
    | Some leftmostInNode, Some leftmostOutNode =>
      inPlacement ← placement_at placements (Node.id (NodeTraversal.node leftmostInNode));
      outPlacement ← placement_at placements (Node.id (NodeTraversal.node leftmostOutNode));
      let readInForward := eqb (NodeTraversal.backward leftmostInNode) inPlacement.2 in
      let readOutForward := eqb (NodeTraversal.backward leftmostOutNode) outPlacement.2 in
      if negb (eqb readInForward readOutForward)
      then Ok (say (node_name node +:+ " inverts reference path."))
      else
        let altBackward := negb readInForward in
        let '(leftmostInNode, leftmostOutNode) :=
          if readInForward then (leftmostInNode, leftmostOutNode)
          else (leftmostOutNode, leftmostInNode) in
        inNodePlacement ← placement_at placements (Node.id (NodeTraversal.node leftmostInNode));
        outNodePlacement ← placement_at placements (Node.id (NodeTraversal.node leftmostOutNode));
        if outNodePlacement.1 <=? inNodePlacement.1
        then Ok (say (node_name node +:+ " allows duplication."))
        else call_bubble vg t calls node altBackward leftmostInNode
                         inNodePlacement outNodePlacement
    | _, _ => Ok (say (node_name node +:+ " not anchored to reference."))
    end
  end.

(** ** The pass over reference nodes *)

(** The body of the inner loop, at offset [i] of [node]; [first] and
    [second] are the members of the pair that each
    [referencePositionAndOrientation.at(node->id())] returns. *)
Definition call_ref_base (vg : VG) (t : Trace) (calls : CallTable) (node : Node.t)
    (i : Z) : result Emission :=
  call ← call_at calls (Node.id node) i;
  if numberOfAlts call =? 0 then Ok nothing
  else
    '(first, second) ← placement_at (referencePositionAndOrientation t) (Node.id node);
    let referencePosition :=
      if (second : bool)
      then wrap (first + wrap (wrap (len (Node.sequence node) - i) - 1))
      else wrap (first + i) in
    base ← char_at (refSeq t) referencePosition;
    let refAllele := [base] in
    let altAlleles :=
      map (λ a, if (second : bool) then reverse_complement vg [a] else [a]) (alts call) in
    genotype ←
      (if graphBasePresent call then Ok "1/0"
       else if numberOfAlts call =? 1 then Ok "1/1"
       else if numberOfAlts call =? 2 then Ok "1/2"
       else Err (Uncaught "Semantically invalid BaseCall"));
    let variant := mkVariant (wrap (referencePosition + 1)) refAllele altAlleles genotype 0 in
    Ok (mkEmission
          ["Found variant " +:+ show refAllele +:+ " -> "
             +:+ show (concat (map (λ a, [a; ","%char]) (alts call)))
             +:+ " on node " +:+ pretty (Node.id node)
             +:+ " at 1-based reference position " +:+ pretty (position variant)]
          [variant]).

Fixpoint call_ref_bases (vg : VG) (t : Trace) (calls : CallTable) (node : Node.t)
    (offsets : list Z) : result Emission :=
  match offsets with
  | [] => Ok nothing
  | i :: rest =>
      e ← call_ref_base vg t calls node i;
      e' ← call_ref_bases vg t calls node rest;
      Ok (emission_app e e')
  end.

(** The body of the second [for_each_node]. *)
Definition call_ref_node (vg : VG) (t : Trace) (calls : CallTable) (node : Node.t)
    : result Emission :=
  match referencePositionAndOrientation t !! Node.id node with
  | None => Ok nothing
  | Some _ => call_ref_bases vg t calls node (seqZ 0 (len (Node.sequence node)))
  end.

(** ** The run *)

(** [vg.for_each_node(body)] *)
Fixpoint for_each_node (body : Node.t → result Emission) (ns : list Node.t)
    : result Emission :=
  match ns with
  | [] => Ok nothing
  | n :: rest =>
      e ← body n;
      e' ← for_each_node body rest;
      Ok (emission_app e e')
  end.

(** [main] from the loaded graph on; [lines] are the lines of the call
    file. The progress lines of the tracer and of the reader and the header
    of the output are left out. *)
Definition run (vg : VG) (refPathName : string) (lines : list (list ascii))
    : result Emission :=
  t ← trace_reference vg refPathName;
  calls ← read_calls ∅ lines;
  structural ← for_each_node (call_alt_node vg t calls) (nodes vg);
  snps ← for_each_node (call_ref_node vg t calls) (nodes vg);
  Ok (emission_app structural snps).

(** ** A graph to compute with *)

Definition complement (c : ascii) : ascii :=
  if decide (c = "A"%char) then "T"%char
  else if decide (c = "T"%char) then "A"%char
  else if decide (c = "C"%char) then "G"%char
  else if decide (c = "G"%char) then "C"%char
  else c.

(** A stand-in for [vg::reverse_complement] on the four bases. *)
Definition dna_reverse_complement (s : list ascii) : list ascii :=
  reverse (map complement s).

(** A graph from its nodes, its edges and its reference path "ref", all of
    whose mappings are forward. An edge is a pair of traversals, given by node
    id and orientation, the first followed by the second. *)
Definition sample_vg (ns : list Node.t) (edges : list ((Z * bool) * (Z * bool)))
    (path : list Z) : VG :=
  let find i := List.find (λ n, Node.id n =? i) ns in
  let is_end (x : Z * bool) (tr : NodeTraversal.t) :=
    (x.1 =? Node.id (NodeTraversal.node tr)) && eqb x.2 (NodeTraversal.backward tr) in
  let across (here there : (Z * bool) * (Z * bool) → Z * bool) (tr : NodeTraversal.t) :=
    omap (λ e, if is_end (here e) tr
               then n ← find (there e).1; Some (NodeTraversal.mk n (there e).2)
               else None) edges in
  mkVG ns
       (<["ref" := map (λ i, Mapping.mk i false []) path]> ∅)
       (across snd fst) (across fst snd)
       dna_reverse_complement.

Definition fwd (i : Z) : Z * bool := (i, false).
Definition bwd (i : Z) : Z * bool := (i, true).

(** Reference ACGTA.C with the node GG inserted between its two nodes. *)
Definition insertion_vg : VG :=
  sample_vg [Node.mk 1 (text "ACGTA"); Node.mk 2 (text "C"); Node.mk 3 (text "GG")]
            [(fwd 1, fwd 2); (fwd 1, fwd 3); (fwd 3, fwd 2)] [1; 2].

(** Reference AC.G.TA with the node TT in place of its middle node; the
    node CC is entered from the last node and left towards the first, the
    node AA is entered from and left towards the middle node, the node GT is
    entered from the first node and left towards the last read backward, and
    the node AG lies, read backward, in place of the middle node. *)
Definition bubble_vg : VG :=
  sample_vg [Node.mk 1 (text "AC"); Node.mk 2 (text "G"); Node.mk 3 (text "TA");
             Node.mk 4 (text "TT"); Node.mk 5 (text "CC"); Node.mk 6 (text "AA");
             Node.mk 7 (text "GT"); Node.mk 8 (text "AG")]
            [(fwd 1, fwd 2); (fwd 2, fwd 3); (fwd 1, fwd 4); (fwd 4, fwd 3);
             (fwd 3, fwd 5); (fwd 5, fwd 1); (fwd 2, fwd 6); (fwd 6, fwd 2);
             (fwd 1, fwd 7); (fwd 7, bwd 3); (bwd 3, fwd 8); (fwd 8, bwd 1)]
            [1; 2; 3].

(** A reference path over a node without bases. *)
Definition empty_node_vg : VG :=
  sample_vg [Node.mk 1 []; Node.mk 2 (text "A")] [(fwd 1, fwd 2)] [1; 2].

(** Reference AC.GGT whose second node the path visits backward. *)
Definition reverse_vg : VG :=
  mkVG [Node.mk 1 (text "AC"); Node.mk 2 (text "GGT")]
       (<["ref" := [Mapping.mk 1 false []; Mapping.mk 2 true []]]> ∅)
       (λ _, []) (λ _, []) dna_reverse_complement.

(** The traces of these graphs. *)
Definition trace_of (vg : VG) : Trace :=
  match trace_reference vg "ref" with Ok t => t | Err _ => trace_start end.

Definition insertion_trace : Trace := Eval vm_compute in trace_of insertion_vg.
Definition bubble_trace : Trace := Eval vm_compute in trace_of bubble_vg.
Definition empty_node_trace : Trace := Eval vm_compute in trace_of empty_node_vg.
Definition reverse_trace : Trace := Eval vm_compute in trace_of reverse_vg.

(** Call files for these graphs, and the tables read from them. *)
Definition insertion_lines : list (list ascii) :=
  map text ["1 1 A -"; "1 2 C -"; "1 3 G -"; "1 4 T -"; "1 5 A -"; "2 1 C T,A";
            "3 1 G ."; "3 2 G ."].

Definition bubble_lines : list (list ascii) :=
  map text ["1 1 A -"; "1 2 C -"; "2 1 G -"; "3 1 T -"; "3 2 A C,.";
            "4 1 T ."; "4 2 T ."; "8 1 A ."; "8 2 G ."].

Definition reverse_lines : list (list ascii) :=
  map text ["1 1 A -"; "1 2 C -"; "2 1 G A"; "2 2 G -"; "2 3 T -"].

Definition calls_of_lines (lines : list (list ascii)) : CallTable :=
  match read_calls ∅ lines with Ok calls => calls | Err _ => ∅ end.

Definition insertion_calls : CallTable := Eval vm_compute in calls_of_lines insertion_lines.
Definition bubble_calls : CallTable := Eval vm_compute in calls_of_lines bubble_lines.
Definition reverse_calls : CallTable := Eval vm_compute in calls_of_lines reverse_lines.

(** Call files that leave out a base of a reference node: the one base of
    node 2 of [bubble_vg], and the last base of node 1 of [insertion_vg]. *)
Definition bubble_lines_without_node_2 : list (list ascii) :=
  map text ["1 1 A -"; "1 2 C -"; "3 1 T -"; "3 2 A C,."; "4 1 T ."; "4 2 T ."].

Definition insertion_lines_without_a_base : list (list ascii) :=
  map text ["1 1 A -"; "1 2 C -"; "1 3 G -"; "1 4 T -"; "2 1 C T,A";
            "3 1 G ."; "3 2 G ."].

(** Reference AC.G with the node T entered from the first node and left
    towards no node. *)
Definition dangling_vg : VG :=
  sample_vg [Node.mk 1 (text "AC"); Node.mk 2 (text "G"); Node.mk 3 (text "T")]
            [(fwd 1, fwd 2); (fwd 1, fwd 3)] [1; 2].

Definition dangling_trace : Trace := Eval vm_compute in trace_of dangling_vg.

(** Call files for [bubble_vg] with a call for the second base only of node
    4, and with an alt at the first base of node 4. *)
Definition partial_lines : list (list ascii) := map text ["4 2 T ."].

Definition novel_lines : list (list ascii) :=
  map text ["1 1 A -"; "1 2 C -"; "2 1 G -"; "3 1 T -"; "3 2 A -";
            "4 1 T .,A"; "4 2 T ."].

Definition partial_calls : CallTable := Eval vm_compute in calls_of_lines partial_lines.
Definition novel_calls : CallTable := Eval vm_compute in calls_of_lines novel_lines.

(** ** Vocabulary of the statements *)

(** A token that is neither of the two special call characters. *)
Definition is_alt_token (a : list ascii) : Prop := a ≠ text "-" ∧ a ≠ text ".".

#[global] Instance is_alt_token_dec a : Decision (is_alt_token a).
Proof. unfold is_alt_token. apply _. Defined.

(** The tokens of a set that the constructor stores as alt bases. *)
Definition alt_tokens (altSet : list (list ascii)) : list (list ascii) :=
  filter is_alt_token altSet.

(** The constructor's two assertions hold all the way through [altSet]
    when it starts with [n] alts stored. *)
Definition storable (n : nat) (altSet : list (list ascii)) : Prop :=
  Forall (λ a, length a = 1%nat) (alt_tokens altSet)
  ∧ (alt_tokens altSet = [] ∨ (n + length (alt_tokens altSet) ≤ 2)%nat).

(** The text of a line between runs of white space, as the file format
    counts tokens; [cur] is the token being read, reversed. *)
Fixpoint ws_tokens (cur s : list ascii) : list (list ascii) :=
  match s with
  | [] => match cur with [] => [] | _ => [reverse cur] end
  | c :: s' =>
      if isspace c
      then match cur with [] => ws_tokens [] s' | _ => reverse cur :: ws_tokens [] s' end
      else ws_tokens (c :: cur) s'
  end.

(** A line that is not blank and misses one of the four tokens. *)
Definition misses_token (line : list ascii) : Prop :=
  line ≠ [] ∧ (length (ws_tokens [] line) < 4)%nat.

(** White space only. *)
Definition blank (s : list ascii) : Prop := Forall (λ c, isspace c = true) s.

(** An integer as the file writes it: an optional sign, then digits. *)
Definition number (tok : list ascii) : Prop :=
  ∃ sign ds, tok = sign ++ ds
             ∧ (sign = [] ∨ sign = ["-"%char] ∨ sign = ["+"%char])
             ∧ ds ≠ [] ∧ Forall (λ c, isdigit c = true) ds.

(** The line stops, but for white space, after fewer than four tokens: it
    is white space, or a number, or two numbers, or two numbers and a
    character, with white space between them. *)
Definition lacks_tokens (line : list ascii) : Prop :=
  blank line
  ∨ (∃ sp0 t1 sp1,
       line = sp0 ++ t1 ++ sp1 ∧ blank sp0 ∧ number t1 ∧ blank sp1)
  ∨ (∃ sp0 t1 sp1 t2 sp2,
       line = sp0 ++ t1 ++ sp1 ++ t2 ++ sp2
       ∧ blank sp0 ∧ number t1 ∧ sp1 ≠ [] ∧ blank sp1 ∧ number t2 ∧ blank sp2)
  ∨ (∃ sp0 t1 sp1 t2 sp2 c sp3,
       line = sp0 ++ t1 ++ sp1 ++ t2 ++ sp2 ++ c :: sp3
       ∧ blank sp0 ∧ number t1 ∧ sp1 ≠ [] ∧ blank sp1 ∧ number t2
       ∧ sp2 ≠ [] ∧ blank sp2 ∧ isspace c = false ∧ blank sp3).

(** The text goes on with something that is not a digit, or ends. *)
Definition no_digit_next (s : list ascii) : Prop :=
  match s with [] => True | x :: _ => isdigit x = false end.

(** One of the four extractions of the line failed. *)
Definition extraction_fails (line : list ascii) : Prop :=
  f_stream (read_fields line) = None.

(** The alt bases of a call string in the order in which the string lists
    them. *)
Definition alts_as_listed (call : list ascii) : list (list ascii) :=
  filter is_alt_token (call_tokens call).

(** The reference coordinate of offset [i] of a node of [n] bases placed
    at [first], backward in the reference when [second]. *)
Definition reference_coordinate (first : Z) (second : bool) (n i : Z) : Z :=
  if second then first + (n - i - 1) else first + i.

(** An alt base as the record lists it. *)
Definition oriented (vg : VG) (second : bool) (a : ascii) : list ascii :=
  if second then reverse_complement vg [a] else [a].

(** A call as the reader and the constructor can leave it in the table. *)
Definition well_formed_call (c : BaseCall) : Prop := (length (alts c) ≤ 2)%nat.

(** *** The path laid out along the reference

    [layout vg base path] lists, for the mappings of [path] in order, the
    coordinate at which each begins when the first begins at [base], with
    the node it visits; it stops at a mapping whose node the graph lacks. *)
Fixpoint layout (vg : VG) (base : Z) (path : list Mapping.t)
    : list (Z * NodeTraversal.t) :=
  match path with
  | [] => []
  | mapping :: rest =>
      match get_node vg (Mapping.node_id mapping) with
      | None => []
      | Some n =>
          (base, NodeTraversal.mk n (Mapping.is_reverse mapping))
            :: layout vg (base + len (Node.sequence n)) rest
      end
  end.

Definition visited (e : Z * NodeTraversal.t) : Node.t := NodeTraversal.node e.2.

(** The bases of a laid-out path, in order. *)
Definition layout_sequence (L : list (Z * NodeTraversal.t)) : list ascii :=
  concat (map (λ e, Node.sequence (visited e)) L).

(** Where and how the path first visits the node [i]. *)
Fixpoint first_visit (L : list (Z * NodeTraversal.t)) (i : Z) : option (Z * bool) :=
  match L with
  | [] => None
  | e :: rest =>
      if Node.id (visited e) =? i then Some (e.1, NodeTraversal.backward e.2)
      else first_visit rest i
  end.

(** The call table has an entry for every base of the node. *)
Definition covered (calls : CallTable) (n : Node.t) : Prop :=
  len (Node.sequence n) ≤ len (calls_of calls (Node.id n)).

#[global] Instance covered_dec calls n : Decision (covered calls n).
Proof. unfold covered. apply _. Defined.

(** The base is called present or carries an alt. *)
Definition observed (c : BaseCall) : bool := graphBasePresent c || (0 <? numberOfAlts c).

(** Some base of the node is called present or carries an alt. *)
Definition node_observed (calls : CallTable) (n : Node.t) : bool :=
  existsb observed (take (length (Node.sequence n)) (calls_of calls (Node.id n))).

(** The scan of the calls of a list of reference nodes, one after the
    other. *)
Fixpoint scan_nodes (calls : CallTable) (ns : list Node.t) (refPathExists : bool)
    : result bool :=
  match ns with
  | [] => Ok refPathExists
  | n :: rest =>
      exists' ← scan_node calls (Node.id n) (seqZ 0 (len (Node.sequence n))) refPathExists;
      scan_nodes calls rest exists'
  end.

(** The node has a reference anchor on either side, reading in and reading
    out agree in direction, and read along the reference the node is entered
    from [inNode], placed at [inPlacement], and left towards [outNode],
    placed at [outPlacement]; [altBackward] tells whether that reads the
    node backward. *)
Definition anchored (vg : VG) (t : Trace) (node : Node.t) (altBackward : bool)
    (inNode outNode : NodeTraversal.t) (inPlacement outPlacement : Z * bool) : Prop :=
  ∃ a b pa pb,
    (leftmost (referencePositionAndOrientation t)
              (nodes_prev vg (NodeTraversal.mk node false))).2 = Some a
    ∧ (leftmost (referencePositionAndOrientation t)
                (nodes_next vg (NodeTraversal.mk node false))).2 = Some b
    ∧ referencePositionAndOrientation t !! Node.id (NodeTraversal.node a) = Some pa
    ∧ referencePositionAndOrientation t !! Node.id (NodeTraversal.node b) = Some pb
    ∧ eqb (NodeTraversal.backward a) pa.2 = eqb (NodeTraversal.backward b) pb.2
    ∧ altBackward = negb (eqb (NodeTraversal.backward a) pa.2)
    ∧ (inNode, inPlacement, outNode, outPlacement)
      = if altBackward then (b, pb, a, pa) else (a, pa, b, pb).

(** Every coordinate placed for an earlier mapping of the path is below
    every coordinate placed for a later one. *)
Definition placed_strictly_ascending (t : Trace) (path : list Mapping.t) : Prop :=
  ∀ j k mj mk pj pk,
    (j < k)%nat → path !! j = Some mj → path !! k = Some mk →
    referencePositionAndOrientation t !! Mapping.node_id mj = Some pj →
    referencePositionAndOrientation t !! Mapping.node_id mk = Some pk →
    pj.1 < pk.1.

(** *** The replaced reference interval

    The mapping [e] of the layout [L] has a base whose reference coordinate
    lies in the interval from [start] to before [pastEnd]. *)
Definition in_interval (L : list (Z * NodeTraversal.t)) (start pastEnd : Z)
    (e : Z * NodeTraversal.t) : Prop :=
  e ∈ L ∧ ∃ i, 0 ≤ i < len (Node.sequence (visited e)) ∧ start ≤ e.1 + i < pastEnd.

(** The call table has an entry for every base of every node that the
    reference path visits within the interval. *)
Definition interval_covered (calls : CallTable) (L : list (Z * NodeTraversal.t))
    (start pastEnd : Z) : Prop :=
  ∀ e, in_interval L start pastEnd e → covered calls (visited e).

(** Some base of a node that the reference path visits within the interval
    is called present or carries an alt. *)
Definition interval_observed (calls : CallTable) (L : list (Z * NodeTraversal.t))
    (start pastEnd : Z) : Prop :=
  ∃ e, in_interval L start pastEnd e ∧ node_observed calls (visited e) = true.

(** The sequence of a non-reference node as read along the reference. *)
Definition oriented_sequence (vg : VG) (altBackward : bool) (node : Node.t) : list ascii :=
  if altBackward then reverse_complement vg (Node.sequence node) else Node.sequence node.

(** The node has a call, and every call of it has the graph base present. *)
Definition fully_present (calls : CallTable) (node : Node.t) : Prop :=
  calls_of calls (Node.id node) ≠ []
  ∧ Forall (λ c, graphBasePresent c = true) (calls_of calls (Node.id node)).

(** Every call of the table is well formed. *)
Definition calls_well_formed (calls : CallTable) : Prop :=
  ∀ nodeId, Forall well_formed_call (calls_of calls nodeId).

(** [ascending s]: each element is below all later ones. *)
Definition ascending_from (x : list ascii) (s : list (list ascii)) : Prop :=
  Forall (λ y, string_lt x y = true) s.

Inductive ascending : list (list ascii) → Prop :=
  | ascending_nil : ascending []
  | ascending_cons x s : ascending_from x s → ascending s → ascending (x :: s).

(** *** The mappings of the reference path

    Every edit of the mapping keeps the length and carries no sequence. *)
Definition perfect_match (m : Mapping.t) : Prop :=
  Forall (λ e, Edit.from_length e = Edit.to_length e ∧ Edit.sequence e = [])
         (Mapping.edit m).

(** A mapping that the tracing loop gets past: a perfect match on a node
    of the graph. *)
Definition traceable (vg : VG) (m : Mapping.t) : Prop :=
  perfect_match m ∧ is_Some (get_node vg (Mapping.node_id m)).

(** *** The records of the two passes

    The call at offset [i] of the node records an alt base. *)
Definition carries_alt (calls : CallTable) (nodeId i : Z) : bool :=
  match calls_of calls nodeId !! Z.to_nat i with
  | Some c => negb (numberOfAlts c =? 0)
  | None => false
  end.

(** The outcome is a value with the property [P], or a failure other than
    the exception of the genotype table of the pass over reference nodes. *)
Definition yields {A} (P : A → Prop) (r : result A) : Prop :=
  match r with
  | Ok a => P a
  | Err f => f ≠ Uncaught "Semantically invalid BaseCall"
  end.

(** A record with a reference allele, one or two alt alleles, quality 0 and
    one of the three genotypes, the homozygous one with a single alt allele
    and the one of two alts with two alt alleles. *)
Definition record_shape (v : Variant) : Prop :=
  ref v ≠ [] ∧ (1 ≤ length (alt v) ≤ 2)%nat ∧ quality v = 0
  ∧ (genotype v = "1/0"
     ∨ (genotype v = "1/1" ∧ length (alt v) = 1%nat)
     ∨ (genotype v = "1/2" ∧ length (alt v) = 2%nat)).

(** The node [c] is placed on the reference at [pc]. *)
Definition placed_at (placements : Placements) (c : NodeTraversal.t) (pc : Z * bool)
    : Prop :=
  placements !! Node.id (NodeTraversal.node c) = Some pc.

(** Some call of the node records an alt base. *)
Definition has_novel_alts (calls : CallTable) (node : Node.t) : bool :=
  existsb (λ c, 0 <? numberOfAlts c) (calls_of calls (Node.id node)).

(** *** The tokens of a line

    A number without sign: digits, at least one. *)
Definition digits (tok : list ascii) : Prop :=
  tok ≠ [] ∧ Forall (λ c, isdigit c = true) tok.

(** The text ends, or goes on with white space. *)
Definition ends_token (rest : list ascii) : Prop :=
  match rest with [] => True | x :: _ => isspace x = true end.

(** The call vector [vec] once the call [c] is stored at offset [o], with
    room made for it where the vector was shorter. *)
Definition store (vec : list BaseCall) (o : nat) (c : BaseCall) : list BaseCall :=
  <[o := c]> (if decide (length vec ≤ o)%nat
              then resize (S o) BaseCall_default vec else vec).

(** A line from which the reader takes a node id, an offset other than 0
    and not above [max_size], and a call that the constructor accepts. *)
Definition storable_line (line : list ascii) : Prop :=
  ∃ nodeId offset c,
    f_nodeId (read_fields line) = Some nodeId
    ∧ f_offset (read_fields line) = Some offset ∧ offset ≠ 0 ∧ offset ≤ max_size
    ∧ BaseCall_of (std_set (call_tokens (f_call (read_fields line)))) = Ok c.

(** No call vector has more entries than [max_size]. *)
Definition vectors_fit (calls : CallTable) : Prop :=
  ∀ nodeId, len (calls_of calls nodeId) ≤ max_size.

(** *** Records and the reference sequence

    The graph holds each of its nodes under the node's id, and the
    neighbours of its nodes are nodes that it holds under their ids. *)
Definition graph_closed (vg : VG) : Prop :=
  Forall (λ n, get_node vg (Node.id n) = Some n
               ∧ Forall (λ c, get_node vg (Node.id (NodeTraversal.node c))
                              = Some (NodeTraversal.node c))
                        (nodes_prev vg (NodeTraversal.mk n false)
                         ++ nodes_next vg (NodeTraversal.mk n false)))
         (nodes vg).

(** The position of the record, less one, is a coordinate of the reference
    sequence, and the reference allele of the record is the reference
    sequence from there on. *)
Definition on_reference (t : Trace) (v : Variant) : Prop :=
  1 ≤ position v
  ∧ position v - 1 + len (ref v) ≤ len (refSeq t)
  ∧ ref v = take (length (ref v)) (drop (Z.to_nat (position v - 1)) (refSeq t)).

(** * Properties *)

(** ** Outcomes *)

Lemma assert_Ok b e : assert b e = Ok tt ↔ b = true.
Proof. destruct b; simpl; split; done. Qed.

(** ** The order on strings and [std::set] *)

Lemma code_inj a b : code a = code b → a = b.
Proof.
  unfold code. intros H.
  rewrite <- (ascii_N_embedding a), <- (ascii_N_embedding b). by rewrite H.
Qed.

Lemma string_lt_total a b : string_lt a b = false → string_lt b a = false → a = b.
Proof.
  revert b. induction a as [|x a IH]; intros [|y b]; simpl; try done.
  destruct (N.ltb_spec (N_of_ascii x) (N_of_ascii y)); [done|].
  destruct (N.ltb_spec (N_of_ascii y) (N_of_ascii x)); [done|].
  intros Hab Hba. assert (x = y) as -> by (apply code_inj; unfold code; lia).
  f_equal. by apply IH.
Qed.

Lemma string_lt_trans a b c :
  string_lt a b = true → string_lt b c = true → string_lt a c = true.
Proof.
  revert b c. induction a as [|x a IH]; intros [|y b] [|z c]; simpl; try done.
  destruct (N.ltb_spec (N_of_ascii x) (N_of_ascii y)), (N.ltb_spec (N_of_ascii y) (N_of_ascii z)),
    (N.ltb_spec (N_of_ascii x) (N_of_ascii z)), (N.ltb_spec (N_of_ascii y) (N_of_ascii x)),
    (N.ltb_spec (N_of_ascii z) (N_of_ascii y)), (N.ltb_spec (N_of_ascii z) (N_of_ascii x));
    try done; try lia.
  apply IH.
Qed.

Lemma elem_of_set_insert x y s : y ∈ set_insert x s ↔ y = x ∨ y ∈ s.
Proof.
  induction s as [|z s IH]; simpl.
  - rewrite list_elem_of_singleton, elem_of_nil. tauto.
  - destruct (string_lt x z) eqn:Hxz; [by rewrite elem_of_cons|].
    destruct (string_lt z x) eqn:Hzx.
    + rewrite !elem_of_cons, IH. tauto.
    + assert (x = z) as -> by by apply string_lt_total.
      rewrite elem_of_cons. tauto.
Qed.

Lemma elem_of_fold_set_insert y range s :
  y ∈ fold_left (λ s x, set_insert x s) range s ↔ y ∈ range ∨ y ∈ s.
Proof.
  revert s. induction range as [|x range IH]; intros s; simpl.
  - rewrite elem_of_nil. tauto.
  - rewrite IH, elem_of_set_insert, elem_of_cons. tauto.
Qed.

Lemma elem_of_std_set y range : y ∈ std_set range ↔ y ∈ range.
Proof. unfold std_set. rewrite elem_of_fold_set_insert, elem_of_nil. tauto. Qed.

Lemma set_insert_ascending x s : ascending s → ascending (set_insert x s).
Proof.
  induction 1 as [|z s Hz Hs IH]; simpl.
  - constructor; [apply Forall_nil_2|constructor].
  - destruct (string_lt x z) eqn:Hxz.
    + constructor; [|by constructor].
      constructor; [done|]. eapply Forall_impl; [exact Hz|].
      simpl. eauto using string_lt_trans.
    + destruct (string_lt z x) eqn:Hzx; [|by constructor].
      constructor; [|done].
      apply Forall_forall. intros y Hy. apply elem_of_set_insert in Hy as [->|Hy]; [done|].
      by eapply Forall_forall in Hz.
Qed.

Lemma std_set_ascending range : ascending (std_set range).
Proof.
  unfold std_set. generalize (ascending_nil). generalize (@nil (list ascii)).
  induction range as [|x range IH]; intros s Hs; simpl; [done|].
  apply IH. by apply set_insert_ascending.
Qed.

(** ** The constructor of [BaseCall] *)

Lemma alt_tokens_cons a s :
  alt_tokens (a :: s) = if decide (is_alt_token a) then a :: alt_tokens s else alt_tokens s.
Proof. unfold alt_tokens. by rewrite filter_cons. Qed.

Lemma length_concat_singletons (s : list (list ascii)) :
  Forall (λ a, length a = 1%nat) s → length (concat s) = length s.
Proof.
  induction 1 as [|a s Ha Hs IH]; simpl; [done|].
  rewrite length_app. lia.
Qed.

(** The loop from any state: it ends well exactly on [storable] input, and
    then has or-ed in the presence of "." and appended the alt tokens. *)
Lemma BaseCall_loop_spec altSet : ∀ c,
  match BaseCall_loop c altSet with
  | Ok c' =>
      storable (length (alts c)) altSet
      ∧ graphBasePresent c' = graphBasePresent c || bool_decide (text "." ∈ altSet)
      ∧ alts c' = alts c ++ concat (alt_tokens altSet)
  | Err f => ¬ storable (length (alts c)) altSet ∧ ∃ e, f = AssertionFailed e
  end.
Proof.
  unfold storable.
  induction altSet as [|a s IH]; intros c; simpl.
  - rewrite orb_false_r, app_nil_r. unfold alt_tokens. simpl. auto.
  - rewrite alt_tokens_cons. unfold BaseCall_add.
    destruct (decide (a = text "-")) as [->|Hdash].
    { rewrite decide_False by (unfold is_alt_token; tauto).
      rewrite (bool_decide_ext (text "." ∈ text "-" :: s) (text "." ∈ s))
        by (rewrite elem_of_cons; split; [intros [?|?]; done|auto]).
      exact (IH c). }
    destruct (decide (a = text ".")) as [->|Hdot].
    { rewrite decide_False by (unfold is_alt_token; tauto).
      rewrite (bool_decide_eq_true_2 (text "." ∈ text "." :: s)) by (apply elem_of_cons; auto).
      rewrite orb_true_r. exact (IH (mkBaseCall true (alts c))). }
    rewrite decide_True by done.
    unfold assert, len, numberOfAlts, len, MAX_ALTS.
    destruct (Z.eqb_spec (Z.of_nat (length a)) 1) as [Hlen|Hlen]; simpl.
    2:{ split; [|eauto]. intros [Hall _]. apply Forall_cons_1 in Hall as [? _]. lia. }
    destruct (Z.ltb_spec (Z.of_nat (length (alts c))) 2) as [Hn|Hn]; simpl.
    2:{ split; [|eauto]. intros [_ [?|?]]; [done|]. simpl in *. lia. }
    specialize (IH (mkBaseCall (graphBasePresent c) (alts c ++ take 1 a))). simpl in IH.
    assert (take 1 a = a) as Htake by (apply take_ge; lia).
    rewrite Htake in IH |- *. rewrite length_app in IH.
    rewrite (bool_decide_ext (text "." ∈ a :: s) (text "." ∈ s))
      by (rewrite elem_of_cons; split; [intros [?|?]; done|auto]).
    destruct (BaseCall_loop _ s) as [c'|f].
    + destruct IH as ([Hall Hcount] & Hp & Ha). split; [|split; [done|]].
      * split; [apply Forall_cons; split; [lia|done]|]. right.
        destruct Hcount as [->|?]; simpl; lia.
      * rewrite Ha. simpl. by rewrite <- (assoc_L (++)).
    + destruct IH as (Hno & He). split; [|done].
      intros [Hall Hcount]. apply Hno. apply Forall_cons_1 in Hall as [? Hall].
      split; [done|]. destruct Hcount as [?|Hcount]; [done|].
      simpl in Hcount. right. lia.
Qed.

(** C7. For every set of call tokens the constructor either builds a
    [BaseCall] or fails an assertion. It builds one exactly when every token
    other than "-" and "." is a single character and there are at most two
    of them; then [graphBasePresent] tells whether "." is in the set, "-" has
    no effect, and [alts] holds those characters in the order of the set.
    The set of "." and "A" gives presence with the one alt "A"; the set made
    from "-" and "-" gives absence with no alt. *)
Theorem BaseCall_of_token_set (range : list (list ascii)) :
  match BaseCall_of (std_set range) with
  | Ok c =>
      Forall (λ a, length a = 1%nat) (alt_tokens (std_set range))
      ∧ (length (alt_tokens (std_set range)) ≤ 2)%nat
      ∧ graphBasePresent c = bool_decide (text "." ∈ range)
      ∧ alts c = concat (alt_tokens (std_set range))
      ∧ (length (alts c) ≤ 2)%nat
  | Err f =>
      (Exists (λ a, length a ≠ 1%nat) (alt_tokens (std_set range))
       ∨ (2 < length (alt_tokens (std_set range)))%nat)
      ∧ ∃ e, f = AssertionFailed e
  end
  ∧ BaseCall_of (std_set [text "."; text "A"]) = Ok (mkBaseCall true (text "A"))
  ∧ BaseCall_of (std_set [text "-"; text "-"]) = Ok (mkBaseCall false []).
Proof.
  split; [|by vm_compute].
  unfold BaseCall_of.
  pose proof (BaseCall_loop_spec (std_set range) (mkBaseCall false [])) as H.
  unfold storable in H. simpl in H.
  destruct (BaseCall_loop _ _) as [c|f].
  - destruct H as ([Hall Hcount] & Hp & Ha).
    assert (length (alt_tokens (std_set range)) ≤ 2)%nat as Hle
      by (destruct Hcount as [->|?]; simpl; lia).
    repeat split; try done.
    + rewrite Hp. apply bool_decide_ext, elem_of_std_set.
    + rewrite Ha. simpl. by rewrite length_concat_singletons.
  - destruct H as (Hno & He). split; [|done].
    destruct (decide (2 < length (alt_tokens (std_set range)))%nat); [by right|left].
    apply not_Forall_Exists; [apply _|]. intros Hall. apply Hno. split; [done|right; lia].
Qed.

(** ** The reader of the call file *)

(** Once the stream has failed, no later extraction repairs it; so a line
    whose stream ends failed has left [call] empty. *)
Lemma extraction_fails_call_empty line :
  extraction_fails line → f_call (read_fields line) = [].
Proof.
  unfold extraction_fails, read_fields.
  destruct (extract_num true (Some line)) as [nodeId s1].
  destruct (extract_num false s1) as [offset s2].
  destruct (extract_char s2) as [graphBase s3].
  unfold extract_string. destruct (sentry s3) as [s|]; simpl; done.
Qed.

Lemma BaseCall_of_empty_call :
  BaseCall_of (std_set (call_tokens [])) = Err (AssertionFailed "alt.size() == 1").
Proof. reflexivity. Qed.

Lemma add_line_extraction_fails calls line :
  line ≠ [] → extraction_fails line → ∃ f, add_line calls line = Err f.
Proof.
  intros Hline Hfail. unfold add_line. rewrite decide_False by done.
  rewrite (extraction_fails_call_empty line Hfail), BaseCall_of_empty_call.
  destruct (f_nodeId (read_fields line)) as [nodeId|],
    (f_offset (read_fields line)) as [offset|]; simpl; eauto.
  destruct (if len (calls_of calls nodeId) <=? wrap (offset - 1)
            then vector_resize (wrap (wrap (offset - 1) + 1)) (calls_of calls nodeId)
            else Ok (calls_of calls nodeId)); simpl; eauto.
Qed.

Lemma read_calls_Err_elem calls lines line :
  line ∈ lines → (∀ calls', ∃ f, add_line calls' line = Err f) →
  ∃ f, read_calls calls lines = Err f.
Proof.
  intros Hin Hline. revert calls.
  induction lines as [|l lines IH]; intros calls; [by apply elem_of_nil in Hin|].
  simpl. apply elem_of_cons in Hin as [<-|Hin].
  - destruct (Hline calls) as [f ->]. simpl. eauto.
  - destruct (add_line calls l) as [calls'|f]; simpl; [by apply IH|eauto].
Qed.

(** *** Lines that stop early *)

Lemma isdigit_not_space c : isdigit c = true → isspace c = false.
Proof.
  unfold isdigit, isspace. intros [H1 H2]%andb_prop.
  apply N.leb_le in H1. apply N.leb_le in H2.
  apply orb_false_intro; [apply N.eqb_neq; lia|].
  apply andb_false_intro2. apply N.leb_gt. lia.
Qed.

Lemma isspace_not_digit c : isspace c = true → isdigit c = false.
Proof.
  intros Hs. destruct (isdigit c) eqn:Hd; [|done].
  apply isdigit_not_space in Hd. congruence.
Qed.

Lemma isdigit_not_sign c : isdigit c = true → c ≠ "-"%char ∧ c ≠ "+"%char.
Proof. intros Hd. split; intros ->; done. Qed.

Lemma drop_while_all {A} (p : A → bool) sp s :
  Forall (λ c, p c = true) sp → drop_while p (sp ++ s) = drop_while p s.
Proof. induction 1 as [|c sp Hc _ IH]; simpl; [done|]. by rewrite Hc. Qed.

Lemma take_while_all {A} (p : A → bool) sp s :
  Forall (λ c, p c = true) sp → take_while p (sp ++ s) = sp ++ take_while p s.
Proof. induction 1 as [|c sp Hc _ IH]; simpl; [done|]. by rewrite Hc, IH. Qed.

Lemma blank_no_digit_next sp s : sp ≠ [] → blank sp → no_digit_next (sp ++ s).
Proof.
  intros Hne Hsp. destruct sp as [|x sp]; [done|]. simpl.
  apply Forall_cons_1 in Hsp as [Hx _]. by apply isspace_not_digit.
Qed.

Lemma blank_only_no_digit_next sp : blank sp → no_digit_next sp.
Proof.
  intros Hsp. destruct sp as [|x sp]; [done|]. simpl.
  apply Forall_cons_1 in Hsp as [Hx _]. by apply isspace_not_digit.
Qed.

Lemma sentry_blank sp : blank sp → sentry (Some sp) = None.
Proof.
  intros Hsp. unfold sentry. rewrite <- (app_nil_r sp), drop_while_all by done. done.
Qed.

Lemma sentry_token sp x s :
  blank sp → isspace x = false → sentry (Some (sp ++ x :: s)) = Some (x :: s).
Proof.
  intros Hsp Hx. unfold sentry. rewrite drop_while_all by done. simpl. by rewrite Hx.
Qed.

Lemma number_head tok : number tok → ∃ x tok', tok = x :: tok' ∧ isspace x = false.
Proof.
  intros (sign & ds & -> & Hsign & Hne & Hds).
  destruct ds as [|d ds]; [done|]. apply Forall_cons_1 in Hds as [Hd _].
  destruct Hsign as [->|[->| ->]]; simpl; eauto using isdigit_not_space.
Qed.

(** On a number followed by no digit, [num_get] leaves what follows the
    number, or fails on a value that the type cannot hold. *)
Lemma num_get_number is_signed tok s :
  number tok → no_digit_next s →
  (num_get is_signed (tok ++ s)).2 = None ∨ (num_get is_signed (tok ++ s)).2 = Some s.
Proof.
  intros (sign & ds & -> & Hsign & Hne & Hds) Hs.
  assert (take_while isdigit (ds ++ s) = ds) as Htake.
  { rewrite take_while_all by done. destruct s as [|x s]; simpl; [by rewrite app_nil_r|].
    simpl in Hs. by rewrite Hs, app_nil_r. }
  assert (drop_while isdigit (ds ++ s) = s) as Hdrop.
  { rewrite drop_while_all by done. destruct s as [|x s]; simpl; [done|].
    simpl in Hs. by rewrite Hs. }
  unfold num_get.
  destruct Hsign as [->|[->| ->]]; simpl.
  - destruct ds as [|d ds]; [done|]. pose proof Hds as Hd.
    apply Forall_cons_1 in Hd as [Hd _]. apply isdigit_not_sign in Hd as [Hm Hp].
    simpl. rewrite decide_False, decide_False by done.
    change (d :: ds ++ s) with ((d :: ds) ++ s). rewrite Htake, Hdrop.
    destruct is_signed; repeat case_match; simpl; auto.
  - rewrite Htake, Hdrop. destruct ds; [done|].
    destruct is_signed; repeat case_match; simpl; auto.
  - rewrite Htake, Hdrop. destruct ds; [done|].
    destruct is_signed; repeat case_match; simpl; auto.
Qed.

Lemma extract_num_number is_signed sp tok s :
  blank sp → number tok → no_digit_next s →
  (extract_num is_signed (Some (sp ++ tok ++ s))).2 = None
  ∨ (extract_num is_signed (Some (sp ++ tok ++ s))).2 = Some s.
Proof.
  intros Hsp Htok Hs. unfold extract_num.
  destruct (number_head _ Htok) as (x & tok' & Heq & Hx).
  rewrite Heq, <- app_comm_cons, sentry_token by done.
  rewrite app_comm_cons, <- Heq.
  destruct (num_get_number is_signed tok s Htok Hs) as [H|H];
    destruct (num_get is_signed (tok ++ s)); simpl in *; auto.
Qed.

Lemma f_stream_read_fields line :
  f_stream (read_fields line)
  = (extract_string []
       (extract_char (extract_num false (extract_num true (Some line)).2).2).2).2.
Proof.
  unfold read_fields.
  destruct (extract_num true (Some line)) as [nodeId s1]. simpl.
  destruct (extract_num false s1) as [offset s2]. simpl.
  destruct (extract_char s2) as [graphBase s3]. simpl.
  by destruct (extract_string [] s3).
Qed.

(** A line that stops after fewer than four tokens fails an extraction. *)
Lemma lacks_tokens_extraction_fails line : lacks_tokens line → extraction_fails line.
Proof.
  unfold extraction_fails. rewrite f_stream_read_fields.
  intros [Hblank|[H1|[H2|H3]]].
  - unfold extract_num at 2. by rewrite sentry_blank.
  - destruct H1 as (sp0 & t1 & sp1 & -> & Hsp0 & Ht1 & Hsp1).
    destruct (extract_num_number true sp0 t1 sp1 Hsp0 Ht1 (blank_only_no_digit_next _ Hsp1))
      as [->| ->]; [done|].
    unfold extract_num. by rewrite sentry_blank.
  - destruct H2 as (sp0 & t1 & sp1 & t2 & sp2 & -> & Hsp0 & Ht1 & Hne1 & Hsp1 & Ht2 & Hsp2).
    destruct (extract_num_number true sp0 t1 (sp1 ++ t2 ++ sp2) Hsp0 Ht1
                (blank_no_digit_next _ _ Hne1 Hsp1)) as [->| ->]; [done|].
    destruct (extract_num_number false sp1 t2 sp2 Hsp1 Ht2 (blank_only_no_digit_next _ Hsp2))
      as [->| ->]; [done|].
    unfold extract_char. by rewrite sentry_blank.
  - destruct H3 as (sp0 & t1 & sp1 & t2 & sp2 & c & sp3 & -> & Hsp0 & Ht1 & Hne1 & Hsp1
                    & Ht2 & Hne2 & Hsp2 & Hc & Hsp3).
    destruct (extract_num_number true sp0 t1 (sp1 ++ t2 ++ sp2 ++ c :: sp3) Hsp0 Ht1
                (blank_no_digit_next _ _ Hne1 Hsp1)) as [->| ->]; [done|].
    destruct (extract_num_number false sp1 t2 (sp2 ++ c :: sp3) Hsp1 Ht2
                (blank_no_digit_next _ _ Hne2 Hsp2)) as [->| ->]; [done|].
    unfold extract_char at 1. rewrite sentry_token by done. simpl.
    unfold extract_string. by rewrite sentry_blank.
Qed.

(** C6, as the code has it. A line that is not blank and stops after fewer
    than four tokens, or more generally on which one of the four extractions
    (node id, offset, graph base, call string) fails, ends the reading of the
    call file, and with it the run, in a failure: the line is not
    skipped. *)
Theorem failed_extraction_is_fatal (line : list ascii) :
  line ≠ [] → lacks_tokens line ∨ extraction_fails line →
  (∀ calls, ∃ f, add_line calls line = Err f)
  ∧ (∀ vg refPathName lines, line ∈ lines → ∃ f, run vg refPathName lines = Err f).
Proof.
  intros Hline Hfail.
  assert (extraction_fails line) as Hfails
    by (destruct Hfail; [by apply lacks_tokens_extraction_fails|done]).
  assert (∀ calls, ∃ f, add_line calls line = Err f) as Hadd
    by (intros; by apply add_line_extraction_fails).
  split; [done|].
  intros vg name lines Hin. unfold run.
  destruct (trace_reference vg name) as [t|f]; simpl; [|eauto].
  destruct (read_calls_Err_elem ∅ lines line Hin Hadd) as [f ->]. simpl. eauto.
Qed.

Lemma failed_extraction_is_fatal_witness :
  (∀ calls, ∃ f, add_line calls (text "7 3 A") = Err f)
  ∧ (∀ vg refPathName lines, text "7 3 A" ∈ lines → ∃ f, run vg refPathName lines = Err f).
Proof.
  apply failed_extraction_is_fatal; [done|]. left. right. right. right.
  exists [], (text "7"), (text " "), (text "3"), (text " "), "A"%char, [].
  repeat split; try done; try (by repeat constructor).
  - exists [], (text "7"). repeat split; [by left|done|by repeat constructor].
  - exists [], (text "3"). repeat split; [by left|done|by repeat constructor].
Defined.

(** C6, as stated, fails: the line "1 2 AC" has three tokens between white
    space, and the reader takes node 1, offset 2, base "A" and call "C"
    from it. *)
Lemma three_token_line_is_read :
  misses_token (text "1 2 AC")
  ∧ add_line ∅ (text "1 2 AC")
    = Ok (<[1 := [BaseCall_default; mkBaseCall false (text "C")]]> ∅)
  ∧ ¬ (∀ line calls, misses_token line → ∃ f, add_line calls line = Err f).
Proof.
  assert (misses_token (text "1 2 AC")) as Hmiss by (split; [done|vm_compute; lia]).
  assert (add_line ∅ (text "1 2 AC")
          = Ok (<[1 := [BaseCall_default; mkBaseCall false (text "C")]]> ∅)) as Hadd
    by reflexivity.
  split; [done|split; [done|]].
  intros H. destruct (H _ ∅ Hmiss) as [f Hf]. by rewrite Hadd in Hf.
Qed.

(** ** Arithmetic of [size_t] *)

Lemma wrap_small z : 0 ≤ z < 2 ^ 64 → wrap z = z.
Proof. intros. unfold wrap. by apply Z.mod_small. Qed.

Lemma len_nonneg {A} (s : list A) : 0 ≤ len s.
Proof. unfold len. lia. Qed.

Lemma len_app {A} (s1 s2 : list A) : len (s1 ++ s2) = len s1 + len s2.
Proof. unfold len. rewrite length_app. lia. Qed.

(** ** One base of a reference node *)

Lemma call_at_Ok calls nodeId i c :
  0 ≤ i → call_at calls nodeId i = Ok c ↔ calls_of calls nodeId !! Z.to_nat i = Some c.
Proof.
  intros Hi. unfold call_at. destruct (_ !! _); split; intros; simplify_eq; done.
Qed.

Lemma char_at_lookup s i c : s !! Z.to_nat i = Some c → char_at s i = Ok c.
Proof. unfold char_at. by intros ->. Qed.

(** The record that the inner loop emits at an offset with an alt. *)
Lemma call_ref_base_emits vg t calls node i c first second base :
  call_at calls (Node.id node) i = Ok c →
  alts c ≠ [] → well_formed_call c →
  referencePositionAndOrientation t !! Node.id node = Some (first, second) →
  0 ≤ i < len (Node.sequence node) →
  0 ≤ first → first + len (Node.sequence node) < 2 ^ 64 →
  refSeq t !! Z.to_nat (reference_coordinate first second (len (Node.sequence node)) i)
    = Some base →
  ∃ line,
    call_ref_base vg t calls node i
    = Ok (mkEmission [line]
            [mkVariant (reference_coordinate first second (len (Node.sequence node)) i + 1)
                       [base] (map (oriented vg second) (alts c))
                       (if graphBasePresent c then "1/0"
                        else if decide (length (alts c) = 1%nat) then "1/1" else "1/2")
                       0]).
Proof.
  intros Hcall Halts Hwf Hplace Hi Hfirst Hfits Hbase.
  unfold call_ref_base. rewrite Hcall. simpl.
  unfold numberOfAlts, len in *. unfold well_formed_call in Hwf.
  destruct (alts c) as [|a1 rest] eqn:Ha; [done|].
  destruct (Z.eqb_spec (Z.of_nat (length (a1 :: rest))) 0) as [H0|_]; [simpl in H0; lia|].
  unfold placement_at. rewrite Hplace. simpl.
  unfold reference_coordinate in *.
  assert ((if second
           then wrap (first + wrap (wrap (Z.of_nat (length (Node.sequence node)) - i) - 1))
           else wrap (first + i))
          = (if second then first + (Z.of_nat (length (Node.sequence node)) - i - 1)
             else first + i)) as ->.
  { destruct second; [|by rewrite wrap_small by lia].
    rewrite (wrap_small (_ - i)) by lia. rewrite (wrap_small (_ - 1)) by lia.
    by rewrite wrap_small by lia. }
  rewrite (char_at_lookup _ _ _ Hbase). simpl.
  rewrite (wrap_small (_ + 1)) by (destruct second; lia).
  destruct (graphBasePresent c); simpl; [eauto|].
  destruct rest as [|a2 [|a3 rest]]; simpl in *; [eauto|eauto|lia].
Qed.

(** ** The tracer *)

Lemma get_node_id vg i n : get_node vg i = Some n → Node.id n = i.
Proof.
  unfold get_node. intros H. apply find_some in H as [_ H]. lia.
Qed.

Lemma layout_sequence_cons e L :
  layout_sequence (e :: L) = Node.sequence (visited e) ++ layout_sequence L.
Proof. done. Qed.

(** Every mapping of a layout begins at or after the base, and the layout
    ends within the base plus its length. *)
Lemma layout_starts vg path : ∀ base e,
  e ∈ layout vg base path →
  base ≤ e.1
  ∧ e.1 + len (Node.sequence (visited e)) ≤ base + len (layout_sequence (layout vg base path)).
Proof.
  induction path as [|m rest IH]; intros base e; simpl; [by rewrite elem_of_nil|].
  destruct (get_node vg (Mapping.node_id m)) as [n|]; [|by rewrite elem_of_nil].
  rewrite layout_sequence_cons, len_app. simpl.
  pose proof (len_nonneg (Node.sequence n)).
  pose proof (len_nonneg (layout_sequence (layout vg (base + len (Node.sequence n)) rest))).
  intros [->|He]%elem_of_cons; simpl; [unfold visited; simpl; lia|].
  apply IH in He. unfold visited in *. simpl. lia.
Qed.

(** What is left of a layout after one of its mappings is the layout of the
    rest of the path, from where that mapping ends. *)
Lemma layout_split vg path : ∀ base La e Lb,
  layout vg base path = La ++ e :: Lb →
  ∃ rest, Lb = layout vg (e.1 + len (Node.sequence (visited e))) rest
          ∧ Forall (λ a, a.1 ≤ e.1) La
          ∧ get_node vg (Node.id (visited e)) = Some (visited e).
Proof.
  induction path as [|m rest IH]; intros base La e Lb; simpl.
  { by destruct La. }
  destruct (get_node vg (Mapping.node_id m)) as [n|] eqn:Hn; [|by destruct La].
  destruct La as [|a La]; simpl; intros [= Ha Hrest].
  - subst e. exists rest. unfold visited. simpl. split; [done|split; [done|]].
    by rewrite (get_node_id _ _ _ Hn).
  - subst a. destruct (IH _ _ _ _ Hrest) as (rest' & HLb & Hle & Hget).
    exists rest'. split; [done|split; [|done]].
    apply Forall_cons. split; [|done]. simpl.
    assert (e ∈ layout vg (base + len (Node.sequence n)) rest) as He
      by (rewrite Hrest; apply elem_of_app; right; apply elem_of_cons; by left).
    apply layout_starts in He. pose proof (len_nonneg (Node.sequence n)). lia.
Qed.

Lemma lower_bound_put b v m q :
  Forall (λ e, e.1 ≤ b) m →
  lower_bound q (by_reference_put b v m) = if b <=? q then Some (b, v) else lower_bound q m.
Proof.
  unfold lower_bound. destruct m as [|[k' v'] m']; simpl; [done|].
  intros [Hk _]%Forall_cons_1. simpl in Hk.
  destruct (Z.ltb_spec k' b); simpl; [done|].
  destruct (Z.eqb_spec k' b) as [->|]; [|lia]. simpl.
  destruct (Z.leb_spec b q); done.
Qed.

Lemma by_reference_put_keys b v m :
  Forall (λ e, e.1 ≤ b) m → Forall (λ e, e.1 ≤ b) (by_reference_put b v m).
Proof.
  induction 1 as [|[k' v'] m' Hk Hm IH]; simpl.
  - by repeat constructor.
  - destruct (Z.ltb_spec k' b); [by repeat constructor|].
    destruct (Z.eqb_spec k' b); by repeat constructor.
Qed.

Lemma last_cons_match {A} (x : A) l :
  last (x :: l) = match last l with Some e => Some e | None => Some x end.
Proof. destruct l as [|y l]; [done|]. rewrite last_cons_cons. by destruct (last (y :: l)) eqn:H; [|apply last_None in H]. Qed.

(** The state of the tracer after a path, from any state in which no key of
    [nodesByReference] exceeds the counter, when the counter does not wrap. *)
Lemma trace_from_spec vg path : ∀ t0 t,
  trace_from vg t0 path = Ok t →
  0 ≤ referenceBase t0 →
  referenceBase t0 + len (layout_sequence (layout vg (referenceBase t0) path)) < 2 ^ 64 →
  Forall (λ e, e.1 ≤ referenceBase t0) (nodesByReference t0) →
  length (layout vg (referenceBase t0) path) = length path
  ∧ refSeq t = refSeq t0 ++ layout_sequence (layout vg (referenceBase t0) path)
  ∧ referenceBase t
    = referenceBase t0 + len (layout_sequence (layout vg (referenceBase t0) path))
  ∧ (∀ i, referencePositionAndOrientation t !! i
          = match referencePositionAndOrientation t0 !! i with
            | Some p => Some p
            | None => first_visit (layout vg (referenceBase t0) path) i
            end)
  ∧ (∀ q, lower_bound q (nodesByReference t)
          = match last (filter (λ e, e.1 ≤ q) (layout vg (referenceBase t0) path)) with
            | Some e => Some e
            | None => lower_bound q (nodesByReference t0)
            end).
Proof.
  induction path as [|m rest IH]; intros t0 t; simpl.
  - intros [= <-] _ _ _. rewrite app_nil_r. unfold layout_sequence, len. simpl.
    split; [done|]. split; [done|]. split; [lia|]. split; [|done].
    intros i. by destruct (_ !! i).
  - unfold trace_step at 1. destruct (mapping_is_perfect_match m); simpl; [|done].
    destruct (get_node vg (Mapping.node_id m)) as [n|] eqn:Hn; simpl; [|done].
    intros Htrace Hbase Hfits Hkeys.
    rewrite layout_sequence_cons, len_app in Hfits. unfold visited in Hfits. simpl in Hfits.
    pose proof (len_nonneg (Node.sequence n)) as Hn0.
    pose proof (len_nonneg (layout_sequence
                  (layout vg (referenceBase t0 + len (Node.sequence n)) rest))) as Hrest0.
    apply IH in Htrace; simpl; rewrite ?wrap_small by lia; try lia.
    2:{ eapply Forall_impl; [by apply by_reference_put_keys|]. simpl. intros. lia. }
    simpl in Htrace. rewrite wrap_small in Htrace by lia.
    destruct Htrace as (Hlen & Hseq & Hb & Hplace & Hlower).
    rewrite layout_sequence_cons, len_app. unfold visited at 1 2. simpl.
    split; [by rewrite Hlen|]. split; [by rewrite Hseq, <- (assoc_L (++))|].
    split; [lia|]. split.
    + intros i. rewrite Hplace. unfold visited. simpl.
      rewrite (get_node_id _ _ _ Hn).
      destruct (referencePositionAndOrientation t0 !! Mapping.node_id m) as [p|] eqn:Hm.
      * destruct (Z.eqb_spec (Mapping.node_id m) i) as [<-|]; [by rewrite Hm|done].
      * destruct (Z.eqb_spec (Mapping.node_id m) i) as [<-|Hne].
        -- by rewrite lookup_insert_eq, Hm.
        -- by rewrite lookup_insert_ne.
    + intros q. rewrite Hlower, lower_bound_put by done.
      rewrite filter_cons. simpl.
      destruct (decide (referenceBase t0 ≤ q)) as [Hq|Hq].
      * rewrite last_cons_match.
        destruct (Z.leb_spec (referenceBase t0) q); [|lia].
        by destruct (last _).
      * destruct (Z.leb_spec (referenceBase t0) q); [lia|done].
Qed.

(** The same from the empty state, that is, for [trace_reference]. *)
Lemma trace_reference_spec vg refPathName t :
  trace_reference vg refPathName = Ok t →
  ∃ path, paths vg !! refPathName = Some path
          ∧ trace_from vg trace_start path = Ok t.
Proof.
  unfold trace_reference. destruct (paths vg !! refPathName); [eauto|done].
Qed.

(** The reference string does not depend on the counter: it is the
    sequence of the layout whether or not the counter wrapped. *)
Lemma trace_from_refSeq vg path : ∀ t0 t base,
  trace_from vg t0 path = Ok t →
  length (layout vg base path) = length path
  ∧ refSeq t = refSeq t0 ++ layout_sequence (layout vg base path).
Proof.
  induction path as [|m rest IH]; intros t0 t base; simpl.
  - intros [= <-]. by rewrite app_nil_r.
  - unfold trace_step at 1. destruct (mapping_is_perfect_match m); simpl; [|done].
    destruct (get_node vg (Mapping.node_id m)) as [n|]; simpl; [|done].
    intros Htrace. apply (IH _ _ (base + len (Node.sequence n))) in Htrace as [Hlen Hseq].
    simpl in *. rewrite layout_sequence_cons, Hlen, Hseq.
    by rewrite <- (assoc_L (++)).
Qed.

Lemma layout_head vg path base e L : layout vg base path = e :: L → e.1 = base.
Proof.
  destruct path as [|m rest]; simpl; [done|].
  destruct (get_node vg (Mapping.node_id m)); [|done]. by intros [= <- _].
Qed.

(** In a layout each mapping begins where the one before it ends. *)
Lemma layout_next vg path base k e e' :
  layout vg base path !! k = Some e → layout vg base path !! S k = Some e' →
  e'.1 = e.1 + len (Node.sequence (visited e)).
Proof.
  intros Hk HSk. pose proof (take_drop_middle _ _ _ Hk) as Hsplit.
  symmetry in Hsplit. apply layout_split in Hsplit as (rest & Hdrop & _ & _).
  rewrite <- (Nat.add_0_r (S k)) in HSk. rewrite <- lookup_drop, Hdrop in HSk.
  destruct (layout vg _ rest) as [|x L] eqn:HL; [done|].
  simpl in HSk. injection HSk as ->. by apply layout_head in HL.
Qed.

(** A later mapping begins at or after the end of an earlier one. *)
Lemma layout_ascending vg path base j k ej ek :
  (j < k)%nat →
  layout vg base path !! j = Some ej → layout vg base path !! k = Some ek →
  ej.1 + len (Node.sequence (visited ej)) ≤ ek.1.
Proof.
  intros Hjk Hj Hk. pose proof (take_drop_middle _ _ _ Hj) as Hsplit.
  symmetry in Hsplit. apply layout_split in Hsplit as (rest & Hdrop & _ & _).
  assert (ek ∈ layout vg (ej.1 + len (Node.sequence (visited ej))) rest) as Hin.
  { rewrite <- Hdrop. apply list_elem_of_lookup. exists (k - S j)%nat.
    rewrite lookup_drop. replace (S j + (k - S j))%nat with k by lia. done. }
  by apply layout_starts in Hin as [? _].
Qed.

Lemma first_visit_Some L i p :
  first_visit L i = Some p →
  ∃ k e, L !! k = Some e ∧ Node.id (visited e) = i
         ∧ p = (e.1, NodeTraversal.backward e.2)
         ∧ ∀ j e', (j < k)%nat → L !! j = Some e' → Node.id (visited e') ≠ i.
Proof.
  induction L as [|x L IH]; simpl; [done|].
  destruct (Z.eqb_spec (Node.id (visited x)) i) as [Hx|Hx].
  - intros [= <-]. exists 0%nat, x. repeat split; [done|]. intros; lia.
  - intros (k & e & Hk & Hid & Hp & Hfirst)%IH.
    exists (S k), e. repeat split; [done..|].
    intros [|j] e' Hj; simpl; [by intros [= <-]|].
    intros He'. eapply Hfirst; [|done]. lia.
Qed.

Lemma first_visit_first L k e :
  L !! k = Some e →
  (∀ j e', (j < k)%nat → L !! j = Some e' → Node.id (visited e') ≠ Node.id (visited e)) →
  first_visit L (Node.id (visited e)) = Some (e.1, NodeTraversal.backward e.2).
Proof.
  revert k. induction L as [|x L IH]; intros [|k]; simpl; try done.
  - intros [= ->] _. by rewrite Z.eqb_refl.
  - intros Hk Hfirst.
    destruct (Z.eqb_spec (Node.id (visited x)) (Node.id (visited e))) as [Hx|Hx].
    + by destruct (Hfirst 0%nat x); [lia|..].
    + apply (IH k); [done|]. intros j e' Hj. apply (Hfirst (S j)). lia.
Qed.

(** The tables of a reference path whose bases fit [size_t]. *)
Lemma trace_reference_tables vg refPathName path t :
  paths vg !! refPathName = Some path →
  trace_reference vg refPathName = Ok t →
  len (refSeq t) < 2 ^ 64 →
  length (layout vg 0 path) = length path
  ∧ refSeq t = layout_sequence (layout vg 0 path)
  ∧ referenceBase t = len (refSeq t)
  ∧ (∀ i, referencePositionAndOrientation t !! i = first_visit (layout vg 0 path) i)
  ∧ (∀ q, lower_bound q (nodesByReference t)
          = last (filter (λ e, e.1 ≤ q) (layout vg 0 path))).
Proof.
  unfold trace_reference. intros -> Htrace Hfits.
  pose proof (trace_from_refSeq _ _ _ _ 0 Htrace) as [Hlen Hseq]. simpl in Hseq.
  apply trace_from_spec in Htrace; simpl; [|done|by rewrite <- Hseq|done].
  simpl in Htrace. destruct Htrace as (_ & _ & Hb & Hplace & Hlower).
  split; [done|]. split; [done|]. split; [by rewrite Hb, Hseq|].
  split.
  - intros i. rewrite Hplace. by rewrite lookup_empty.
  - intros q. rewrite Hlower. by destruct (last _).
Qed.

Lemma layout_lookup_id vg path : ∀ base k e,
  layout vg base path !! k = Some e →
  ∃ m, path !! k = Some m ∧ Node.id (visited e) = Mapping.node_id m.
Proof.
  induction path as [|m rest IH]; intros base k e; simpl; [done|].
  destruct (get_node vg (Mapping.node_id m)) as [n|] eqn:Hn; [|done].
  destruct k as [|k]; simpl.
  - intros [= <-]. exists m. split; [done|]. by apply get_node_id in Hn.
  - apply IH.
Qed.

(** X24. For a reference path whose bases fit [size_t]:
    the reference string is the concatenation of the node sequences in path
    order, and the counter ends at its length; each mapping begins where the
    one before it ends, the first at 0; every node is placed where its first
    visit begins, with the orientation of that visit, so when no node is
    visited twice every mapping is placed where it begins; the ranges of the
    mappings do not overlap and ascend in path order, strictly after a
    mapping whose node has at least one base. *)
Theorem tracing_places_nodes vg refPathName path t :
  paths vg !! refPathName = Some path →
  trace_reference vg refPathName = Ok t →
  len (refSeq t) < 2 ^ 64 →
  length (layout vg 0 path) = length path
  ∧ refSeq t = layout_sequence (layout vg 0 path)
  ∧ referenceBase t = len (layout_sequence (layout vg 0 path))
  ∧ (∀ e, layout vg 0 path !! 0%nat = Some e → e.1 = 0)
  ∧ (∀ k e e', layout vg 0 path !! k = Some e → layout vg 0 path !! S k = Some e' →
       e'.1 = e.1 + len (Node.sequence (visited e)))
  ∧ (∀ i, referencePositionAndOrientation t !! i = first_visit (layout vg 0 path) i)
  ∧ (NoDup (map Mapping.node_id path) →
     ∀ k e, layout vg 0 path !! k = Some e →
       referencePositionAndOrientation t !! Node.id (visited e)
       = Some (e.1, NodeTraversal.backward e.2))
  ∧ (∀ j k ej ek, (j < k)%nat →
       layout vg 0 path !! j = Some ej → layout vg 0 path !! k = Some ek →
       ej.1 + len (Node.sequence (visited ej)) ≤ ek.1
       ∧ (Node.sequence (visited ej) ≠ [] → ej.1 < ek.1)).
Proof.
  intros Hpath Htrace Hfits.
  destruct (trace_reference_tables _ _ _ _ Hpath Htrace Hfits)
    as (Hlen & Hseq & Hbase & Hplace & _).
  split; [done|]. split; [done|]. split; [by rewrite Hbase, Hseq|].
  split.
  { intros e He. destruct (layout vg 0 path) as [|x L] eqn:HL; [done|].
    injection He as ->. by apply layout_head in HL. }
  split; [by apply layout_next|]. split; [done|]. split.
  - intros Hnodup k e Hk. rewrite Hplace. apply (first_visit_first _ k); [done|].
    intros j e' Hjk Hj Heq.
    apply layout_lookup_id in Hk as (mk & Hmk & Hidk).
    apply layout_lookup_id in Hj as (mj & Hmj & Hidj).
    assert (j = k); [|lia].
    eapply NoDup_lookup; [exact Hnodup| |].
    + rewrite list_lookup_fmap, Hmj. done.
    + rewrite list_lookup_fmap, Hmk. simpl. by rewrite <- Hidj, Heq, Hidk.
  - intros j k ej ek Hjk Hj Hk.
    pose proof (layout_ascending _ _ _ _ _ _ _ Hjk Hj Hk) as Hle.
    split; [done|]. intros Hne.
    assert (0 < len (Node.sequence (visited ej))); [|lia].
    unfold len. destruct (Node.sequence (visited ej)); [done|simpl; lia].
Qed.

Lemma tracing_places_nodes_witness :
  refSeq bubble_trace = layout_sequence (layout bubble_vg 0 (map (λ i, Mapping.mk i false []) [1; 2; 3]))
  ∧ referencePositionAndOrientation bubble_trace !! 3 = Some (3, false).
Proof.
  pose proof (tracing_places_nodes bubble_vg "ref"
                (map (λ i, Mapping.mk i false []) [1; 2; 3]) bubble_trace) as H.
  destruct H as (_ & Hseq & _ & _ & _ & _ & Hplace & _);
    [reflexivity|reflexivity|vm_compute; reflexivity|].
  split; [exact Hseq|].
  apply (Hplace ltac:(compute_done) 2%nat
           (3, NodeTraversal.mk (Node.mk 3 (text "TA")) false)).
  reflexivity.
Defined.

(** C8. The tracer at a node without bases: on a path that visits each of
    its two nodes once, the first without bases, [referenceBase +=
    sequence.size()] adds 0 and both nodes are placed at coordinate 0, so the
    placements are not strictly ascending, against the comment of the anchor
    search that the reference positions are strictly ordered. *)
Lemma empty_node_shares_its_coordinate :
  paths empty_node_vg !! "ref" = Some (map (λ i, Mapping.mk i false []) [1; 2])
  ∧ trace_reference empty_node_vg "ref" = Ok empty_node_trace
  ∧ referencePositionAndOrientation empty_node_trace !! 1 = Some (0, false)
  ∧ referencePositionAndOrientation empty_node_trace !! 2 = Some (0, false)
  ∧ ¬ placed_strictly_ascending empty_node_trace (map (λ i, Mapping.mk i false []) [1; 2]).
Proof.
  repeat split; try reflexivity.
  intros H.
  specialize (H 0%nat 1%nat (Mapping.mk 1 false []) (Mapping.mk 2 false [])
                (0, false) (0, false)).
  simpl in H. assert (0 < 0); [|lia].
  apply H; [lia|reflexivity..].
Qed.

(** ** The checks on the anchors of a non-reference node *)

Lemma placement_at_Some m k p : m !! k = Some p → placement_at m k = Ok p.
Proof. unfold placement_at. by intros ->. Qed.

Lemma anchored_placed vg t node altBackward inNode outNode pin pout :
  anchored vg t node altBackward inNode outNode pin pout →
  referencePositionAndOrientation t !! Node.id (NodeTraversal.node inNode) = Some pin
  ∧ referencePositionAndOrientation t !! Node.id (NodeTraversal.node outNode) = Some pout.
Proof.
  intros (a & b & pa & pb & _ & _ & Ha & Hb & _ & _ & Heq).
  destruct altBackward; by simplify_eq.
Qed.

(** Past the checks of anchoring and orientation the body is the check of
    the order of the anchors, then [call_bubble]. *)
Lemma call_alt_node_anchored vg t calls node altBackward inNode outNode pin pout :
  referencePositionAndOrientation t !! Node.id node = None →
  anchored vg t node altBackward inNode outNode pin pout →
  call_alt_node vg t calls node
  = if pout.1 <=? pin.1
    then Ok (say (node_name node +:+ " allows duplication."))
    else call_bubble vg t calls node altBackward inNode pin pout.
Proof.
  intros Hnode (a & b & pa & pb & Hin & Hout & Ha & Hb & Hread & Halt & Heq).
  unfold call_alt_node. rewrite Hnode, Hin, Hout.
  rewrite (placement_at_Some _ _ _ Ha), (placement_at_Some _ _ _ Hb). simpl.
  rewrite Hread, eqb_reflx. simpl. rewrite <- Hread.
  destruct (eqb (NodeTraversal.backward a) pa.2); simpl in Halt; subst altBackward;
    simplify_eq; simpl.
  - by rewrite (placement_at_Some _ _ _ Ha), (placement_at_Some _ _ _ Hb).
  - by rewrite (placement_at_Some _ _ _ Ha), (placement_at_Some _ _ _ Hb).
Qed.

(** C2. A non-reference node with a reference anchor on either side emits no
    record and logs one line that names it, when reading in and reading out
    disagree in direction, and when they agree but, read along the
    reference, the coordinate of the anchor it leaves to is equal to or
    smaller than that of the anchor it is entered from. *)
Theorem misplaced_anchors_skip_the_node vg t calls node a b pa pb :
  referencePositionAndOrientation t !! Node.id node = None →
  (leftmost (referencePositionAndOrientation t)
            (nodes_prev vg (NodeTraversal.mk node false))).2 = Some a →
  (leftmost (referencePositionAndOrientation t)
            (nodes_next vg (NodeTraversal.mk node false))).2 = Some b →
  referencePositionAndOrientation t !! Node.id (NodeTraversal.node a) = Some pa →
  referencePositionAndOrientation t !! Node.id (NodeTraversal.node b) = Some pb →
  let readInForward := eqb (NodeTraversal.backward a) pa.2 in
  let readOutForward := eqb (NodeTraversal.backward b) pb.2 in
  (readInForward ≠ readOutForward →
     call_alt_node vg t calls node
     = Ok (mkEmission ["Node " +:+ pretty (Node.id node) +:+ " inverts reference path."] []))
  ∧ (readInForward = readOutForward →
     (if readInForward then pb.1 ≤ pa.1 else pa.1 ≤ pb.1) →
     call_alt_node vg t calls node
     = Ok (mkEmission ["Node " +:+ pretty (Node.id node) +:+ " allows duplication."] [])).
Proof.
  intros Hnode Hin Hout Ha Hb readInForward readOutForward. split.
  - intros Hread. unfold call_alt_node. rewrite Hnode, Hin, Hout.
    rewrite (placement_at_Some _ _ _ Ha), (placement_at_Some _ _ _ Hb). simpl.
    fold readInForward readOutForward.
    destruct readInForward, readOutForward; done.
  - intros Hread Horder.
    rewrite (call_alt_node_anchored vg t calls node (negb readInForward)
               (if readInForward then a else b) (if readInForward then b else a)
               (if readInForward then pa else pb) (if readInForward then pb else pa));
      [|done|].
    + destruct readInForward; simpl.
      * destruct (Z.leb_spec0 pb.1 pa.1); [done|lia].
      * destruct (Z.leb_spec0 pa.1 pb.1); [done|lia].
    + exists a, b, pa, pb. repeat split; try done.
      fold readInForward. by destruct readInForward.
Qed.

Lemma misplaced_anchors_skip_the_node_witness :
  call_alt_node bubble_vg bubble_trace ∅ (Node.mk 5 (text "CC"))
  = Ok (mkEmission ["Node 5 allows duplication."] [])
  ∧ call_alt_node bubble_vg bubble_trace ∅ (Node.mk 6 (text "AA"))
    = Ok (mkEmission ["Node 6 allows duplication."] [])
  ∧ call_alt_node bubble_vg bubble_trace ∅ (Node.mk 7 (text "GT"))
    = Ok (mkEmission ["Node 7 inverts reference path."] []).
Proof.
  split; [|split].
  - apply (misplaced_anchors_skip_the_node bubble_vg bubble_trace ∅ (Node.mk 5 (text "CC"))
             (NodeTraversal.mk (Node.mk 3 (text "TA")) false)
             (NodeTraversal.mk (Node.mk 1 (text "AC")) false) (3, false) (0, false));
      [reflexivity..|simpl; lia].
  - apply (misplaced_anchors_skip_the_node bubble_vg bubble_trace ∅ (Node.mk 6 (text "AA"))
             (NodeTraversal.mk (Node.mk 2 (text "G")) false)
             (NodeTraversal.mk (Node.mk 2 (text "G")) false) (2, false) (2, false));
      [reflexivity..|simpl; lia].
  - apply (misplaced_anchors_skip_the_node bubble_vg bubble_trace ∅ (Node.mk 7 (text "GT"))
             (NodeTraversal.mk (Node.mk 1 (text "AC")) false)
             (NodeTraversal.mk (Node.mk 3 (text "TA")) true) (0, false) (3, false));
      [reflexivity..|simpl; done].
Defined.

(** ** The reference interval between two placed nodes *)

(** A placed node of the graph lies within the reference string, and a node
    placed at a greater coordinate begins at or after its end. *)
Lemma placed_apart vg refPathName t i j pi pj ni :
  trace_reference vg refPathName = Ok t →
  len (refSeq t) < 2 ^ 64 →
  referencePositionAndOrientation t !! i = Some pi →
  referencePositionAndOrientation t !! j = Some pj →
  get_node vg i = Some ni →
  0 ≤ pi.1 ∧ pi.1 + len (Node.sequence ni) ≤ len (refSeq t)
  ∧ (pi.1 < pj.1 → pi.1 + len (Node.sequence ni) ≤ pj.1).
Proof.
  intros Htrace Hfits Hi Hj Hni.
  destruct (trace_reference_spec _ _ _ Htrace) as (path & Hpath & _).
  destruct (trace_reference_tables _ _ _ _ Hpath Htrace Hfits)
    as (_ & Hseq & _ & Hplace & _).
  rewrite Hplace in Hi, Hj.
  apply first_visit_Some in Hi as (k & e & Hk & Hid & -> & _).
  apply first_visit_Some in Hj as (k' & e' & Hk' & _ & -> & _). simpl.
  pose proof (take_drop_middle _ _ _ Hk) as Hsplit. symmetry in Hsplit.
  apply layout_split in Hsplit as (_ & _ & _ & Hget).
  rewrite Hid, Hni in Hget. injection Hget as ->.
  assert (e ∈ layout vg 0 path) as Hin by by eapply list_elem_of_lookup_2.
  apply layout_starts in Hin as [H0 Hend]. rewrite <- Hseq in Hend.
  split; [done|]. split; [lia|]. intros Hlt.
  destruct (decide (k < k')%nat) as [Hkk|Hkk].
  - by eapply layout_ascending.
  - destruct (decide (k = k')) as [->|Hne]; [simplify_eq; lia|].
    assert (k' < k)%nat as Hk'k by lia.
    pose proof (layout_ascending _ _ _ _ _ _ _ Hk'k Hk' Hk) as Hle.
    pose proof (len_nonneg (Node.sequence (visited e'))). lia.
Qed.

(** The bounds of the interval between two placed nodes do not wrap. *)
Lemma interval_bounds vg refPathName t i j pi pj ni :
  trace_reference vg refPathName = Ok t →
  len (refSeq t) < 2 ^ 64 →
  referencePositionAndOrientation t !! i = Some pi →
  referencePositionAndOrientation t !! j = Some pj →
  get_node vg i = Some ni →
  pi.1 < pj.1 →
  0 ≤ pi.1
  ∧ wrap (pi.1 + len (Node.sequence ni)) = pi.1 + len (Node.sequence ni)
  ∧ pi.1 + len (Node.sequence ni) ≤ pj.1
  ∧ pj.1 ≤ len (refSeq t)
  ∧ wrap (pj.1 - (pi.1 + len (Node.sequence ni))) = pj.1 - (pi.1 + len (Node.sequence ni)).
Proof.
  intros Htrace Hfits Hi Hj Hni Hlt.
  destruct (placed_apart _ _ _ _ _ _ _ _ Htrace Hfits Hi Hj Hni) as (H0 & Hend & Hle).
  specialize (Hle Hlt).
  pose proof (len_nonneg (Node.sequence ni)) as Hlen0.
  assert (pj.1 ≤ len (refSeq t)) as Hj_end.
  { destruct (trace_reference_spec _ _ _ Htrace) as (path & Hpath & _).
    destruct (trace_reference_tables _ _ _ _ Hpath Htrace Hfits)
      as (_ & Hseq & _ & Hplace & _).
    rewrite Hplace in Hj. apply first_visit_Some in Hj as (k & e & Hk & _ & -> & _).
    apply list_elem_of_lookup_2, layout_starts in Hk as [_ Hk]. rewrite <- Hseq in Hk.
    pose proof (len_nonneg (Node.sequence (visited e))). simpl. lia. }
  split; [done|]. split; [apply wrap_small; lia|]. split; [done|]. split; [done|].
  apply wrap_small. lia.
Qed.

(** When the assertion on the bounds holds, [call_bubble] goes on with the
    interval. *)
Lemma call_bubble_asserted vg t calls node altBackward inNode pin pout :
  wrap (pin.1 + len (Node.sequence (NodeTraversal.node inNode))) ≤ pout.1 →
  call_bubble vg t calls node altBackward inNode pin pout
  = call_interval vg t calls node altBackward
      (wrap (pin.1 + len (Node.sequence (NodeTraversal.node inNode)))) pout.1.
Proof.
  intros Hle. unfold call_bubble.
  by rewrite (proj2 (assert_Ok _ _)) by (apply Z.leb_le; lia).
Qed.

(** C10. For a non-reference node that has its two anchors, with agreeing
    orientations, and passes the check of their order, the coordinate of the
    anchor it leaves to is at least the coordinate of the anchor it is
    entered from plus the length of that anchor's node: the start of the
    interval does not wrap, the assertion holds, the interval has a length
    that is not negative, and the body goes on with that interval. The
    reference string fits [size_t] and the anchor is the graph's node of its
    id. *)
Theorem anchors_bound_an_interval vg refPathName t calls node altBackward
    inNode outNode pin pout :
  trace_reference vg refPathName = Ok t →
  len (refSeq t) < 2 ^ 64 →
  referencePositionAndOrientation t !! Node.id node = None →
  anchored vg t node altBackward inNode outNode pin pout →
  get_node vg (Node.id (NodeTraversal.node inNode)) = Some (NodeTraversal.node inNode) →
  pin.1 < pout.1 →
  let referenceIntervalStart := wrap (pin.1 + len (Node.sequence (NodeTraversal.node inNode))) in
  let referenceIntervalPastEnd := pout.1 in
  referenceIntervalStart = pin.1 + len (Node.sequence (NodeTraversal.node inNode))
  ∧ referenceIntervalStart ≤ referenceIntervalPastEnd
  ∧ assert (referenceIntervalStart <=? referenceIntervalPastEnd)
      "referenceIntervalPastEnd >= referenceIntervalStart" = Ok tt
  ∧ wrap (referenceIntervalPastEnd - referenceIntervalStart)
    = referenceIntervalPastEnd - referenceIntervalStart
  ∧ 0 ≤ referenceIntervalPastEnd - referenceIntervalStart
  ∧ call_alt_node vg t calls node
    = call_interval vg t calls node altBackward referenceIntervalStart referenceIntervalPastEnd.
Proof.
  intros Htrace Hfits Hnode Hanchored Hget Hlt Start PastEnd.
  destruct (anchored_placed _ _ _ _ _ _ _ _ Hanchored) as [Hin Hout].
  destruct (interval_bounds _ _ _ _ _ _ _ _ Htrace Hfits Hin Hout Hget Hlt)
    as (H0 & HStart & Hle & Hend & Hsize).
  fold Start in HStart. fold PastEnd in Hle, Hend, Hsize.
  split; [done|]. split; [lia|].
  split; [apply assert_Ok, Z.leb_le; lia|].
  split; [by rewrite HStart|]. split; [lia|].
  rewrite (call_alt_node_anchored _ _ _ _ _ _ _ _ _ Hnode Hanchored).
  destruct (Z.leb_spec pout.1 pin.1); [lia|].
  apply call_bubble_asserted. fold Start PastEnd. lia.
Qed.

Lemma anchors_bound_an_interval_witness :
  call_alt_node bubble_vg bubble_trace ∅ (Node.mk 4 (text "TT"))
  = call_interval bubble_vg bubble_trace ∅ (Node.mk 4 (text "TT")) false 2 3.
Proof.
  refine (proj2 (proj2 (proj2 (proj2 (proj2
    (anchors_bound_an_interval bubble_vg "ref" bubble_trace ∅ (Node.mk 4 (text "TT")) false
       (NodeTraversal.mk (Node.mk 1 (text "AC")) false)
       (NodeTraversal.mk (Node.mk 3 (text "TA")) false) (0, false) (3, false)
       _ _ _ _ _ _)))))).
  - reflexivity.
  - vm_compute. reflexivity.
  - reflexivity.
  - exists (NodeTraversal.mk (Node.mk 1 (text "AC")) false),
      (NodeTraversal.mk (Node.mk 3 (text "TA")) false), (0, false), (3, false).
    repeat split; reflexivity.
  - reflexivity.
  - simpl. lia.
Defined.

(** ** The scan of the reference interval *)

(** The inner loop from offset [i] over [k] offsets of a call vector that
    has at least [i] entries. *)
Lemma scan_node_spec calls nodeId k : ∀ i acc,
  (i ≤ length (calls_of calls nodeId))%nat →
  scan_node calls nodeId (seqZ (Z.of_nat i) (Z.of_nat k)) acc
  = if decide (i + k ≤ length (calls_of calls nodeId))%nat
    then Ok (acc || existsb observed (take k (drop i (calls_of calls nodeId))))
    else Err (CallIndexOutOfBounds nodeId (len (calls_of calls nodeId))).
Proof.
  induction k as [|k IH]; intros i acc Hi.
  - rewrite seqZ_nil by lia. simpl. rewrite decide_True by lia. by rewrite orb_false_r.
  - rewrite seqZ_cons by lia. simpl. unfold call_at. rewrite Nat2Z.id.
    destruct (calls_of calls nodeId !! i) as [c|] eqn:Hc; simpl.
    + apply lookup_lt_Some in Hc as Hlt.
      replace (Z.succ (Z.of_nat i)) with (Z.of_nat (S i)) by lia.
      replace (Z.pred (Z.of_nat (S k))) with (Z.of_nat k) by lia.
      rewrite IH by lia.
      destruct (decide (S i + k ≤ length (calls_of calls nodeId))%nat),
        (decide (i + S k ≤ length (calls_of calls nodeId))%nat); try lia; [|done].
      rewrite (drop_S _ _ _ Hc). simpl. fold (observed c).
      by destruct acc, (observed c).
    + apply lookup_ge_None in Hc. rewrite decide_False by lia.
      unfold len. do 2 f_equal. lia.
Qed.

Lemma scan_node_covered calls n acc :
  covered calls n →
  scan_node calls (Node.id n) (seqZ 0 (len (Node.sequence n))) acc
  = Ok (acc || node_observed calls n).
Proof.
  unfold covered, len. intros Hcov.
  rewrite (scan_node_spec calls (Node.id n) (length (Node.sequence n)) 0%nat) by lia.
  rewrite decide_True by lia. by rewrite drop_0.
Qed.

Lemma scan_node_uncovered calls n acc :
  ¬ covered calls n →
  scan_node calls (Node.id n) (seqZ 0 (len (Node.sequence n))) acc
  = Err (CallIndexOutOfBounds (Node.id n) (len (calls_of calls (Node.id n)))).
Proof.
  unfold covered, len. intros Hcov.
  rewrite (scan_node_spec calls (Node.id n) (length (Node.sequence n)) 0%nat) by lia.
  by rewrite decide_False by lia.
Qed.

(** The scan of a list of nodes ends well exactly when the table covers
    them all; it then tells whether a base of one of them is observed. *)
Lemma scan_nodes_covered calls ns : ∀ acc,
  Forall (covered calls) ns →
  scan_nodes calls ns acc = Ok (acc || existsb (node_observed calls) ns).
Proof.
  induction ns as [|n ns IH]; intros acc Hcov; simpl.
  - by rewrite orb_false_r.
  - apply Forall_cons_1 in Hcov as [Hn Hns].
    rewrite scan_node_covered by done. simpl. rewrite IH by done.
    by rewrite orb_assoc.
Qed.

Lemma scan_nodes_uncovered calls ns : ∀ acc,
  ¬ Forall (covered calls) ns →
  ∃ n, n ∈ ns ∧ ¬ covered calls n
       ∧ scan_nodes calls ns acc
         = Err (CallIndexOutOfBounds (Node.id n) (len (calls_of calls (Node.id n)))).
Proof.
  induction ns as [|n ns IH]; intros acc Hcov; simpl.
  - by destruct Hcov.
  - destruct (decide (covered calls n)) as [Hn|Hn].
    + rewrite scan_node_covered by done. simpl.
      destruct (IH (acc || node_observed calls n)) as (n' & Hin & Hn' & ->).
      { intros Hns. apply Hcov. by constructor. }
      exists n'. split; [by right|done].
    + exists n. rewrite scan_node_uncovered by done. split; [by left|done].
Qed.

Lemma filter_all {A} (P : A → Prop) `{∀ x, Decision (P x)} (l : list A) :
  Forall P l → filter P l = l.
Proof.
  induction 1 as [|x l Hx Hl IH]; [done|]. by rewrite filter_cons_True, IH.
Qed.

Lemma filter_none {A} (P : A → Prop) `{∀ x, Decision (P x)} (l : list A) :
  Forall (λ x, ¬ P x) l → filter P l = [].
Proof.
  induction 1 as [|x l Hx Hl IH]; [done|]. by rewrite filter_cons_False, IH.
Qed.

(** The [while] loop over a stretch [seg] of the layout, from where it
    begins to the beginning of the mapping that follows it: the loop scans
    the nodes of [seg] in order. *)
Lemma scan_interval_layout vg t calls L :
  (∀ q, lower_bound q (nodesByReference t) = last (filter (λ e, e.1 ≤ q) L)) →
  ∀ seg L1 rest p fuel acc pastEnd out L3,
  L = L1 ++ seg ++ (pastEnd, out) :: L3 →
  seg ++ (pastEnd, out) :: L3 = layout vg p rest →
  Forall (λ e, e.1 ≤ p) L1 →
  0 ≤ p → pastEnd < 2 ^ 64 →
  (Z.to_nat (pastEnd - p) ≤ fuel)%nat →
  scan_interval fuel t calls p pastEnd acc = scan_nodes calls (map visited seg) acc.
Proof.
  intros Hlower seg.
  induction seg as [|[s tr] seg IH];
    intros L1 rest p fuel acc pastEnd out L3 HL Hseg HL1 Hp Hend Hfuel.
  - simpl in *. symmetry in Hseg. apply layout_head in Hseg. simpl in Hseg. subst p.
    destruct fuel; simpl; by rewrite Z.ltb_irrefl.
  - simpl in Hseg. destruct rest as [|m rest]; [done|]. simpl in Hseg.
    destruct (get_node vg (Mapping.node_id m)) as [n|] eqn:Hn; [|done].
    injection Hseg as -> -> Hseg.
    assert ((pastEnd, out) ∈ layout vg (p + len (Node.sequence n)) rest) as Hout
      by (rewrite <- Hseg; apply elem_of_app; right; by left).
    apply layout_starts in Hout as [Hout _]. simpl in Hout.
    pose proof (len_nonneg (Node.sequence n)) as Hlen.
    simpl. unfold visited. simpl. fold (len (Node.sequence n)).
    destruct (decide (len (Node.sequence n) = 0)) as [H0|H0].
    + (* a node without bases: the loop does not see it *)
      rewrite seqZ_nil by (unfold len in *; lia). simpl.
      rewrite H0, Z.add_0_r in Hseg.
      apply (IH (L1 ++ [(p, NodeTraversal.mk n (Mapping.is_reverse m))]) rest _ _ _ _ out L3);
        [by rewrite HL, <- (assoc_L (++))|done| |done..].
      apply Forall_app. split; [done|]. by repeat constructor.
    + assert (p < pastEnd) as Hlt by lia.
      destruct fuel as [|fuel]; [lia|]. simpl.
      destruct (Z.ltb_spec p pastEnd); [|lia].
      assert (filter (λ e, e.1 ≤ p) L
              = L1 ++ [(p, NodeTraversal.mk n (Mapping.is_reverse m))]) as Hfilter.
      { rewrite HL, <- app_comm_cons, filter_app, filter_cons_True by done.
        rewrite (filter_all _ L1) by done.
        rewrite (filter_none _ (seg ++ _)); [done|].
        rewrite Hseg. apply Forall_forall. intros e He.
        apply layout_starts in He as [He _]. lia. }
      rewrite Hlower, Hfilter, last_snoc. simpl.
      destruct (scan_node calls (Node.id n) _ acc) as [acc'|f]; simpl; [|done].
      rewrite wrap_small by lia.
      apply (IH (L1 ++ [(p, NodeTraversal.mk n (Mapping.is_reverse m))]) rest _ _ _ _ out L3);
        [by rewrite HL, <- (assoc_L (++))|done| |lia..].
      apply Forall_app. split.
      * eapply Forall_impl; [exact HL1|]. simpl. intros. lia.
      * repeat constructor. simpl. lia.
Qed.

(** Between the first visit of a node and the first visit of a node placed
    at a greater coordinate lies a stretch of the layout that holds exactly
    the mappings with a base in the interval between the two. *)
Lemma interval_segment vg path i j pi pj ni :
  first_visit (layout vg 0 path) i = Some pi →
  first_visit (layout vg 0 path) j = Some pj →
  get_node vg i = Some ni →
  pi.1 < pj.1 →
  ∃ L1 seg out L3 rest,
    layout vg 0 path = L1 ++ seg ++ (pj.1, out) :: L3
    ∧ seg ++ (pj.1, out) :: L3 = layout vg (pi.1 + len (Node.sequence ni)) rest
    ∧ Forall (λ e, e.1 ≤ pi.1 + len (Node.sequence ni)) L1
    ∧ (∀ e, e ∈ seg →
         e ∈ layout vg 0 path ∧ pi.1 + len (Node.sequence ni) ≤ e.1
         ∧ e.1 + len (Node.sequence (visited e)) ≤ pj.1)
    ∧ (∀ e, in_interval (layout vg 0 path) (pi.1 + len (Node.sequence ni)) pj.1 e →
         e ∈ seg).
Proof.
  intros Hi Hj Hni Hlt.
  apply first_visit_Some in Hi as (k & e & Hk & Hid & -> & _).
  apply first_visit_Some in Hj as (k' & e' & Hk' & _ & -> & _). simpl in *.
  pose proof (take_drop_middle _ _ _ Hk) as Hsplit.
  pose proof Hsplit as Hsplit'. symmetry in Hsplit'.
  apply layout_split in Hsplit' as (rest & Hdrop & Hbefore & Hget).
  rewrite Hid, Hni in Hget. injection Hget as ->. clear Hni.
  pose proof (len_nonneg (Node.sequence (visited e))) as Hlen.
  assert (k < k')%nat as Hkk.
  { destruct (decide (k < k')%nat); [done|].
    destruct (decide (k = k')) as [->|]; [simplify_eq; lia|].
    assert (k' < k)%nat as Hk'k by lia.
    pose proof (layout_ascending _ _ _ _ _ _ _ Hk'k Hk' Hk).
    pose proof (len_nonneg (Node.sequence (visited e'))). lia. }
  assert (drop (S k) (layout vg 0 path) !! (k' - S k)%nat = Some e') as Hk''.
  { rewrite lookup_drop. by replace (S k + (k' - S k))%nat with k' by lia. }
  pose proof (take_drop_middle _ _ _ Hk'') as Hsplit2.
  set (seg := take (k' - S k) (drop (S k) (layout vg 0 path))) in *.
  set (L3 := drop (S (k' - S k)) (drop (S k) (layout vg 0 path))) in *.
  assert (∀ x, x ∈ seg →
            x ∈ layout vg 0 path ∧ e.1 + len (Node.sequence (visited e)) ≤ x.1
            ∧ x.1 + len (Node.sequence (visited x)) ≤ e'.1) as Hseg.
  { intros x Hx. apply list_elem_of_lookup in Hx as [a Ha].
    unfold seg in Ha. apply lookup_take_Some in Ha as [Ha Halt].
    rewrite lookup_drop in Ha. repeat split.
    - by eapply list_elem_of_lookup_2.
    - eapply (layout_ascending _ _ _ k (S k + a)); [lia|done..].
    - eapply (layout_ascending _ _ _ (S k + a) k'); [lia|done..]. }
  exists (take k (layout vg 0 path) ++ [e]), seg, e'.2, L3, rest.
  split; [|split; [|split; [|split]]].
  - rewrite <- (assoc_L (++)). simpl. rewrite <- Hsplit at 1. do 2 f_equal.
    rewrite <- Hsplit2 at 1. by destruct e'.
  - rewrite <- Hdrop, <- Hsplit2. by destruct e'.
  - apply Forall_app. split.
    + eapply Forall_impl; [exact Hbefore|]. simpl. intros. lia.
    + repeat constructor. lia.
  - done.
  - intros x (Hx & o & Ho & Hrange).
    apply list_elem_of_lookup in Hx as [a Ha].
    destruct (decide (a < k)%nat) as [Hak|Hak].
    { pose proof (layout_ascending _ _ _ _ _ _ _ Hak Ha Hk). lia. }
    destruct (decide (a = k)) as [->|Hne]; [simplify_eq; lia|].
    destruct (decide (k' < a)%nat) as [Hka|Hka].
    { pose proof (layout_ascending _ _ _ _ _ _ _ Hka Hk' Ha).
      pose proof (len_nonneg (Node.sequence (visited e'))). lia. }
    destruct (decide (a = k')) as [->|Hne']; [simplify_eq; lia|].
    apply list_elem_of_lookup. exists (a - S k)%nat. unfold seg.
    apply lookup_take_Some. split; [|lia].
    rewrite lookup_drop. by replace (S k + (a - S k))%nat with a by lia.
Qed.

Lemma node_observed_has_base calls n :
  node_observed calls n = true → 0 < len (Node.sequence n).
Proof.
  unfold node_observed, len. destruct (Node.sequence n); simpl; [done|lia].
Qed.

Lemma covered_no_base calls n : len (Node.sequence n) = 0 → covered calls n.
Proof. unfold covered. intros ->. apply len_nonneg. Qed.

(** The scan of the interval between two placed nodes, on the tables of a
    traced reference path: it ends well exactly when the call table covers
    the interval, and then tells whether the interval is observed; else it
    stops at the first base that the table lacks. *)
Lemma scan_interval_traced vg refPathName path t calls i j pi pj ni :
  paths vg !! refPathName = Some path →
  trace_reference vg refPathName = Ok t →
  len (refSeq t) < 2 ^ 64 →
  referencePositionAndOrientation t !! i = Some pi →
  referencePositionAndOrientation t !! j = Some pj →
  get_node vg i = Some ni →
  pi.1 < pj.1 →
  (interval_covered calls (layout vg 0 path) (pi.1 + len (Node.sequence ni)) pj.1 →
   ∃ b, scan_interval (scan_fuel (pi.1 + len (Node.sequence ni)) pj.1) t calls
          (pi.1 + len (Node.sequence ni)) pj.1 false = Ok b
        ∧ (b = true ↔
           interval_observed calls (layout vg 0 path) (pi.1 + len (Node.sequence ni)) pj.1))
  ∧ (¬ interval_covered calls (layout vg 0 path) (pi.1 + len (Node.sequence ni)) pj.1 →
     ∃ e, in_interval (layout vg 0 path) (pi.1 + len (Node.sequence ni)) pj.1 e
          ∧ ¬ covered calls (visited e)
          ∧ scan_interval (scan_fuel (pi.1 + len (Node.sequence ni)) pj.1) t calls
              (pi.1 + len (Node.sequence ni)) pj.1 false
            = Err (CallIndexOutOfBounds (Node.id (visited e))
                     (len (calls_of calls (Node.id (visited e)))))).
Proof.
  intros Hpath Htrace Hfits Hi Hj Hni Hlt.
  destruct (trace_reference_tables _ _ _ _ Hpath Htrace Hfits)
    as (_ & Hseq & _ & Hplace & Hlower).
  destruct (placed_apart _ _ _ _ _ _ _ _ Htrace Hfits Hi Hj Hni) as (H0 & _ & _).
  assert (pj.1 < 2 ^ 64) as Hend.
  { rewrite Hplace in Hj. apply first_visit_Some in Hj as (k & e & Hk & _ & -> & _).
    apply list_elem_of_lookup_2, layout_starts in Hk as [_ Hk]. rewrite <- Hseq in Hk.
    pose proof (len_nonneg (Node.sequence (visited e))). simpl. lia. }
  rewrite Hplace in Hi, Hj.
  destruct (interval_segment _ _ _ _ _ _ _ Hi Hj Hni Hlt)
    as (L1 & seg & out & L3 & rest & HL & Hseg & HL1 & Hin & Hall).
  pose proof (len_nonneg (Node.sequence ni)) as Hlen.
  assert (scan_interval (scan_fuel (pi.1 + len (Node.sequence ni)) pj.1) t calls
            (pi.1 + len (Node.sequence ni)) pj.1 false
          = scan_nodes calls (map visited seg) false) as Hscan
    by (apply (scan_interval_layout vg t calls _ Hlower seg L1 rest _ _ _ _ out L3
                 HL Hseg HL1); unfold scan_fuel; lia).
  assert (∀ e, e ∈ seg → 0 < len (Node.sequence (visited e)) →
               in_interval (layout vg 0 path) (pi.1 + len (Node.sequence ni)) pj.1 e)
    as Hbase.
  { intros e He Hpos. destruct (Hin e He) as (HeL & Hlo & Hhi).
    split; [done|]. exists 0. lia. }
  split.
  - intros Hcov. exists (false || existsb (node_observed calls) (map visited seg)).
    split.
    { rewrite Hscan. apply scan_nodes_covered.
      apply Forall_fmap, Forall_forall. intros e He. simpl.
      destruct (decide (len (Node.sequence (visited e)) = 0)) as [Hz|Hz].
      - by apply covered_no_base.
      - apply Hcov, Hbase; [done|].
        pose proof (len_nonneg (Node.sequence (visited e))). lia. }
    simpl. rewrite existsb_exists. split.
    + intros (n & Hn & Hobs). apply list_elem_of_In, list_elem_of_fmap in Hn as (e & -> & He).
      exists e. split; [|done]. apply Hbase; [done|]. by eapply node_observed_has_base.
    + intros (e & He & Hobs). exists (visited e). split; [|done].
      apply list_elem_of_In, list_elem_of_fmap. exists e. split; [done|]. by apply Hall.
  - intros Hcov.
    destruct (scan_nodes_uncovered calls (map visited seg) false) as (n & Hn & Hnc & Herr).
    { intros Hfor. apply Hcov. intros e He. apply Hall in He.
      eapply Forall_forall in Hfor; [exact Hfor|].
      apply list_elem_of_fmap. by exists e. }
    apply list_elem_of_fmap in Hn as (e & -> & He).
    exists e. split; [|split; [done|by rewrite Hscan]]. apply Hbase; [done|].
    destruct (decide (len (Node.sequence (visited e)) = 0)) as [Hz|Hz].
    + by destruct Hnc; apply covered_no_base.
    + pose proof (len_nonneg (Node.sequence (visited e))). lia.
Qed.

(** ** The record of a non-reference node *)

Lemma presence_from cs : ∀ fully partly maxAlts,
  fold_left (λ '(fully, partly, maxAlts) call,
               (fully && graphBasePresent call,
                partly || graphBasePresent call,
                Z.max maxAlts (numberOfAlts call)))
            cs (fully, partly, maxAlts)
  = (fully && forallb graphBasePresent cs,
     partly || existsb graphBasePresent cs,
     fold_left (λ m call, Z.max m (numberOfAlts call)) cs maxAlts).
Proof.
  induction cs as [|c cs IH]; intros fully partly maxAlts; simpl.
  - by rewrite andb_true_r, orb_false_r.
  - by rewrite IH, andb_assoc, orb_assoc.
Qed.

Lemma presence_fully_present calls node :
  fully_present calls node →
  ∃ maxAlts, presence (calls_of calls (Node.id node)) = (true, true, maxAlts).
Proof.
  intros [Hne Hall]. unfold presence. rewrite presence_from. simpl.
  assert (forallb graphBasePresent (calls_of calls (Node.id node)) = true) as ->.
  { apply forallb_forall. intros c Hc%list_elem_of_In.
    by eapply Forall_forall in Hall. }
  assert (existsb graphBasePresent (calls_of calls (Node.id node)) = true) as ->.
  { destruct (calls_of calls (Node.id node)) as [|c cs]; [done|].
    apply Forall_cons_1 in Hall as [Hc _]. simpl. by rewrite Hc. }
  eauto.
Qed.

(** A replaced interval with at least one base. *)
Lemma structural_variant_replacement vg t node altBackward start size refPathExists :
  0 ≤ start → 0 < size → start + size ≤ len (refSeq t) → len (refSeq t) < 2 ^ 64 →
  ∃ line,
    structural_variant vg t node altBackward start size refPathExists
    = Ok (mkEmission [line]
            [mkVariant (start + 1)
                       (take (Z.to_nat size) (drop (Z.to_nat start) (refSeq t)))
                       [oriented_sequence vg altBackward node]
                       (if refPathExists then "1/0" else "1/1") 0]).
Proof.
  intros Hstart Hsize Hend Hfits. unfold structural_variant, substr.
  destruct (Z.ltb_spec (len (refSeq t)) start); [lia|]. simpl.
  assert (len (take (Z.to_nat size) (drop (Z.to_nat start) (refSeq t))) = size) as Hlen.
  { unfold len in *. rewrite length_take, length_drop. lia. }
  rewrite Hlen. destruct (Z.eqb_spec size 0); [lia|]. simpl.
  rewrite wrap_small by lia. eauto.
Qed.

(** An empty interval: the shift to the left by one base. *)
Lemma structural_variant_insertion vg t node altBackward start refPathExists :
  0 ≤ start → start ≤ len (refSeq t) → len (refSeq t) < 2 ^ 64 →
  (start = 0 →
     structural_variant vg t node altBackward start 0 refPathExists
     = Err (AssertionFailed "referenceIntervalStart != 0"))
  ∧ (start ≠ 0 →
     ∃ base line,
       refSeq t !! Z.to_nat (start - 1) = Some base
       ∧ structural_variant vg t node altBackward start 0 refPathExists
         = Ok (mkEmission [line]
                 [mkVariant ((start - 1) + 1) [base]
                            [base :: oriented_sequence vg altBackward node]
                            (if refPathExists then "1/0" else "1/1") 0])).
Proof.
  intros Hstart Hend Hfits. unfold structural_variant, substr.
  destruct (Z.ltb_spec (len (refSeq t)) start); [lia|]. simpl.
  split.
  - by intros ->.
  - intros Hne. destruct (Z.eqb_spec start 0); [done|]. simpl.
    rewrite (wrap_small (start - 1)) by lia.
    destruct (refSeq t !! Z.to_nat (start - 1)) as [base|] eqn:Hbase.
    2:{ apply lookup_ge_None in Hbase. unfold len in *. lia. }
    exists base. rewrite (char_at_lookup _ _ _ Hbase). simpl.
    rewrite wrap_small by lia. eauto.
Qed.

Lemma interval_empty_not_observed calls L start :
  ¬ interval_observed calls L start start.
Proof. intros (e & (_ & i & Hi & Hrange) & _). lia. Qed.

(** The body from the interval on, for a node that is fully present, when
    the scan ends well. *)
Lemma call_interval_present vg t calls node altBackward start pastEnd b found :
  fully_present calls node →
  scan_interval (scan_fuel start pastEnd) t calls start pastEnd false = Ok b →
  structural_variant vg t node altBackward start (wrap (pastEnd - start)) b = Ok found →
  ∃ warning,
    call_interval vg t calls node altBackward start pastEnd
    = Ok (mkEmission (warning ++ stderr found) (stdout found)).
Proof.
  intros Hpresent Hscan Hfound. unfold call_interval.
  destruct (presence_fully_present _ _ Hpresent) as [maxAlts ->]. simpl.
  rewrite Hscan. simpl. rewrite Hfound. simpl.
  destruct (0 <? maxAlts); simpl; eauto.
Qed.

(** A fully present node past the three checks, on traced tables: the
    interval lies within the reference string, and the body is the scan of
    the interval followed by the making of the record. *)
Lemma call_alt_node_scanned vg refPathName t calls node altBackward
    inNode outNode pin pout :
  trace_reference vg refPathName = Ok t →
  len (refSeq t) < 2 ^ 64 →
  referencePositionAndOrientation t !! Node.id node = None →
  anchored vg t node altBackward inNode outNode pin pout →
  get_node vg (Node.id (NodeTraversal.node inNode)) = Some (NodeTraversal.node inNode) →
  pin.1 < pout.1 →
  fully_present calls node →
  0 ≤ pin.1
  ∧ pin.1 + len (Node.sequence (NodeTraversal.node inNode)) ≤ pout.1
  ∧ pout.1 ≤ len (refSeq t)
  ∧ (∀ b found,
       scan_interval
         (scan_fuel (pin.1 + len (Node.sequence (NodeTraversal.node inNode))) pout.1)
         t calls (pin.1 + len (Node.sequence (NodeTraversal.node inNode))) pout.1 false
       = Ok b →
       structural_variant vg t node altBackward
         (pin.1 + len (Node.sequence (NodeTraversal.node inNode)))
         (pout.1 - (pin.1 + len (Node.sequence (NodeTraversal.node inNode)))) b
       = Ok found →
       ∃ warning,
         call_alt_node vg t calls node
         = Ok (mkEmission (warning ++ stderr found) (stdout found)))
  ∧ (∀ f,
       scan_interval
         (scan_fuel (pin.1 + len (Node.sequence (NodeTraversal.node inNode))) pout.1)
         t calls (pin.1 + len (Node.sequence (NodeTraversal.node inNode))) pout.1 false
       = Err f →
       call_alt_node vg t calls node = Err f).
Proof.
  intros Htrace Hfits Hnode Hanchored Hget Hlt Hpresent.
  destruct (anchored_placed _ _ _ _ _ _ _ _ Hanchored) as [Hin Hout].
  destruct (interval_bounds _ _ _ _ _ _ _ _ Htrace Hfits Hin Hout Hget Hlt)
    as (H0 & Hstart & Hle & Hend & Hsize).
  pose proof (len_nonneg (Node.sequence (NodeTraversal.node inNode))) as Hlen.
  assert (call_alt_node vg t calls node
          = call_interval vg t calls node altBackward
              (pin.1 + len (Node.sequence (NodeTraversal.node inNode))) pout.1) as ->.
  { rewrite (call_alt_node_anchored _ _ _ _ _ _ _ _ _ Hnode Hanchored).
    destruct (Z.leb_spec pout.1 pin.1); [lia|].
    rewrite call_bubble_asserted by lia. by rewrite Hstart. }
  split; [done|]. split; [done|]. split; [done|]. split.
  - intros b found Hscan Hfound. rewrite <- Hsize in Hfound.
    by eapply call_interval_present.
  - intros f Hscan. unfold call_interval.
    destruct (presence_fully_present _ _ Hpresent) as [maxAlts ->]. simpl.
    by rewrite Hscan.
Qed.

(** C1, as the code has it. A non-reference node that passes the checks of
    anchoring, orientation and order, that has a call and has every call
    present, on tables traced from a reference path that fits [size_t], with
    calls for every base of the reference interval it replaces, emits
    exactly one record. Its genotype is "1/0" if some base of the interval is
    called present or carries an alt and "1/1" if none is, so "1/1" for an
    empty interval. Its alt allele is the sequence of the node, or the reverse
    complement of it when the node is read backward, when the interval has a
    base; for an empty interval it is that sequence behind the reference base
    before the interval. *)
Theorem present_bubble_emits_one_variant vg refPathName path t calls node
    altBackward inNode outNode pin pout :
  paths vg !! refPathName = Some path →
  trace_reference vg refPathName = Ok t →
  len (refSeq t) < 2 ^ 64 →
  referencePositionAndOrientation t !! Node.id node = None →
  anchored vg t node altBackward inNode outNode pin pout →
  get_node vg (Node.id (NodeTraversal.node inNode)) = Some (NodeTraversal.node inNode) →
  pin.1 < pout.1 →
  fully_present calls node →
  interval_covered calls (layout vg 0 path)
    (pin.1 + len (Node.sequence (NodeTraversal.node inNode))) pout.1 →
  ∃ log v,
    call_alt_node vg t calls node = Ok (mkEmission log [v])
    ∧ (genotype v = "1/0" ↔
       interval_observed calls (layout vg 0 path)
         (pin.1 + len (Node.sequence (NodeTraversal.node inNode))) pout.1)
    ∧ (genotype v = "1/1" ↔
       ¬ interval_observed calls (layout vg 0 path)
           (pin.1 + len (Node.sequence (NodeTraversal.node inNode))) pout.1)
    ∧ (pin.1 + len (Node.sequence (NodeTraversal.node inNode)) = pout.1 →
       genotype v = "1/1"
       ∧ ∃ base, refSeq t !! Z.to_nat (pout.1 - 1) = Some base
                 ∧ alt v = [base :: oriented_sequence vg altBackward node])
    ∧ (pin.1 + len (Node.sequence (NodeTraversal.node inNode)) < pout.1 →
       alt v = [oriented_sequence vg altBackward node]).
Proof.
  intros Hpath Htrace Hfits Hnode Hanchored Hget Hlt Hpresent Hcov.
  destruct (call_alt_node_scanned _ _ _ calls _ _ _ _ _ _
              Htrace Hfits Hnode Hanchored Hget Hlt Hpresent)
    as (H0 & Hle & Hend & Hemit & _).
  destruct (anchored_placed _ _ _ _ _ _ _ _ Hanchored) as [Hin Hout].
  destruct (scan_interval_traced _ _ _ _ calls _ _ _ _ _
              Hpath Htrace Hfits Hin Hout Hget Hlt) as [Hscan _].
  destruct (Hscan Hcov) as (b & Hb & Hobs). clear Hscan.
  pose proof (len_nonneg (Node.sequence (NodeTraversal.node inNode))) as Hlen.
  set (start := pin.1 + len (Node.sequence (NodeTraversal.node inNode))) in *.
  destruct (decide (start = pout.1)) as [Hempty|Hbases].
  - (* nothing replaced: no base to observe, and the shift to the left *)
    assert (b = false) as ->.
    { destruct b; [|done].
      destruct (interval_empty_not_observed calls (layout vg 0 path) start).
      rewrite Hempty at 2. by apply Hobs. }
    destruct (structural_variant_insertion vg t node altBackward start false)
      as [_ Hshift]; [lia..|].
    destruct Hshift as (base & line & Hbase & Hfound); [lia|].
    destruct (Hemit false _ Hb
                ltac:(replace (pout.1 - start) with 0 by lia; exact Hfound))
      as [warning ->].
    eexists _, _. split; [done|]. simpl.
    split; [|split; [|split; [|lia]]].
    + split; [done|]. intros Hyes%Hobs. done.
    + split; [|done]. intros _ Hyes%Hobs. done.
    + intros _. split; [done|]. exists base. by rewrite <- Hempty.
  - destruct (structural_variant_replacement vg t node altBackward start (pout.1 - start) b)
      as (line & Hfound); [lia..|].
    destruct (Hemit b _ Hb Hfound) as [warning ->].
    eexists _, _. split; [done|]. simpl.
    split; [|split; [|split; [lia|done]]].
    + destruct b; [tauto|]. split; [done|]. intros Hyes%Hobs. done.
    + destruct b; [|split; [|done]].
      * split; [done|]. intros Hno. destruct Hno. by apply Hobs.
      * intros _ Hyes%Hobs. done.
Qed.

Lemma present_bubble_emits_one_variant_witness :
  (∃ log v,
     call_alt_node bubble_vg bubble_trace bubble_calls (Node.mk 4 (text "TT"))
     = Ok (mkEmission log [v])
     ∧ alt v = [text "TT"])
  ∧ (∃ log v,
       call_alt_node bubble_vg bubble_trace bubble_calls (Node.mk 8 (text "AG"))
       = Ok (mkEmission log [v])
       ∧ alt v = [text "CT"]).
Proof.
  assert (interval_covered bubble_calls
            (layout bubble_vg 0 (map (λ i, Mapping.mk i false []) [1; 2; 3]))
            ((0, false).1 + len (text "AC")) (3, false).1) as Hcovered.
  { intros e [He _]. vm_compute in He.
    repeat (apply elem_of_cons in He as [->|He]); [vm_compute; done..|].
    by apply elem_of_nil in He. }
  split.
  - destruct (present_bubble_emits_one_variant bubble_vg "ref"
                (map (λ i, Mapping.mk i false []) [1; 2; 3]) bubble_trace bubble_calls
                (Node.mk 4 (text "TT")) false
                (NodeTraversal.mk (Node.mk 1 (text "AC")) false)
                (NodeTraversal.mk (Node.mk 3 (text "TA")) false) (0, false) (3, false))
      as (log & v & Hcall & _ & _ & _ & Halt).
    + reflexivity.
    + reflexivity.
    + vm_compute. reflexivity.
    + reflexivity.
    + exists (NodeTraversal.mk (Node.mk 1 (text "AC")) false),
        (NodeTraversal.mk (Node.mk 3 (text "TA")) false), (0, false), (3, false).
      repeat split; reflexivity.
    + reflexivity.
    + simpl. lia.
    + split; [done|]. vm_compute. repeat constructor.
    + exact Hcovered.
    + exists log, v. split; [exact Hcall|]. apply Halt. vm_compute. reflexivity.
  - destruct (present_bubble_emits_one_variant bubble_vg "ref"
                (map (λ i, Mapping.mk i false []) [1; 2; 3]) bubble_trace bubble_calls
                (Node.mk 8 (text "AG")) true
                (NodeTraversal.mk (Node.mk 1 (text "AC")) true)
                (NodeTraversal.mk (Node.mk 3 (text "TA")) true) (0, false) (3, false))
      as (log & v & Hcall & _ & _ & _ & Halt).
    + reflexivity.
    + reflexivity.
    + vm_compute. reflexivity.
    + reflexivity.
    + exists (NodeTraversal.mk (Node.mk 3 (text "TA")) true),
        (NodeTraversal.mk (Node.mk 1 (text "AC")) true), (3, false), (0, false).
      repeat split; reflexivity.
    + reflexivity.
    + simpl. lia.
    + split; [done|]. vm_compute. repeat constructor.
    + exact Hcovered.
    + exists log, v. split; [exact Hcall|]. apply Halt. vm_compute. reflexivity.
Defined.

(** C1, as stated, fails on a pure insertion: the node GG inserted after
    ACGTA passes the three checks forward and is fully present; its one
    record has genotype "1/1" and the alt allele "AGG", not the node's own
    sequence. *)
Lemma insertion_alt_allele_is_anchored :
  anchored insertion_vg insertion_trace (Node.mk 3 (text "GG")) false
    (NodeTraversal.mk (Node.mk 1 (text "ACGTA")) false)
    (NodeTraversal.mk (Node.mk 2 (text "C")) false) (0, false) (5, false)
  ∧ fully_present insertion_calls (Node.mk 3 (text "GG"))
  ∧ run insertion_vg "ref" insertion_lines
    = Ok (mkEmission
            ["Found variant A -> AGG caused by node 3 at 1-based reference position 5";
             "Found variant C -> A,T, on node 2 at 1-based reference position 6"]
            [mkVariant 5 (text "A") [text "AGG"] "1/1" 0;
             mkVariant 6 (text "C") [text "A"; text "T"] "1/2" 0])
  ∧ call_alt_node insertion_vg insertion_trace insertion_calls (Node.mk 3 (text "GG"))
    = Ok (mkEmission
            ["Found variant A -> AGG caused by node 3 at 1-based reference position 5"]
            [mkVariant 5 (text "A") [text "AGG"] "1/1" 0])
  ∧ [text "AGG"] ≠ [oriented_sequence insertion_vg false (Node.mk 3 (text "GG"))].
Proof.
  split; [|split; [|split; [|split]]].
  - exists (NodeTraversal.mk (Node.mk 1 (text "ACGTA")) false),
      (NodeTraversal.mk (Node.mk 2 (text "C")) false), (0, false), (5, false).
    repeat split; reflexivity.
  - split; [done|]. vm_compute. repeat constructor.
  - vm_compute. reflexivity.
  - reflexivity.
  - done.
Qed.

(** C3. A non-reference node that is emitted (it has a call and every call
    present) and replaces an empty interval, which begins at
    [referenceIntervalStart] equal to the coordinate of the anchor it leaves
    to: the start is not 0, it is decremented by one, the reference base at
    the new start is put in front of the empty reference allele and of the
    alt allele, and the position is the new start plus one. An interval that
    began at coordinate 0 would fail the assertion. The graph with reference
    ACGTA.C and GG inserted at coordinate 5 gives position 5, reference
    allele "A" and alt allele "AGG". *)
Theorem insertion_is_shifted_left vg refPathName t calls node
    altBackward inNode outNode pin pout :
  trace_reference vg refPathName = Ok t →
  len (refSeq t) < 2 ^ 64 →
  referencePositionAndOrientation t !! Node.id node = None →
  anchored vg t node altBackward inNode outNode pin pout →
  get_node vg (Node.id (NodeTraversal.node inNode)) = Some (NodeTraversal.node inNode) →
  pin.1 < pout.1 →
  fully_present calls node →
  pin.1 + len (Node.sequence (NodeTraversal.node inNode)) = pout.1 →
  (∃ base log,
     pout.1 ≠ 0
     ∧ refSeq t !! Z.to_nat (pout.1 - 1) = Some base
     ∧ call_alt_node vg t calls node
       = Ok (mkEmission log
               [mkVariant ((pout.1 - 1) + 1) [base]
                          [base :: oriented_sequence vg altBackward node] "1/1" 0]))
  ∧ (∀ refPathExists,
       structural_variant vg t node altBackward 0 0 refPathExists
       = Err (AssertionFailed "referenceIntervalStart != 0"))
  ∧ call_alt_node insertion_vg insertion_trace insertion_calls (Node.mk 3 (text "GG"))
    = Ok (mkEmission
            ["Found variant A -> AGG caused by node 3 at 1-based reference position 5"]
            [mkVariant 5 (text "A") [text "AGG"] "1/1" 0]).
Proof.
  intros Htrace Hfits Hnode Hanchored Hget Hlt Hpresent Hempty.
  split; [|split; [|reflexivity]].
  2:{ intros b. unfold structural_variant, substr.
      destruct (Z.ltb_spec (len (refSeq t)) 0); [pose proof (len_nonneg (refSeq t)); lia|].
      done. }
  destruct (call_alt_node_scanned _ _ _ calls _ _ _ _ _ _
              Htrace Hfits Hnode Hanchored Hget Hlt Hpresent)
    as (H0 & Hle & Hend & Hemit & _).
  rewrite Hempty in *.
  destruct (structural_variant_insertion vg t node altBackward pout.1 false)
    as [_ Hshift]; [lia..|].
  destruct Hshift as (base & line & Hbase & Hfound); [lia|].
  destruct (Hemit false _
              ltac:(unfold scan_fuel; rewrite Z.sub_diag; simpl; by rewrite Z.ltb_irrefl)
              ltac:(rewrite Z.sub_diag; exact Hfound))
    as [warning ->].
  exists base. eexists. split; [lia|]. split; [done|]. done.
Qed.

Lemma insertion_is_shifted_left_witness :
  ∃ base log,
    (5, false).1 ≠ 0
    ∧ refSeq insertion_trace !! Z.to_nat ((5, false).1 - 1) = Some base
    ∧ call_alt_node insertion_vg insertion_trace insertion_calls (Node.mk 3 (text "GG"))
      = Ok (mkEmission log
              [mkVariant (((5, false).1 - 1) + 1) [base]
                 [base :: oriented_sequence insertion_vg false (Node.mk 3 (text "GG"))]
                 "1/1" 0]).
Proof.
  refine (proj1
    (insertion_is_shifted_left insertion_vg "ref" insertion_trace insertion_calls
       (Node.mk 3 (text "GG")) false
       (NodeTraversal.mk (Node.mk 1 (text "ACGTA")) false)
       (NodeTraversal.mk (Node.mk 2 (text "C")) false) (0, false) (5, false)
       _ _ _ _ _ _ _ _)).
  - reflexivity.
  - vm_compute. reflexivity.
  - reflexivity.
  - exists (NodeTraversal.mk (Node.mk 1 (text "ACGTA")) false),
      (NodeTraversal.mk (Node.mk 2 (text "C")) false), (0, false), (5, false).
    repeat split; reflexivity.
  - reflexivity.
  - simpl. lia.
  - split; [done|]. vm_compute. repeat constructor.
  - reflexivity.
Defined.

(** ** The calls that the reader stores *)

Lemma BaseCall_of_well_formed altSet c : BaseCall_of altSet = Ok c → well_formed_call c.
Proof.
  unfold BaseCall_of. intros Hc.
  pose proof (BaseCall_loop_spec altSet (mkBaseCall false [])) as H.
  rewrite Hc in H. simpl in H. destruct H as ([Hall Hcount] & _ & Ha).
  unfold well_formed_call. rewrite Ha, length_concat_singletons by done.
  destruct Hcount as [->|?]; simpl; lia.
Qed.

Lemma calls_of_insert calls nodeId vec i :
  calls_of (<[nodeId := vec]> calls) i = if decide (nodeId = i) then vec else calls_of calls i.
Proof.
  unfold calls_of. destruct (decide (nodeId = i)) as [->|Hne].
  - by rewrite lookup_insert_eq.
  - by rewrite lookup_insert_ne.
Qed.

Lemma add_line_well_formed calls line calls' :
  calls_well_formed calls → add_line calls line = Ok calls' → calls_well_formed calls'.
Proof.
  intros Hwf. unfold add_line. destruct (decide (line = [])); [by intros [= <-]|].
  destruct (f_nodeId (read_fields line)) as [nodeId|]; [|done].
  destruct (f_offset (read_fields line)) as [offset|]; [|done].
  destruct (if len (calls_of calls nodeId) <=? wrap (offset - 1)
            then vector_resize (wrap (wrap (offset - 1) + 1)) (calls_of calls nodeId)
            else Ok (calls_of calls nodeId)) as [vec|] eqn:Hvec; simpl; [|done].
  assert (Forall well_formed_call vec) as Hvecwf.
  { destruct (_ <=? _); [|injection Hvec as <-; apply Hwf].
    unfold vector_resize in Hvec. destruct (_ && _); [done|]. injection Hvec as <-.
    rewrite resize_spec. apply Forall_app. split.
    - apply Forall_take, Hwf.
    - apply Forall_replicate. unfold well_formed_call. simpl. lia. }
  destruct (BaseCall_of _) as [c|] eqn:Hc; simpl; [|done].
  apply BaseCall_of_well_formed in Hc.
  destruct (_ <? _); [|done]. intros [= <-] i.
  rewrite calls_of_insert. destruct (decide (nodeId = i)) as [_|_]; [|apply Hwf].
  by apply Forall_insert.
Qed.

Lemma read_calls_well_formed lines : ∀ calls calls',
  calls_well_formed calls → read_calls calls lines = Ok calls' → calls_well_formed calls'.
Proof.
  induction lines as [|line lines IH]; intros calls calls' Hwf; simpl.
  - by intros [= <-].
  - destruct (add_line calls line) as [calls1|] eqn:Hadd; simpl; [|done].
    apply IH. by eapply add_line_well_formed.
Qed.

Lemma read_calls_from_empty_well_formed lines calls :
  read_calls ∅ lines = Ok calls → calls_well_formed calls.
Proof.
  apply read_calls_well_formed. intros i. unfold calls_of. by rewrite lookup_empty.
Qed.

(** ** The pass over a reference node *)

(** At an offset that has a call, the inner loop ends well. *)
Lemma call_ref_base_total vg refPathName t calls node first second i :
  trace_reference vg refPathName = Ok t →
  len (refSeq t) < 2 ^ 64 →
  calls_well_formed calls →
  get_node vg (Node.id node) = Some node →
  referencePositionAndOrientation t !! Node.id node = Some (first, second) →
  0 ≤ i < len (Node.sequence node) →
  i < len (calls_of calls (Node.id node)) →
  ∃ c base,
    call_at calls (Node.id node) i = Ok c
    ∧ refSeq t !! Z.to_nat (reference_coordinate first second (len (Node.sequence node)) i)
      = Some base
    ∧ 0 ≤ first ∧ first + len (Node.sequence node) < 2 ^ 64
    ∧ well_formed_call c
    ∧ ∃ e, call_ref_base vg t calls node i = Ok e.
Proof.
  intros Htrace Hfits Hwf Hget Hplace Hi Hcov.
  destruct (placed_apart _ _ _ _ _ _ _ _ Htrace Hfits Hplace Hplace Hget) as (H0 & Hend & _).
  simpl in *.
  destruct (calls_of calls (Node.id node) !! Z.to_nat i) as [c|] eqn:Hc.
  2:{ apply lookup_ge_None in Hc. unfold len in *. lia. }
  assert (call_at calls (Node.id node) i = Ok c) as Hcall by (apply call_at_Ok; [lia|done]).
  assert (well_formed_call c) as Hc_wf.
  { specialize (Hwf (Node.id node)). eapply Forall_forall in Hwf; [exact Hwf|].
    by eapply list_elem_of_lookup_2. }
  destruct (refSeq t !! Z.to_nat (reference_coordinate first second (len (Node.sequence node)) i))
    as [base|] eqn:Hbase.
  2:{ apply lookup_ge_None in Hbase. unfold reference_coordinate, len in *.
      destruct second; lia. }
  exists c, base. repeat split; [done|lia|lia|done|].
  destruct (decide (alts c = [])) as [Hnil|Hne].
  - exists nothing. unfold call_ref_base. rewrite Hcall. simpl.
    unfold numberOfAlts. by rewrite Hnil.
  - destruct (call_ref_base_emits vg t calls node i c first second base) as [line ->];
      try done; [lia|]. eauto.
Qed.

(** The inner loop over [k] offsets from [i], when the call vector has at
    least [i] entries and the loop body ends well wherever there is an
    entry: with an entry at each offset the loop ends well and keeps every
    record of every turn; else it stops at the first offset without. *)
Lemma call_ref_bases_spec vg t calls node k : ∀ i,
  (i ≤ length (calls_of calls (Node.id node)))%nat →
  (∀ j, (i ≤ j < i + k)%nat → (j < length (calls_of calls (Node.id node)))%nat →
        ∃ e, call_ref_base vg t calls node (Z.of_nat j) = Ok e) →
  if decide (i + k ≤ length (calls_of calls (Node.id node)))%nat
  then ∃ e, call_ref_bases vg t calls node (seqZ (Z.of_nat i) (Z.of_nat k)) = Ok e
            ∧ ∀ j ej v, (i ≤ j < i + k)%nat →
                call_ref_base vg t calls node (Z.of_nat j) = Ok ej →
                v ∈ stdout ej → v ∈ stdout e
  else call_ref_bases vg t calls node (seqZ (Z.of_nat i) (Z.of_nat k))
       = Err (CallIndexOutOfBounds (Node.id node) (len (calls_of calls (Node.id node)))).
Proof.
  induction k as [|k IH]; intros i Hi Hbody.
  - rewrite decide_True by lia. rewrite seqZ_nil by lia. simpl.
    exists nothing. split; [done|]. intros; lia.
  - rewrite seqZ_cons by lia. simpl.
    replace (Z.succ (Z.of_nat i)) with (Z.of_nat (S i)) by lia.
    replace (Z.pred (Z.of_nat (S k))) with (Z.of_nat k) by lia.
    destruct (decide (i < length (calls_of calls (Node.id node)))%nat) as [Hlt|Hge].
    + destruct (Hbody i) as [e He]; [lia|done|]. rewrite He. simpl.
      specialize (IH (S i)).
      destruct (decide (S i + k ≤ length (calls_of calls (Node.id node)))%nat),
        (decide (i + S k ≤ length (calls_of calls (Node.id node)))%nat); try lia.
      * destruct IH as (e' & -> & Hkeep); [lia|intros; apply Hbody; lia|].
        simpl. eexists. split; [done|]. simpl.
        intros j ej v Hj Hej Hv. apply elem_of_app.
        destruct (decide (j = i)) as [->|Hne].
        -- left. rewrite He in Hej. by injection Hej as ->.
        -- right. apply (Hkeep j ej); [lia|done..].
      * rewrite IH; [done|lia|intros; apply Hbody; lia].
    + rewrite decide_False by lia.
      unfold call_ref_base at 1, call_at. rewrite Nat2Z.id.
      rewrite (proj2 (lookup_ge_None _ _)) by lia. simpl.
      unfold len. do 2 f_equal. lia.
Qed.

(** The pass over a placed node of the graph, on traced tables and calls
    that are well formed: it ends well exactly when the table covers the
    node, and then keeps the records of every offset; else it stops at the
    first offset that has no call. *)
Lemma call_ref_node_pass vg refPathName t calls node p :
  trace_reference vg refPathName = Ok t →
  len (refSeq t) < 2 ^ 64 →
  calls_well_formed calls →
  get_node vg (Node.id node) = Some node →
  referencePositionAndOrientation t !! Node.id node = Some p →
  (covered calls node →
     ∃ e, call_ref_node vg t calls node = Ok e
          ∧ ∀ i ei v, 0 ≤ i < len (Node.sequence node) →
              call_ref_base vg t calls node i = Ok ei → v ∈ stdout ei → v ∈ stdout e)
  ∧ (¬ covered calls node →
     call_ref_node vg t calls node
     = Err (CallIndexOutOfBounds (Node.id node) (len (calls_of calls (Node.id node))))).
Proof.
  intros Htrace Hfits Hwf Hget Hplace. destruct p as [first second].
  unfold call_ref_node. rewrite Hplace.
  pose proof (call_ref_bases_spec vg t calls node (length (Node.sequence node)) 0%nat) as H.
  simpl in H. fold (len (Node.sequence node)) in H.
  assert (∀ j, (0 ≤ j < length (Node.sequence node))%nat →
               (j < length (calls_of calls (Node.id node)))%nat →
               ∃ e, call_ref_base vg t calls node (Z.of_nat j) = Ok e) as Hbody.
  { intros j Hj Hjc.
    destruct (call_ref_base_total vg refPathName t calls node first second (Z.of_nat j))
      as (c & base & _ & _ & _ & _ & _ & He); try done; unfold len; lia. }
  specialize (H ltac:(lia) Hbody). unfold covered, len in *. split.
  - intros Hcov. rewrite decide_True in H by lia.
    destruct H as (e & He & Hkeep). exists e. split; [done|].
    intros i ei v Hi Hei Hv. apply (Hkeep (Z.to_nat i) ei); [lia| |done].
    by rewrite Z2Nat.id by lia.
  - intros Hcov. by rewrite decide_False in H by lia.
Qed.

(** C4. For a node of the graph that the reference path places at [first],
    backward when [second], on traced tables that fit [size_t] and a call
    table read from a call file: at every offset [i] with at least one alt
    the body of the loop emits a record whose position is the reference
    coordinate plus one, the coordinate being [first + (length - i - 1)] when
    the node is backward in the reference and [first + i] otherwise; its
    reference allele is the one base of the reference string at that
    coordinate; its alt alleles are the alt bases of the call, in the order
    of the call, each reverse-complemented exactly when the node is backward
    in the reference. When the table covers the node, the pass over the node
    ends well and its output holds that record. *)
Theorem reference_snp_is_placed vg refPathName t lines calls node
    (first : Z) (second : bool) (i : Z) (c : BaseCall) :
  trace_reference vg refPathName = Ok t →
  len (refSeq t) < 2 ^ 64 →
  read_calls ∅ lines = Ok calls →
  get_node vg (Node.id node) = Some node →
  referencePositionAndOrientation t !! Node.id node = Some (first, second) →
  0 ≤ i < len (Node.sequence node) →
  call_at calls (Node.id node) i = Ok c →
  alts c ≠ [] →
  ∃ base line,
    refSeq t !! Z.to_nat (if second then first + (len (Node.sequence node) - i - 1)
                          else first + i) = Some base
    ∧ call_ref_base vg t calls node i
      = Ok (mkEmission [line]
              [mkVariant ((if second then first + (len (Node.sequence node) - i - 1)
                           else first + i) + 1)
                         [base]
                         (map (λ a, if second then reverse_complement vg [a] else [a]) (alts c))
                         (if graphBasePresent c then "1/0"
                          else if decide (length (alts c) = 1%nat) then "1/1" else "1/2")
                         0])
    ∧ (covered calls node →
       ∃ e, call_ref_node vg t calls node = Ok e
            ∧ mkVariant ((if second then first + (len (Node.sequence node) - i - 1)
                          else first + i) + 1)
                        [base]
                        (map (λ a, if second then reverse_complement vg [a] else [a]) (alts c))
                        (if graphBasePresent c then "1/0"
                         else if decide (length (alts c) = 1%nat) then "1/1" else "1/2")
                        0 ∈ stdout e).
Proof.
  intros Htrace Hfits Hread Hget Hplace Hi Hcall Halts.
  pose proof (read_calls_from_empty_well_formed _ _ Hread) as Hwf.
  destruct (call_ref_base_total vg refPathName t calls node first second i)
    as (c' & base & Hcall' & Hbase & H0 & Hend & Hc_wf & _); try done.
  { apply call_at_Ok in Hcall; [|lia]. apply lookup_lt_Some in Hcall. unfold len. lia. }
  rewrite Hcall in Hcall'. injection Hcall' as <-.
  destruct (call_ref_base_emits vg t calls node i c first second base) as [line Hemit];
    try done.
  exists base, line. split; [exact Hbase|]. split; [exact Hemit|].
  intros Hcov.
  destruct (call_ref_node_pass vg refPathName t calls node (first, second))
    as [Hpass _]; try done.
  destruct (Hpass Hcov) as (e & He & Hkeep).
  exists e. split; [done|]. apply (Hkeep i _ _ Hi Hemit). by left.
Qed.

Lemma reference_snp_is_placed_witness :
  (∃ base line,
     refSeq bubble_trace !! Z.to_nat (3 + 1) = Some base
     ∧ call_ref_base bubble_vg bubble_trace bubble_calls (Node.mk 3 (text "TA")) 1
       = Ok (mkEmission [line] [mkVariant (3 + 1 + 1) [base] [text "C"] "1/0" 0])
     ∧ (covered bubble_calls (Node.mk 3 (text "TA")) →
        ∃ e, call_ref_node bubble_vg bubble_trace bubble_calls (Node.mk 3 (text "TA")) = Ok e
             ∧ mkVariant (3 + 1 + 1) [base] [text "C"] "1/0" 0 ∈ stdout e))
  ∧ (∃ base line,
       refSeq reverse_trace !! Z.to_nat (2 + (3 - 0 - 1)) = Some base
       ∧ call_ref_base reverse_vg reverse_trace reverse_calls (Node.mk 2 (text "GGT")) 0
         = Ok (mkEmission [line]
                 [mkVariant (2 + (3 - 0 - 1) + 1) [base] [text "T"] "1/1" 0])
       ∧ (covered reverse_calls (Node.mk 2 (text "GGT")) →
          ∃ e, call_ref_node reverse_vg reverse_trace reverse_calls (Node.mk 2 (text "GGT"))
               = Ok e
               ∧ mkVariant (2 + (3 - 0 - 1) + 1) [base] [text "T"] "1/1" 0 ∈ stdout e)).
Proof.
  split.
  - refine (reference_snp_is_placed bubble_vg "ref" bubble_trace bubble_lines bubble_calls
              (Node.mk 3 (text "TA")) 3 false 1 (mkBaseCall true (text "C"))
              _ _ _ _ _ _ _ _).
    + reflexivity.
    + vm_compute. reflexivity.
    + vm_compute. reflexivity.
    + reflexivity.
    + reflexivity.
    + vm_compute. split; [done|reflexivity].
    + reflexivity.
    + done.
  - refine (reference_snp_is_placed reverse_vg "ref" reverse_trace reverse_lines reverse_calls
              (Node.mk 2 (text "GGT")) 2 true 0 (mkBaseCall false (text "A"))
              _ _ _ _ _ _ _ _).
    + reflexivity.
    + vm_compute. reflexivity.
    + vm_compute. reflexivity.
    + reflexivity.
    + reflexivity.
    + vm_compute. split; [done|reflexivity].
    + reflexivity.
    + done.
Defined.

(** ** Two alts at a base of the reference *)

Lemma ascending_filter (P : list ascii → Prop) `{∀ x, Decision (P x)} s :
  ascending s → ascending (filter P s).
Proof.
  induction 1 as [|x s Hx Hs IH]; [constructor|].
  rewrite filter_cons. destruct (decide (P x)); [|done].
  constructor; [|done]. unfold ascending_from in *.
  apply Forall_forall. intros y [_ Hy]%list_elem_of_filter.
  by eapply Forall_forall in Hx.
Qed.

(** C5, as the code has it. A base of a reference node whose call, built
    from the call string [call], records two alts without the graph base:
    the record has genotype "1/2"; its two alt alleles are made of the two
    alt bases that the string lists, the base with the smaller character
    code first, which is the order of the set of call tokens and of the
    array of the call, whatever their order in the string; each base is
    given as it is when the node is forward in the reference and reverse
    complemented when it is backward. *)
Theorem two_alts_follow_the_token_set vg t calls node
    (first : Z) (second : bool) (i : Z) (call : list ascii) (c : BaseCall) (base : ascii) :
  BaseCall_of (std_set (call_tokens call)) = Ok c →
  call_at calls (Node.id node) i = Ok c →
  graphBasePresent c = false →
  length (alts c) = 2%nat →
  referencePositionAndOrientation t !! Node.id node = Some (first, second) →
  0 ≤ i < len (Node.sequence node) →
  0 ≤ first → first + len (Node.sequence node) < 2 ^ 64 →
  refSeq t !! Z.to_nat (reference_coordinate first second (len (Node.sequence node)) i)
    = Some base →
  ∃ a1 a2 line,
    alts c = [a1; a2]
    ∧ (code a1 < code a2)%N
    ∧ (∀ x, x ∈ alts_as_listed call ↔ x = [a1] ∨ x = [a2])
    ∧ call_ref_base vg t calls node i
      = Ok (mkEmission [line]
              [mkVariant (reference_coordinate first second (len (Node.sequence node)) i + 1)
                         [base] [oriented vg second a1; oriented vg second a2] "1/2" 0]).
Proof.
  intros Hc Hcall Hpresent Htwo Hplace Hi Hfirst Hfits Hbase.
  pose proof (BaseCall_loop_spec (std_set (call_tokens call)) (mkBaseCall false [])) as Hspec.
  unfold BaseCall_of in Hc. rewrite Hc in Hspec. simpl in Hspec.
  destruct Hspec as ([Hall _] & _ & Ha).
  pose proof (ascending_filter is_alt_token _ (std_set_ascending (call_tokens call))) as Hasc.
  fold (alt_tokens (std_set (call_tokens call))) in Hasc.
  assert (∃ a1 a2, alt_tokens (std_set (call_tokens call)) = [[a1]; [a2]]) as (a1 & a2 & Htok).
  { rewrite Ha in Htwo. rewrite length_concat_singletons in Htwo by done.
    destruct (alt_tokens _) as [|x [|y [|? ?]]]; try done.
    apply Forall_cons_1 in Hall as [Hx Hall]. apply Forall_cons_1 in Hall as [Hy _].
    destruct x as [|a1 [|? ?]], y as [|a2 [|? ?]]; try done. eauto. }
  rewrite Htok in Ha, Hasc. simpl in Ha.
  exists a1, a2.
  destruct (call_ref_base_emits vg t calls node i c first second base) as [line Hemit];
    try done.
  { by rewrite Ha. }
  { unfold well_formed_call. lia. }
  exists line. split; [done|]. split; [|split].
  - inversion Hasc as [|? ? Hfrom _]; subst. apply Forall_cons_1 in Hfrom as [Hlt _].
    simpl in Hlt. unfold code.
    destruct (N.ltb_spec (N_of_ascii a1) (N_of_ascii a2)); [done|].
    by destruct (N_of_ascii a2 <? N_of_ascii a1)%N.
  - intros x. unfold alts_as_listed.
    assert (x ∈ alt_tokens (std_set (call_tokens call)) ↔ x = [a1] ∨ x = [a2]) as <-
      by (by rewrite Htok, elem_of_cons, list_elem_of_singleton).
    unfold alt_tokens. rewrite !list_elem_of_filter.
    by rewrite (elem_of_std_set x (call_tokens call)).
  - rewrite Hemit, Hpresent, Ha. simpl. done.
Qed.

Lemma two_alts_follow_the_token_set_witness :
  ∃ a1 a2 line,
    alts (mkBaseCall false (text "AT")) = [a1; a2]
    ∧ (code a1 < code a2)%N
    ∧ (∀ x, x ∈ alts_as_listed (text "T,A") ↔ x = [a1] ∨ x = [a2])
    ∧ call_ref_base insertion_vg insertion_trace insertion_calls (Node.mk 2 (text "C")) 0
      = Ok (mkEmission [line]
              [mkVariant (5 + 1) ["C"%char]
                 [oriented insertion_vg false a1; oriented insertion_vg false a2] "1/2" 0]).
Proof.
  refine (two_alts_follow_the_token_set insertion_vg insertion_trace insertion_calls
            (Node.mk 2 (text "C")) 5 false 0 (text "T,A") (mkBaseCall false (text "AT"))
            "C"%char _ _ _ _ _ _ _ _ _).
  - reflexivity.
  - reflexivity.
  - reflexivity.
  - reflexivity.
  - reflexivity.
  - vm_compute. split; [done|reflexivity].
  - lia.
  - vm_compute. reflexivity.
  - reflexivity.
Defined.

(** C5, as stated, fails: the call string "T,A" lists T before A, and the
    record lists A before T. *)
Lemma alts_do_not_follow_the_call_string :
  alts_as_listed (text "T,A") = [text "T"; text "A"]
  ∧ add_line ∅ (text "2 1 C T,A") = Ok (<[2 := [mkBaseCall false (text "AT")]]> ∅)
  ∧ call_at insertion_calls 2 0 = Ok (mkBaseCall false (text "AT"))
  ∧ call_ref_base insertion_vg insertion_trace insertion_calls (Node.mk 2 (text "C")) 0
    = Ok (mkEmission
            ["Found variant C -> A,T, on node 2 at 1-based reference position 6"]
            [mkVariant 6 (text "C") [text "A"; text "T"] "1/2" 0])
  ∧ [text "A"; text "T"] ≠ alts_as_listed (text "T,A").
Proof. repeat split; try reflexivity. done. Qed.

(** ** The bounds of the call vectors *)

Lemma call_at_all calls nodeId n :
  (∀ i, 0 ≤ i < n → ∃ c, call_at calls nodeId i = Ok c) ↔ n ≤ len (calls_of calls nodeId).
Proof.
  unfold len. split.
  - intros Hall. destruct (decide (n ≤ Z.of_nat (length (calls_of calls nodeId)))); [done|].
    destruct (Hall (Z.of_nat (length (calls_of calls nodeId)))) as [c Hc]; [lia|].
    apply call_at_Ok in Hc; [|lia]. apply lookup_lt_Some in Hc. lia.
  - intros Hn i Hi.
    destruct (calls_of calls nodeId !! Z.to_nat i) as [c|] eqn:Hc.
    + exists c. by apply call_at_Ok; [lia|].
    + apply lookup_ge_None in Hc. lia.
Qed.

(** C9. Both loops read [callsByNodeOffset[id][i]] at every offset [i] of
    the sequence of a node, and the reads are all within bounds exactly when
    the call vector of the node has an entry for each of its bases. On
    traced tables that fit [size_t]: the pass over a reference node of the
    graph, with calls read from a call file, ends well when the table covers
    the node and else stops at the first offset without entry; the scan for
    a fully present non-reference node past its three checks ends well when
    the table covers the nodes of the replaced interval and else stops at
    the first offset without entry of a node of that interval. A call file
    without the one base of node 2 and a call file without the last base of
    node 1 end the run at such an offset. *)
Theorem call_lookups_need_every_base :
  (∀ calls n,
     (∀ i, 0 ≤ i < len (Node.sequence n) → ∃ c, call_at calls (Node.id n) i = Ok c)
     ↔ covered calls n)
  ∧ (∀ vg refPathName t lines calls node p,
       trace_reference vg refPathName = Ok t →
       len (refSeq t) < 2 ^ 64 →
       read_calls ∅ lines = Ok calls →
       get_node vg (Node.id node) = Some node →
       referencePositionAndOrientation t !! Node.id node = Some p →
       (covered calls node → ∃ e, call_ref_node vg t calls node = Ok e)
       ∧ (¬ covered calls node →
          call_ref_node vg t calls node
          = Err (CallIndexOutOfBounds (Node.id node) (len (calls_of calls (Node.id node))))))
  ∧ (∀ vg refPathName path t calls node altBackward inNode outNode pin pout,
       paths vg !! refPathName = Some path →
       trace_reference vg refPathName = Ok t →
       len (refSeq t) < 2 ^ 64 →
       referencePositionAndOrientation t !! Node.id node = None →
       anchored vg t node altBackward inNode outNode pin pout →
       get_node vg (Node.id (NodeTraversal.node inNode)) = Some (NodeTraversal.node inNode) →
       pin.1 < pout.1 →
       fully_present calls node →
       (interval_covered calls (layout vg 0 path)
          (pin.1 + len (Node.sequence (NodeTraversal.node inNode))) pout.1 →
        ∃ e, call_alt_node vg t calls node = Ok e)
       ∧ (¬ interval_covered calls (layout vg 0 path)
              (pin.1 + len (Node.sequence (NodeTraversal.node inNode))) pout.1 →
          ∃ e, in_interval (layout vg 0 path)
                 (pin.1 + len (Node.sequence (NodeTraversal.node inNode))) pout.1 e
               ∧ ¬ covered calls (visited e)
               ∧ call_alt_node vg t calls node
                 = Err (CallIndexOutOfBounds (Node.id (visited e))
                          (len (calls_of calls (Node.id (visited e)))))))
  ∧ run bubble_vg "ref" bubble_lines_without_node_2 = Err (CallIndexOutOfBounds 2 0)
  ∧ run insertion_vg "ref" insertion_lines_without_a_base = Err (CallIndexOutOfBounds 1 4).
Proof.
  split; [|split; [|split; [|split; by vm_compute]]].
  - intros calls n. apply call_at_all.
  - intros vg refPathName t lines calls node p Htrace Hfits Hread Hget Hplace.
    pose proof (read_calls_from_empty_well_formed _ _ Hread) as Hwf.
    destruct (call_ref_node_pass _ _ _ _ _ _ Htrace Hfits Hwf Hget Hplace) as [Hok Herr].
    split; [|done]. intros Hcov. destruct (Hok Hcov) as (e & He & _). eauto.
  - intros vg refPathName path t calls node altBackward inNode outNode pin pout
      Hpath Htrace Hfits Hnode Hanchored Hget Hlt Hpresent.
    destruct (call_alt_node_scanned _ _ _ calls _ _ _ _ _ _
                Htrace Hfits Hnode Hanchored Hget Hlt Hpresent)
      as (H0 & Hle & Hend & Hemit & Hstop).
    destruct (anchored_placed _ _ _ _ _ _ _ _ Hanchored) as [Hin Hout].
    destruct (scan_interval_traced _ _ _ _ calls _ _ _ _ _
                Hpath Htrace Hfits Hin Hout Hget Hlt) as [Hscan Hoob].
    pose proof (len_nonneg (Node.sequence (NodeTraversal.node inNode))) as Hlen.
    set (start := pin.1 + len (Node.sequence (NodeTraversal.node inNode))) in *.
    split.
    + intros Hcov. destruct (Hscan Hcov) as (b & Hb & _).
      destruct (decide (start = pout.1)) as [Hempty|Hbases].
      * destruct (structural_variant_insertion vg t node altBackward start b)
          as [_ Hshift]; [lia..|].
        destruct Hshift as (base & line & _ & Hfound); [lia|].
        destruct (Hemit b _ Hb
                    ltac:(replace (pout.1 - start) with 0 by lia; exact Hfound))
          as [warning ->]. eauto.
      * destruct (structural_variant_replacement vg t node altBackward start
                    (pout.1 - start) b) as (line & Hfound); [lia..|].
        destruct (Hemit b _ Hb Hfound) as [warning ->]. eauto.
    + intros Hcov. destruct (Hoob Hcov) as (e & He & Hnc & Herr).
      exists e. split; [done|]. split; [done|]. by apply Hstop.
Qed.

(** * Further properties of the code *)

(** ** What ends the tracing of the reference path *)

Lemma mapping_is_perfect_match_spec m :
  mapping_is_perfect_match m = true ↔ perfect_match m.
Proof.
  unfold mapping_is_perfect_match, perfect_match.
  rewrite forallb_forall, Forall_forall. apply forall_proper. intros e.
  rewrite <- list_elem_of_In.
  apply forall_proper. intros _.
  rewrite negb_true_iff, orb_false_iff, !negb_false_iff, Z.eqb_eq, bool_decide_eq_true.
  done.
Qed.

Lemma trace_step_Ok vg t m :
  (∃ t', trace_step vg t m = Ok t') ↔ traceable vg m.
Proof.
  unfold trace_step, traceable. rewrite <- mapping_is_perfect_match_spec.
  destruct (mapping_is_perfect_match m); simpl.
  - destruct (get_node vg (Mapping.node_id m)) as [n|]; simpl.
    + split; [intros _; split; [done|by eexists]|intros _; by eexists].
    + split; [by intros [? ?]|]. intros [_ [? ?]]. done.
  - split; [by intros [? ?]|]. by intros [? _].
Qed.

Lemma trace_from_Ok vg path : ∀ t0,
  (∃ t, trace_from vg t0 path = Ok t) ↔ Forall (traceable vg) path.
Proof.
  induction path as [|m path IH]; intros t0; simpl.
  - split; [done|]. intros _. by eexists.
  - rewrite Forall_cons, <- (trace_step_Ok vg t0 m). split.
    + intros [t Ht]. destruct (trace_step vg t0 m) as [t'|f] eqn:Hstep; [|done].
      simpl in Ht. split; [by eexists|]. apply (IH t'). by eexists.
    + intros [[t' Hstep] Hrest]. rewrite Hstep. simpl. by apply IH.
Qed.

Lemma trace_from_imperfect vg before m after : ∀ t0,
  Forall (traceable vg) before → ¬ perfect_match m →
  trace_from vg t0 (before ++ m :: after)
  = Err (AssertionFailed "mapping_is_perfect_match(mapping)").
Proof.
  induction before as [|b before IH]; intros t0 Hbefore Hm; simpl.
  - unfold trace_step. rewrite <- mapping_is_perfect_match_spec in Hm.
    by destruct (mapping_is_perfect_match m).
  - apply Forall_cons in Hbefore as [Hb Hbefore].
    apply (trace_step_Ok vg t0) in Hb as [t' ->]. simpl. by apply IH.
Qed.

(** X1. The tracing of the reference path ends well exactly when the graph
    has the path, every mapping of it is a perfect match (each edit keeps
    the length and carries no sequence; a mapping without edits is one) and
    every mapping is on a node of the graph. Without the path the run stops
    at the assertion on it; at the first mapping that is not a perfect match
    it stops at the assertion on the mappings. *)
Theorem tracing_ends_well_on_perfect_paths vg refPathName :
  (paths vg !! refPathName = None →
     trace_reference vg refPathName
     = Err (AssertionFailed "vg.paths.has_path(refPathName)"))
  ∧ (∀ path, paths vg !! refPathName = Some path →
       ((∃ t, trace_reference vg refPathName = Ok t) ↔ Forall (traceable vg) path)
       ∧ (∀ before m after, path = before ++ m :: after →
            Forall (traceable vg) before → ¬ perfect_match m →
            trace_reference vg refPathName
            = Err (AssertionFailed "mapping_is_perfect_match(mapping)")))
  ∧ (∀ m, Mapping.edit m = [] → perfect_match m).
Proof.
  unfold trace_reference. split; [by intros ->|]. split.
  - intros path ->. split; [apply trace_from_Ok|].
    intros before m after -> Hbefore Hm. by apply trace_from_imperfect.
  - intros m Hm. unfold perfect_match. rewrite Hm. constructor.
Qed.

(** ** Which nodes the tracer places *)

Lemma trace_from_placed vg path : ∀ t0 t,
  trace_from vg t0 path = Ok t →
  ∀ i, is_Some (referencePositionAndOrientation t !! i)
       ↔ is_Some (referencePositionAndOrientation t0 !! i)
         ∨ i ∈ map Mapping.node_id path.
Proof.
  induction path as [|m path IH]; intros t0 t Htrace i; simpl in *.
  - injection Htrace as <-. rewrite elem_of_nil. tauto.
  - destruct (trace_step vg t0 m) as [t'|f] eqn:Hstep; [|done]. simpl in Htrace.
    rewrite (IH _ _ Htrace i), elem_of_cons.
    unfold trace_step in Hstep.
    destruct (mapping_is_perfect_match m); [|done]. simpl in Hstep.
    destruct (get_node vg (Mapping.node_id m)) as [n|]; [|done].
    injection Hstep as <-. simpl.
    destruct (referencePositionAndOrientation t0 !! Mapping.node_id m) as [p|] eqn:Hm.
    + split; [tauto|]. intros [H|[->|H]]; [tauto| |tauto]. left. by rewrite Hm.
    + destruct (decide (i = Mapping.node_id m)) as [->|Hne].
      * rewrite lookup_insert_eq. split; [tauto|]. intros _. left. by eexists.
      * rewrite lookup_insert_ne by done. split; [tauto|].
        intros [H|[->|H]]; [tauto|done|tauto].
Qed.

(** X2. The nodes that the tracer places are exactly the nodes that the
    reference path visits. The pass over non-reference nodes writes nothing
    for a node of the path and the pass over reference nodes writes nothing
    for any other node, whatever the call table holds for them. *)
Theorem placed_nodes_are_the_nodes_of_the_path vg refPathName path t :
  paths vg !! refPathName = Some path →
  trace_reference vg refPathName = Ok t →
  (∀ i, is_Some (referencePositionAndOrientation t !! i)
        ↔ i ∈ map Mapping.node_id path)
  ∧ (∀ calls node, Node.id node ∈ map Mapping.node_id path →
       call_alt_node vg t calls node = Ok nothing)
  ∧ (∀ calls node, Node.id node ∉ map Mapping.node_id path →
       call_ref_node vg t calls node = Ok nothing).
Proof.
  intros Hpath Htrace. unfold trace_reference in Htrace. rewrite Hpath in Htrace.
  assert (∀ i, is_Some (referencePositionAndOrientation t !! i)
               ↔ i ∈ map Mapping.node_id path) as Hplaced.
  { intros i. rewrite (trace_from_placed _ _ _ _ Htrace i). simpl.
    rewrite lookup_empty. split; [|tauto]. intros [[? ?]|?]; done. }
  split; [done|]. split.
  - intros calls node Hin. apply Hplaced in Hin as [p Hp].
    unfold call_alt_node. by rewrite Hp.
  - intros calls node Hout. unfold call_ref_node.
    destruct (referencePositionAndOrientation t !! Node.id node) as [p|] eqn:Hp; [|done].
    destruct Hout. apply Hplaced. by eexists.
Qed.

Lemma placed_nodes_are_the_nodes_of_the_path_witness :
  (∀ i, is_Some (referencePositionAndOrientation bubble_trace !! i)
        ↔ i ∈ map Mapping.node_id (map (λ i, Mapping.mk i false []) [1; 2; 3]))
  ∧ (∀ calls node,
       Node.id node ∈ map Mapping.node_id (map (λ i, Mapping.mk i false []) [1; 2; 3]) →
       call_alt_node bubble_vg bubble_trace calls node = Ok nothing)
  ∧ (∀ calls node,
       Node.id node ∉ map Mapping.node_id (map (λ i, Mapping.mk i false []) [1; 2; 3]) →
       call_ref_node bubble_vg bubble_trace calls node = Ok nothing).
Proof.
  apply (placed_nodes_are_the_nodes_of_the_path bubble_vg "ref"); reflexivity.
Defined.

(** ** The reference sequence and the index of its coordinates *)

Lemma layout_sequence_app L1 L2 :
  layout_sequence (L1 ++ L2) = layout_sequence L1 ++ layout_sequence L2.
Proof. unfold layout_sequence. by rewrite map_app, concat_app. Qed.

Lemma layout_prefix_len vg path : ∀ base La e Lb,
  layout vg base path = La ++ e :: Lb → e.1 = base + len (layout_sequence La).
Proof.
  induction path as [|m path IH]; intros base La e Lb HL; simpl in HL.
  - by destruct La.
  - destruct (get_node vg (Mapping.node_id m)) as [n|]; [|by destruct La].
    destruct La as [|a La]; simpl in HL.
    + injection HL as <- _. simpl. unfold layout_sequence, len. simpl. lia.
    + injection HL as <- HL. apply IH in HL. rewrite HL.
      rewrite layout_sequence_cons, len_app. unfold visited. simpl. lia.
Qed.

(** In a layout, the last mapping that begins at or before a coordinate of
    the laid-out sequence holds that coordinate. *)
Lemma layout_covering vg path : ∀ base q,
  base ≤ q < base + len (layout_sequence (layout vg base path)) →
  ∃ e, last (filter (λ e, e.1 ≤ q) (layout vg base path)) = Some e
       ∧ e ∈ layout vg base path
       ∧ e.1 ≤ q < e.1 + len (Node.sequence (visited e))
       ∧ layout_sequence (layout vg base path) !! Z.to_nat (q - base)
         = Node.sequence (visited e) !! Z.to_nat (q - e.1).
Proof.
  induction path as [|m path IH]; intros base q Hq; simpl in *.
  - unfold layout_sequence, len in Hq. simpl in Hq. lia.
  - destruct (get_node vg (Mapping.node_id m)) as [n|] eqn:Hn.
    2:{ unfold layout_sequence, len in Hq. simpl in Hq. lia. }
    rewrite layout_sequence_cons, len_app in Hq. unfold visited in Hq. simpl in Hq.
    rewrite filter_cons_True by (simpl; lia).
    rewrite layout_sequence_cons.
    replace (visited (base, NodeTraversal.mk n (Mapping.is_reverse m))) with n by done.
    destruct (decide (q < base + len (Node.sequence n))) as [Hin|Hout].
    + exists (base, NodeTraversal.mk n (Mapping.is_reverse m)).
      rewrite filter_none.
      2:{ apply Forall_forall. intros e He. apply layout_starts in He. lia. }
      split; [done|]. split; [apply list_elem_of_here|].
      unfold visited. simpl. split; [lia|].
      apply lookup_app_l. unfold len in Hin. lia.
    + destruct (IH (base + len (Node.sequence n)) q) as (e & Hlast & He & Hrange & Hlook);
        [lia|].
      exists e. rewrite last_cons_match, Hlast.
      split; [done|]. split; [by apply list_elem_of_further|]. split; [done|].
      rewrite <- Hlook. rewrite lookup_app_r by (unfold len in Hout; lia).
      f_equal. unfold len. lia.
Qed.

(** X3. After a tracing that fits [size_t], the look-up of a coordinate of
    the reference sequence in [nodesByReference] finds the mapping of the
    path whose bases hold that coordinate: it begins at or before the
    coordinate and ends after it, and the base of the reference sequence at
    the coordinate is the base of that node's sequence, read forward, at the
    distance from the beginning of the mapping. *)
Theorem coordinate_index_finds_the_covering_node vg refPathName path t q :
  paths vg !! refPathName = Some path →
  trace_reference vg refPathName = Ok t →
  len (refSeq t) < 2 ^ 64 →
  0 ≤ q < len (refSeq t) →
  ∃ start tr,
    lower_bound q (nodesByReference t) = Some (start, tr)
    ∧ (start, tr) ∈ layout vg 0 path
    ∧ start ≤ q < start + len (Node.sequence (NodeTraversal.node tr))
    ∧ refSeq t !! Z.to_nat q
      = Node.sequence (NodeTraversal.node tr) !! Z.to_nat (q - start).
Proof.
  intros Hpath Htrace Hfits Hq.
  destruct (trace_reference_tables _ _ _ _ Hpath Htrace Hfits)
    as (_ & Hseq & _ & _ & Hindex).
  rewrite Hseq in Hq.
  destruct (layout_covering vg path 0 q) as ([start tr] & Hlast & He & Hrange & Hlook);
    [lia|].
  exists start, tr. rewrite Hindex, Hseq. split; [done|]. split; [done|].
  split; [done|]. by rewrite Z.sub_0_r in Hlook.
Qed.

Lemma coordinate_index_finds_the_covering_node_witness :
  ∃ start tr,
    lower_bound 3 (nodesByReference bubble_trace) = Some (start, tr)
    ∧ (start, tr) ∈ layout bubble_vg 0 (map (λ i, Mapping.mk i false []) [1; 2; 3])
    ∧ start ≤ 3 < start + len (Node.sequence (NodeTraversal.node tr))
    ∧ refSeq bubble_trace !! Z.to_nat 3
      = Node.sequence (NodeTraversal.node tr) !! Z.to_nat (3 - start).
Proof.
  apply (coordinate_index_finds_the_covering_node bubble_vg "ref");
    [reflexivity|reflexivity|by vm_compute|by vm_compute].
Defined.

(** The reference sequence holds, from the placement of a node on, the
    bases of that node. *)
Lemma refSeq_at_placement vg refPathName t i p n :
  trace_reference vg refPathName = Ok t →
  len (refSeq t) < 2 ^ 64 →
  referencePositionAndOrientation t !! i = Some p →
  get_node vg i = Some n →
  0 ≤ p.1
  ∧ ∀ k, (k < length (Node.sequence n))%nat →
         refSeq t !! (Z.to_nat p.1 + k)%nat = Node.sequence n !! k.
Proof.
  intros Htrace Hfits Hp Hn.
  destruct (trace_reference_spec _ _ _ Htrace) as (path & Hpath & _).
  destruct (trace_reference_tables _ _ _ _ Hpath Htrace Hfits)
    as (_ & Hseq & _ & Hplaced & _).
  rewrite Hplaced in Hp.
  destruct (first_visit_Some _ _ _ Hp) as (k & e & Hk & Hid & -> & _).
  pose proof (take_drop_middle _ _ _ Hk) as Hsplit. symmetry in Hsplit.
  destruct (layout_split _ _ _ _ _ _ Hsplit) as (_ & _ & _ & Hget).
  rewrite Hid, Hn in Hget. injection Hget as Hvisited.
  pose proof (layout_prefix_len _ _ _ _ _ _ Hsplit) as Hstart.
  pose proof (len_nonneg (layout_sequence (take k (layout vg 0 path)))) as Hlen.
  subst n. simpl. split; [lia|]. intros j Hj.
  rewrite Hseq, Hsplit, layout_sequence_app, layout_sequence_cons.
  rewrite lookup_app_r by (unfold len in Hstart; lia).
  rewrite lookup_app_l by (unfold len in Hstart; lia).
  f_equal. unfold len in Hstart. lia.
Qed.

(** X4. After a tracing that fits [size_t], the reference sequence holds
    the sequence of every placed node of the graph at the node's placement,
    read forward also when the path visits the node backward. *)
Theorem reference_holds_each_placed_node_forward vg refPathName t i
    (first : Z) (second : bool) n :
  trace_reference vg refPathName = Ok t →
  len (refSeq t) < 2 ^ 64 →
  referencePositionAndOrientation t !! i = Some (first, second) →
  get_node vg i = Some n →
  take (length (Node.sequence n)) (drop (Z.to_nat first) (refSeq t)) = Node.sequence n.
Proof.
  intros Htrace Hfits Hp Hn.
  destruct (refSeq_at_placement _ _ _ _ _ _ Htrace Hfits Hp Hn) as [_ Hlook].
  simpl in Hlook. apply list_eq. intros k.
  destruct (decide (k < length (Node.sequence n))%nat) as [Hk|Hk].
  - rewrite lookup_take_lt by done. rewrite lookup_drop. by apply Hlook.
  - rewrite lookup_take_ge by lia. symmetry. apply lookup_ge_None. lia.
Qed.

Lemma reference_holds_each_placed_node_forward_witness :
  take (length (Node.sequence (Node.mk 2 (text "GGT"))))
       (drop (Z.to_nat 2) (refSeq reverse_trace))
  = Node.sequence (Node.mk 2 (text "GGT")).
Proof.
  apply (reference_holds_each_placed_node_forward reverse_vg "ref" reverse_trace 2 2 true);
    [reflexivity|by vm_compute|reflexivity|reflexivity].
Defined.

(** ** The records of a reference node *)

(** X5. The reference allele of the record written for offset [i] of a
    reference node is a base of that node itself: the base at offset [i]
    when the node is placed forward, and the base at offset
    [length - i - 1], as the graph has it and not complemented, when the
    node is placed backward. *)
Theorem reference_snp_names_a_base_of_the_node vg refPathName t lines calls node
    (first : Z) (second : bool) (i : Z) (c : BaseCall) :
  trace_reference vg refPathName = Ok t →
  len (refSeq t) < 2 ^ 64 →
  read_calls ∅ lines = Ok calls →
  get_node vg (Node.id node) = Some node →
  referencePositionAndOrientation t !! Node.id node = Some (first, second) →
  0 ≤ i < len (Node.sequence node) →
  call_at calls (Node.id node) i = Ok c →
  alts c ≠ [] →
  ∃ base log v,
    Node.sequence node
      !! Z.to_nat (if second then len (Node.sequence node) - i - 1 else i) = Some base
    ∧ call_ref_base vg t calls node i = Ok (mkEmission log [v])
    ∧ ref v = [base].
Proof.
  intros Htrace Hfits Hread Hget Hplace Hi Hcall Halts.
  pose proof (read_calls_from_empty_well_formed _ _ Hread) as Hwf.
  assert (i < len (calls_of calls (Node.id node))) as Hentry.
  { apply call_at_Ok in Hcall; [|lia]. apply lookup_lt_Some in Hcall. unfold len. lia. }
  destruct (call_ref_base_total _ _ _ _ _ _ _ _ Htrace Hfits Hwf Hget Hplace Hi Hentry)
    as (c' & base & Hc' & Hbase & H0 & Hend & Hwfc & _).
  rewrite Hcall in Hc'. injection Hc' as <-.
  destruct (call_ref_base_emits vg _ _ _ _ _ _ _ _ Hcall Halts Hwfc Hplace Hi H0 Hend Hbase)
    as (line & Hemit).
  destruct (refSeq_at_placement _ _ _ _ _ _ Htrace Hfits Hplace Hget) as [_ Hlook].
  simpl in Hlook.
  exists base, [line]. eexists. split; [|split; [exact Hemit|done]].
  rewrite <- Hbase, <- Hlook by (unfold len in *; destruct second; lia).
  f_equal. unfold reference_coordinate. destruct second; lia.
Qed.

Lemma reference_snp_names_a_base_of_the_node_witness :
  ∃ base log v,
    Node.sequence (Node.mk 2 (text "GGT"))
      !! Z.to_nat (if true then len (Node.sequence (Node.mk 2 (text "GGT"))) - 0 - 1 else 0)
    = Some base
    ∧ call_ref_base reverse_vg reverse_trace reverse_calls (Node.mk 2 (text "GGT")) 0
      = Ok (mkEmission log [v])
    ∧ ref v = [base].
Proof.
  apply (reference_snp_names_a_base_of_the_node reverse_vg "ref" reverse_trace
           reverse_lines reverse_calls (Node.mk 2 (text "GGT")) 2 true 0
           (mkBaseCall false (text "A")));
    try reflexivity; by vm_compute.
Defined.

Lemma call_ref_base_position vg refPathName t calls node (first : Z) (second : bool) i :
  trace_reference vg refPathName = Ok t →
  len (refSeq t) < 2 ^ 64 →
  calls_well_formed calls →
  get_node vg (Node.id node) = Some node →
  referencePositionAndOrientation t !! Node.id node = Some (first, second) →
  0 ≤ i < len (Node.sequence node) →
  i < len (calls_of calls (Node.id node)) →
  ∃ e, call_ref_base vg t calls node i = Ok e
       ∧ map position (stdout e)
         = (if carries_alt calls (Node.id node) i
            then [reference_coordinate first second (len (Node.sequence node)) i + 1]
            else [])
       ∧ length (stderr e) = length (stdout e).
Proof.
  intros Htrace Hfits Hwf Hget Hplace Hi Hentry.
  destruct (call_ref_base_total _ _ _ _ _ _ _ _ Htrace Hfits Hwf Hget Hplace Hi Hentry)
    as (c & base & Hc & Hbase & H0 & Hend & Hwfc & _).
  pose proof Hc as Hlook. apply call_at_Ok in Hlook; [|lia].
  unfold carries_alt. rewrite Hlook.
  destruct (decide (alts c = [])) as [Hnone|Halts].
  - exists nothing. unfold call_ref_base. rewrite Hc. simpl.
    unfold numberOfAlts. rewrite Hnone. done.
  - destruct (call_ref_base_emits vg _ _ _ _ _ _ _ _ Hc Halts Hwfc Hplace Hi H0 Hend Hbase)
      as (line & ->).
    eexists. split; [done|]. simpl. split; [|done].
    destruct (numberOfAlts c =? 0) eqn:Hzero; [|done].
    apply Z.eqb_eq in Hzero. unfold numberOfAlts, len in Hzero.
    destruct (alts c); [done|simpl in Hzero; lia].
Qed.

Lemma call_ref_bases_positions vg refPathName t calls node (first : Z) (second : bool) :
  trace_reference vg refPathName = Ok t →
  len (refSeq t) < 2 ^ 64 →
  calls_well_formed calls →
  get_node vg (Node.id node) = Some node →
  referencePositionAndOrientation t !! Node.id node = Some (first, second) →
  ∀ offsets,
    Forall (λ i, 0 ≤ i < len (Node.sequence node)
                 ∧ i < len (calls_of calls (Node.id node))) offsets →
    ∃ e, call_ref_bases vg t calls node offsets = Ok e
         ∧ map position (stdout e)
           = map (λ i, reference_coordinate first second (len (Node.sequence node)) i + 1)
                 (filter (λ i, carries_alt calls (Node.id node) i = true) offsets)
         ∧ length (stderr e) = length (stdout e).
Proof.
  intros Htrace Hfits Hwf Hget Hplace offsets Hall.
  induction Hall as [|i offsets [Hi Hentry] _ (e' & He' & Hpos' & Hlog')]; simpl.
  - exists nothing. done.
  - destruct (call_ref_base_position _ _ _ _ _ _ _ _ Htrace Hfits Hwf Hget Hplace Hi Hentry)
      as (e & -> & Hpos & Hlog).
    rewrite He'. simpl. eexists. split; [done|]. simpl.
    rewrite map_app, !length_app, Hpos, Hpos', Hlog, Hlog'. split; [|done].
    rewrite filter_cons. destruct (carries_alt calls (Node.id node) i) eqn:Hc.
    + by rewrite decide_True by done.
    + by rewrite decide_False by done.
Qed.

(** X6. On tables that fit [size_t], with well-formed calls for every base
    of a reference node of the graph, the pass over that node ends well and
    writes one record, with one line of log, for each offset whose call
    records an alt base and none for the other offsets; the records come in
    the order of the offsets, each at its reference coordinate plus one. *)
Theorem reference_node_records_follow_the_offsets vg refPathName t calls node
    (first : Z) (second : bool) :
  trace_reference vg refPathName = Ok t →
  len (refSeq t) < 2 ^ 64 →
  calls_well_formed calls →
  get_node vg (Node.id node) = Some node →
  referencePositionAndOrientation t !! Node.id node = Some (first, second) →
  covered calls node →
  ∃ e, call_ref_node vg t calls node = Ok e
       ∧ map position (stdout e)
         = map (λ i, reference_coordinate first second (len (Node.sequence node)) i + 1)
               (filter (λ i, carries_alt calls (Node.id node) i = true)
                       (seqZ 0 (len (Node.sequence node))))
       ∧ length (stderr e) = length (stdout e).
Proof.
  intros Htrace Hfits Hwf Hget Hplace Hcov.
  unfold call_ref_node. rewrite Hplace.
  apply (call_ref_bases_positions _ _ _ _ _ _ _ Htrace Hfits Hwf Hget Hplace).
  apply Forall_forall. intros i Hi. apply elem_of_seqZ in Hi.
  unfold covered in Hcov. lia.
Qed.

Lemma reference_node_records_follow_the_offsets_witness :
  ∃ e, call_ref_node reverse_vg reverse_trace reverse_calls (Node.mk 2 (text "GGT")) = Ok e
       ∧ map position (stdout e)
         = map (λ i, reference_coordinate 2 true
                       (len (Node.sequence (Node.mk 2 (text "GGT")))) i + 1)
               (filter (λ i, carries_alt reverse_calls (Node.id (Node.mk 2 (text "GGT"))) i
                             = true)
                       (seqZ 0 (len (Node.sequence (Node.mk 2 (text "GGT"))))))
       ∧ length (stderr e) = length (stdout e).
Proof.
  apply (reference_node_records_follow_the_offsets reverse_vg "ref" reverse_trace
           reverse_calls (Node.mk 2 (text "GGT")) 2 true);
    [reflexivity|by vm_compute| |reflexivity|reflexivity|by vm_compute].
  apply (read_calls_from_empty_well_formed reverse_lines). reflexivity.
Defined.

(** ** What no run does, and what every record is *)

Lemma yields_bind {A B} (Q : A → Prop) (P : B → Prop) (r : result A) (k : A → result B) :
  yields Q r → (∀ a, Q a → yields P (k a)) → yields P (r ≫= k).
Proof. destruct r as [a|f]; simpl; [intros Ha Hk; by apply Hk|done]. Qed.

Lemma trace_from_yields vg path : ∀ t0, yields (λ _, True) (trace_from vg t0 path).
Proof.
  induction path as [|m path IH]; intros t0; simpl; [done|].
  apply (yields_bind (λ _, True)); [|intros t' _; apply IH].
  unfold trace_step. destruct (mapping_is_perfect_match m); simpl; [|done].
  by destruct (get_node vg (Mapping.node_id m)).
Qed.

Lemma BaseCall_of_yields altSet : yields well_formed_call (BaseCall_of altSet).
Proof.
  pose proof (BaseCall_loop_spec altSet (mkBaseCall false [])) as Hspec.
  pose proof (BaseCall_of_well_formed altSet) as Hwf.
  unfold BaseCall_of in *.
  destruct (BaseCall_loop (mkBaseCall false []) altSet) as [c|f]; simpl.
  - by apply Hwf.
  - destruct Hspec as [_ [e ->]]. done.
Qed.

Lemma add_line_yields calls line :
  calls_well_formed calls → yields calls_well_formed (add_line calls line).
Proof.
  intros Hwf. destruct (add_line calls line) as [calls'|f] eqn:Hline; simpl.
  - by apply (add_line_well_formed calls line).
  - unfold add_line in Hline. destruct (decide (line = [])); [done|].
    destruct (f_nodeId (read_fields line)) as [nodeId|]; [|by injection Hline as <-].
    destruct (f_offset (read_fields line)) as [offset|]; [|by injection Hline as <-].
    destruct (if len (calls_of calls nodeId) <=? wrap (offset - 1)
              then vector_resize (wrap (wrap (offset - 1) + 1)) (calls_of calls nodeId)
              else Ok (calls_of calls nodeId)) as [vec|f'] eqn:Hvec; simpl in Hline.
    2:{ injection Hline as <-. destruct (_ <=? _); [|done].
        unfold vector_resize in Hvec. destruct (_ && _); [|done].
        by injection Hvec as <-. }
    pose proof (BaseCall_of_yields (std_set (call_tokens (f_call (read_fields line)))))
      as Hcall.
    destruct (BaseCall_of (std_set (call_tokens (f_call (read_fields line)))))
      as [c|f']; simpl in *.
    + destruct (_ <? _); [done|]. by injection Hline as <-.
    + by injection Hline as <-.
Qed.

Lemma read_calls_yields lines : ∀ calls,
  calls_well_formed calls → yields calls_well_formed (read_calls calls lines).
Proof.
  induction lines as [|line lines IH]; intros calls Hwf; simpl; [done|].
  apply (yields_bind calls_well_formed); [by apply add_line_yields|].
  intros calls' Hwf'. by apply IH.
Qed.

Lemma scan_node_yields calls nodeId offsets : ∀ acc,
  yields (λ _, True) (scan_node calls nodeId offsets acc).
Proof.
  induction offsets as [|i offsets IH]; intros acc; simpl; [done|].
  apply (yields_bind (λ _, True)); [|intros c _; apply IH].
  unfold call_at. by case_match.
Qed.

Lemma scan_interval_yields t calls pastEnd fuel : ∀ refPosition acc,
  yields (λ _, True) (scan_interval fuel t calls refPosition pastEnd acc).
Proof.
  induction fuel as [|fuel IH]; intros refPosition acc; simpl.
  - by case_match.
  - case_match; [|done]. case_match; [|done].
    apply (yields_bind (λ _, True)); [apply scan_node_yields|].
    intros b _. apply IH.
Qed.

Lemma structural_variant_yields vg t node altBackward start size refPathExists :
  yields (λ e, Forall record_shape (stdout e))
         (structural_variant vg t node altBackward start size refPathExists).
Proof.
  unfold structural_variant, substr.
  destruct (len (refSeq t) <? start); simpl; [done|].
  destruct (len (take (Z.to_nat size) (drop (Z.to_nat start) (refSeq t))) =? 0)
    eqn:Hempty; simpl.
  - destruct (negb (start =? 0)); simpl; [|done].
    unfold char_at.
    destruct (refSeq t !! Z.to_nat (wrap (start - 1))) as [base|]; simpl.
    + constructor; [|done]. unfold record_shape. simpl.
      split; [done|]. split; [lia|]. split; [done|].
      destruct refPathExists; [by left|right; by left].
    + destruct (wrap (start - 1) =? len (refSeq t)); simpl; [|done].
      constructor; [|done]. unfold record_shape. simpl.
      split; [done|]. split; [lia|]. split; [done|].
      destruct refPathExists; [by left|right; by left].
  - constructor; [|done]. unfold record_shape. simpl.
    split; [|split; [lia|split; [done|destruct refPathExists; [by left|right; by left]]]].
    intros Hnil. rewrite Hnil in Hempty. done.
Qed.

Lemma call_interval_yields vg t calls node altBackward start pastEnd :
  yields (λ e, Forall record_shape (stdout e))
         (call_interval vg t calls node altBackward start pastEnd).
Proof.
  unfold call_interval.
  destruct (presence (calls_of calls (Node.id node))) as [[fully partly] maxAlts].
  destruct partly; simpl; [|by constructor].
  destruct fully; simpl; [|by constructor].
  apply (yields_bind (λ _, True)); [apply scan_interval_yields|]. intros b _.
  apply (yields_bind (λ e, Forall record_shape (stdout e)));
    [apply structural_variant_yields|].
  intros found Hfound. simpl. by case_match.
Qed.

Lemma placement_at_yields m k : yields (λ _, True) (placement_at m k).
Proof. unfold placement_at. by case_match. Qed.

Lemma call_alt_node_yields vg t calls node :
  yields (λ e, Forall record_shape (stdout e)) (call_alt_node vg t calls node).
Proof.
  unfold call_alt_node.
  destruct (referencePositionAndOrientation t !! Node.id node);
    [exact (Forall_nil_2 _)|].
  destruct (leftmost _ (nodes_prev vg _)).2 as [a|]; [|exact (Forall_nil_2 _)].
  destruct (leftmost _ (nodes_next vg _)).2 as [b|]; [|exact (Forall_nil_2 _)].
  apply (yields_bind (λ _, True)); [apply placement_at_yields|]. intros pa _.
  apply (yields_bind (λ _, True)); [apply placement_at_yields|]. intros pb _.
  destruct (negb (eqb _ _)); [exact (Forall_nil_2 _)|].
  destruct (if eqb (NodeTraversal.backward a) pa.2 then (a, b) else (b, a))
    as [inNode outNode].
  apply (yields_bind (λ _, True)); [apply placement_at_yields|]. intros pin _.
  apply (yields_bind (λ _, True)); [apply placement_at_yields|]. intros pout _.
  destruct (pout.1 <=? pin.1); [exact (Forall_nil_2 _)|].
  unfold call_bubble.
  apply (yields_bind (λ _, True)); [unfold assert; by case_match|]. intros _ _.
  apply call_interval_yields.
Qed.

Lemma call_ref_base_yields vg t calls node i :
  calls_well_formed calls →
  yields (λ e, Forall record_shape (stdout e)) (call_ref_base vg t calls node i).
Proof.
  intros Hwf. unfold call_ref_base.
  apply (yields_bind well_formed_call).
  { unfold call_at. case_match eqn:Hc; simpl; [|done].
    apply list_elem_of_lookup_2 in Hc.
    by apply (proj1 (Forall_forall _ _) (Hwf (Node.id node))). }
  intros c Hc. unfold well_formed_call in Hc.
  destruct (numberOfAlts c =? 0) eqn:Hzero; [by constructor|].
  apply Z.eqb_neq in Hzero. unfold numberOfAlts, len in *.
  apply (yields_bind (λ _, True)); [apply placement_at_yields|]. intros [first second] _.
  apply (yields_bind (λ _, True)).
  { unfold char_at. destruct (refSeq t !! _); [done|]. by destruct (_ =? _). }
  intros base _.
  destruct (graphBasePresent c); simpl.
  - constructor; [|done]. unfold record_shape. simpl. rewrite length_map.
    split; [done|]. split; [lia|]. split; [done|]. by left.
  - destruct (decide (length (alts c) = 1%nat)) as [H1|H1].
    + rewrite H1. simpl. constructor; [|done]. unfold record_shape. simpl.
      rewrite length_map. split; [done|]. split; [lia|]. split; [done|].
      right. by left.
    + assert (length (alts c) = 2%nat) as H2 by lia. rewrite H2. simpl.
      constructor; [|done]. unfold record_shape. simpl.
      rewrite length_map. split; [done|]. split; [lia|]. split; [done|].
      right. by right.
Qed.

Lemma call_ref_node_yields vg t calls node :
  calls_well_formed calls →
  yields (λ e, Forall record_shape (stdout e)) (call_ref_node vg t calls node).
Proof.
  intros Hwf. unfold call_ref_node. case_match; [|by constructor].
  generalize (seqZ 0 (len (Node.sequence node))). intros offsets.
  induction offsets as [|i offsets IH]; simpl; [by constructor|].
  apply (yields_bind (λ e, Forall record_shape (stdout e)));
    [by apply call_ref_base_yields|]. intros e He.
  apply (yields_bind (λ e, Forall record_shape (stdout e))); [done|]. intros e' He'.
  simpl. by apply Forall_app.
Qed.

Lemma for_each_node_yields body ns :
  (∀ n, yields (λ e, Forall record_shape (stdout e)) (body n)) →
  yields (λ e, Forall record_shape (stdout e)) (for_each_node body ns).
Proof.
  intros Hbody. induction ns as [|n ns IH]; simpl; [by constructor|].
  apply (yields_bind (λ e, Forall record_shape (stdout e))); [done|]. intros e He.
  apply (yields_bind (λ e, Forall record_shape (stdout e))); [done|]. intros e' He'.
  simpl. by apply Forall_app.
Qed.

Lemma run_yields vg refPathName lines :
  yields (λ e, Forall record_shape (stdout e)) (run vg refPathName lines).
Proof.
  unfold run. apply (yields_bind (λ _, True)).
  { unfold trace_reference. case_match; [apply trace_from_yields|done]. }
  intros t _. apply (yields_bind calls_well_formed).
  { apply read_calls_yields. intros nodeId. unfold calls_of.
    rewrite lookup_empty. constructor. }
  intros calls Hwf.
  apply (yields_bind (λ e, Forall record_shape (stdout e))).
  { apply for_each_node_yields. intros n. apply call_alt_node_yields. }
  intros structural Hstructural.
  apply (yields_bind (λ e, Forall record_shape (stdout e))).
  { apply for_each_node_yields. intros n. by apply call_ref_node_yields. }
  intros snps Hsnps. simpl. by apply Forall_app.
Qed.

(** X7. At an offset for which the table read from a call file has an
    entry of the node, the pass over reference nodes does not throw
    [Semantically invalid BaseCall]: the call stored there has at most
    [MAX_ALTS] alts. Only a read beyond the call vector can reach that
    exception. *)
Theorem invalid_call_is_never_thrown vg t lines calls node i c :
  read_calls ∅ lines = Ok calls →
  call_at calls (Node.id node) i = Ok c →
  0 ≤ numberOfAlts c ≤ MAX_ALTS
  ∧ call_ref_base vg t calls node i ≠ Err (Uncaught "Semantically invalid BaseCall").
Proof.
  intros Hread Hc.
  pose proof (read_calls_from_empty_well_formed _ _ Hread) as Hwf. split.
  - unfold call_at in Hc.
    destruct (calls_of calls (Node.id node) !! Z.to_nat i) as [c'|] eqn:Hlook; [|done].
    injection Hc as ->. apply list_elem_of_lookup_2 in Hlook.
    pose proof (proj1 (Forall_forall _ _) (Hwf (Node.id node)) _ Hlook) as Hwfc.
    unfold well_formed_call in Hwfc. unfold numberOfAlts, len, MAX_ALTS. lia.
  - pose proof (call_ref_base_yields vg t calls node i Hwf) as Hyields. intros Herr.
    rewrite Herr in Hyields. by simpl in Hyields.
Qed.

Lemma invalid_call_is_never_thrown_witness :
  0 ≤ numberOfAlts (mkBaseCall false (text "AT")) ≤ MAX_ALTS
  ∧ call_ref_base insertion_vg insertion_trace insertion_calls (Node.mk 2 (text "C")) 0
    ≠ Err (Uncaught "Semantically invalid BaseCall").
Proof.
  apply (invalid_call_is_never_thrown insertion_vg insertion_trace insertion_lines
           insertion_calls (Node.mk 2 (text "C")) 0); reflexivity.
Defined.

(** X8. On a table read from a call file, every record written by a turn
    that ends well (no assertion fails in it and its call look-ups stay
    within the call vectors) of the body of the first pass, for a node, or
    of the body of the second pass, for an offset of a node, has a reference
    allele that is not empty, one or two alt alleles, quality 0 and the
    genotype 1/0, 1/1 or 1/2; a record with genotype 1/1 has one alt allele
    and a record with genotype 1/2 has two. So has a record written before a
    later turn fails, and so has every record of a run that ends well. *)
Theorem every_record_has_its_alleles vg refPathName t lines calls :
  read_calls ∅ lines = Ok calls →
  (∀ node e, call_alt_node vg t calls node = Ok e → Forall record_shape (stdout e))
  ∧ (∀ node i e, call_ref_base vg t calls node i = Ok e →
       Forall record_shape (stdout e))
  ∧ (∀ e, run vg refPathName lines = Ok e → Forall record_shape (stdout e)).
Proof.
  intros Hread. pose proof (read_calls_from_empty_well_formed _ _ Hread) as Hwf.
  split; [|split].
  - intros node e He. pose proof (call_alt_node_yields vg t calls node) as Hyields.
    by rewrite He in Hyields.
  - intros node i e He. pose proof (call_ref_base_yields vg t calls node i Hwf) as Hyields.
    by rewrite He in Hyields.
  - intros e He. pose proof (run_yields vg refPathName lines) as Hyields.
    by rewrite He in Hyields.
Qed.

Lemma every_record_has_its_alleles_witness :
  (∀ node e, call_alt_node insertion_vg insertion_trace insertion_calls node = Ok e →
     Forall record_shape (stdout e))
  ∧ (∀ node i e, call_ref_base insertion_vg insertion_trace insertion_calls node i = Ok e →
       Forall record_shape (stdout e))
  ∧ (∀ e, run insertion_vg "ref" insertion_lines = Ok e → Forall record_shape (stdout e)).
Proof.
  apply (every_record_has_its_alleles insertion_vg "ref" insertion_trace insertion_lines).
  reflexivity.
Defined.

(** ** The leftmost anchor *)

Lemma leftmost_from placements candidates : ∀ acc,
  (fold_left (leftmost_step placements) candidates acc = acc
   ∧ ∀ c pc, c ∈ candidates → placed_at placements c pc → acc.1 ≤ pc.1)
  ∨ (∃ k a o p,
       fold_left (leftmost_step placements) candidates acc = (p, Some a)
       ∧ p < acc.1
       ∧ candidates !! k = Some a ∧ placed_at placements a (p, o)
       ∧ (∀ j c pc, (j < k)%nat → candidates !! j = Some c →
            placed_at placements c pc → p < pc.1)
       ∧ (∀ c pc, c ∈ candidates → placed_at placements c pc → p ≤ pc.1)).
Proof.
  unfold placed_at.
  induction candidates as [|c candidates IH]; intros acc; simpl.
  - left. split; [done|]. intros c pc Hc. by apply elem_of_nil in Hc.
  - remember (leftmost_step placements acc c) as acc' eqn:Hacc'.
    unfold leftmost_step in Hacc'.
    destruct (placements !! Node.id (NodeTraversal.node c)) as [found|] eqn:Hfound.
    + destruct (Z.ltb_spec found.1 acc.1) as [Hlt|Hge]; subst acc'.
      * destruct (IH (found.1, Some c))
          as [[Hr Hall]|(k & a & o & p & Hr & Hlt' & Hk & Ha & Hbefore & Hall)];
          simpl in *.
        -- right. exists 0%nat, c, found.2, found.1.
           split; [done|]. split; [done|]. split; [done|].
           split; [by destruct found|]. split; [intros; lia|].
           intros c' pc [->|Hc']%elem_of_cons Hpc.
           ++ rewrite Hfound in Hpc. injection Hpc as <-. lia.
           ++ by eapply Hall.
        -- right. exists (S k), a, o, p.
           split; [done|]. split; [lia|]. split; [done|]. split; [done|]. split.
           ++ intros [|j] c' pc Hj Hc' Hpc; simpl in Hc'.
              ** injection Hc' as <-. rewrite Hfound in Hpc. injection Hpc as <-. lia.
              ** eapply Hbefore; [|done..]. lia.
           ++ intros c' pc [->|Hc']%elem_of_cons Hpc.
              ** rewrite Hfound in Hpc. injection Hpc as <-. lia.
              ** by eapply Hall.
      * destruct (IH acc)
          as [[Hr Hall]|(k & a & o & p & Hr & Hlt' & Hk & Ha & Hbefore & Hall)].
        -- left. split; [done|].
           intros c' pc [->|Hc']%elem_of_cons Hpc.
           ++ rewrite Hfound in Hpc. injection Hpc as <-. lia.
           ++ by eapply Hall.
        -- right. exists (S k), a, o, p.
           split; [done|]. split; [done|]. split; [done|]. split; [done|]. split.
           ++ intros [|j] c' pc Hj Hc' Hpc; simpl in Hc'.
              ** injection Hc' as <-. rewrite Hfound in Hpc. injection Hpc as <-. lia.
              ** eapply Hbefore; [|done..]. lia.
           ++ intros c' pc [->|Hc']%elem_of_cons Hpc.
              ** rewrite Hfound in Hpc. injection Hpc as <-. lia.
              ** by eapply Hall.
    + subst acc'.
      destruct (IH acc)
        as [[Hr Hall]|(k & a & o & p & Hr & Hlt' & Hk & Ha & Hbefore & Hall)].
      * left. split; [done|].
        intros c' pc [->|Hc']%elem_of_cons Hpc; [by rewrite Hfound in Hpc|by eapply Hall].
      * right. exists (S k), a, o, p.
        split; [done|]. split; [done|]. split; [done|]. split; [done|]. split.
        -- intros [|j] c' pc Hj Hc' Hpc; simpl in Hc'.
           ++ injection Hc' as <-. by rewrite Hfound in Hpc.
           ++ eapply Hbefore; [|done..]. lia.
        -- intros c' pc [->|Hc']%elem_of_cons Hpc;
             [by rewrite Hfound in Hpc|by eapply Hall].
Qed.

(** X9. The search for the leftmost anchor among the neighbours on one
    side returns a neighbour that is placed on the reference below
    [(size_t) -1], with its coordinate, such that no placed neighbour has a
    smaller coordinate and every neighbour listed before it has a greater
    one; it returns no node exactly when every placed neighbour, if any, is
    placed at [(size_t) -1] or beyond. *)
Theorem leftmost_takes_the_least_placement placements candidates :
  match leftmost placements candidates with
  | (p, Some a) =>
      p < SIZE_MAX
      ∧ (∃ k o, candidates !! k = Some a ∧ placed_at placements a (p, o)
                ∧ ∀ j c pc, (j < k)%nat → candidates !! j = Some c →
                    placed_at placements c pc → p < pc.1)
      ∧ (∀ c pc, c ∈ candidates → placed_at placements c pc → p ≤ pc.1)
  | (p, None) =>
      p = SIZE_MAX
      ∧ ∀ c pc, c ∈ candidates → placed_at placements c pc → SIZE_MAX ≤ pc.1
  end.
Proof.
  unfold leftmost.
  destruct (leftmost_from placements candidates (SIZE_MAX, None))
    as [[Hr Hall]|(k & a & o & p & Hr & Hlt & Hk & Ha & Hbefore & Hall)]; simpl in *.
  - by rewrite Hr.
  - rewrite Hr. split; [done|]. split; [|done]. by exists k, o.
Qed.

Lemma leftmost_None placements candidates :
  (∀ c pc, c ∈ candidates → placed_at placements c pc → SIZE_MAX ≤ pc.1) →
  (leftmost placements candidates).2 = None.
Proof.
  intros Hnone. unfold leftmost.
  destruct (leftmost_from placements candidates (SIZE_MAX, None))
    as [[-> _]|(k & a & o & p & _ & Hlt & Hk & Ha & _)]; [done|].
  apply list_elem_of_lookup_2 in Hk. specialize (Hnone _ _ Hk Ha). simpl in *. lia.
Qed.

(** X10. A non-reference node none of whose neighbours on one side is
    placed on the reference (below [(size_t) -1]) gets no record: the pass
    writes the one line that the node is not anchored to the reference,
    whatever the calls. *)
Theorem unanchored_node_is_skipped vg t calls node :
  referencePositionAndOrientation t !! Node.id node = None →
  (∀ c pc, c ∈ nodes_prev vg (NodeTraversal.mk node false) →
           placed_at (referencePositionAndOrientation t) c pc → SIZE_MAX ≤ pc.1)
  ∨ (∀ c pc, c ∈ nodes_next vg (NodeTraversal.mk node false) →
             placed_at (referencePositionAndOrientation t) c pc → SIZE_MAX ≤ pc.1) →
  call_alt_node vg t calls node
  = Ok (mkEmission ["Node " +:+ pretty (Node.id node) +:+ " not anchored to reference."]
                   []).
Proof.
  intros Hnode Hside. unfold call_alt_node. rewrite Hnode.
  destruct Hside as [Hprev|Hnext].
  - by rewrite (leftmost_None _ _ Hprev).
  - rewrite (leftmost_None _ _ Hnext). by case_match.
Qed.

Lemma unanchored_node_is_skipped_witness :
  call_alt_node dangling_vg dangling_trace ∅ (Node.mk 3 (text "T"))
  = Ok (mkEmission ["Node " +:+ pretty (Node.id (Node.mk 3 (text "T")))
                      +:+ " not anchored to reference."] []).
Proof.
  apply (unanchored_node_is_skipped dangling_vg dangling_trace ∅ (Node.mk 3 (text "T")));
    [reflexivity|].
  right. intros c pc Hc. vm_compute in Hc. by apply elem_of_nil in Hc.
Defined.

(** ** The calls of a non-reference node *)

(** A node past the three checks, on traced tables: the interval lies
    within the reference string and the body goes on with it. *)
Lemma call_alt_node_interval vg refPathName t calls node altBackward
    inNode outNode pin pout :
  trace_reference vg refPathName = Ok t →
  len (refSeq t) < 2 ^ 64 →
  referencePositionAndOrientation t !! Node.id node = None →
  anchored vg t node altBackward inNode outNode pin pout →
  get_node vg (Node.id (NodeTraversal.node inNode)) = Some (NodeTraversal.node inNode) →
  pin.1 < pout.1 →
  0 ≤ pin.1
  ∧ pin.1 + len (Node.sequence (NodeTraversal.node inNode)) ≤ pout.1
  ∧ pout.1 ≤ len (refSeq t)
  ∧ wrap (pout.1 - (pin.1 + len (Node.sequence (NodeTraversal.node inNode))))
    = pout.1 - (pin.1 + len (Node.sequence (NodeTraversal.node inNode)))
  ∧ call_alt_node vg t calls node
    = call_interval vg t calls node altBackward
        (pin.1 + len (Node.sequence (NodeTraversal.node inNode))) pout.1.
Proof.
  intros Htrace Hfits Hnode Hanchored Hget Hlt.
  destruct (anchored_placed _ _ _ _ _ _ _ _ Hanchored) as [Hin Hout].
  destruct (interval_bounds _ _ _ _ _ _ _ _ Htrace Hfits Hin Hout Hget Hlt)
    as (H0 & Hstart & Hle & Hend & Hsize).
  split; [done|]. split; [done|]. split; [done|]. split; [done|].
  rewrite (call_alt_node_anchored _ _ _ _ _ _ _ _ _ Hnode Hanchored).
  destruct (Z.leb_spec pout.1 pin.1); [lia|].
  rewrite call_bubble_asserted by lia. by rewrite Hstart.
Qed.

Lemma presence_spec cs :
  presence cs
  = (forallb graphBasePresent cs, existsb graphBasePresent cs,
     fold_left (λ m call, Z.max m (numberOfAlts call)) cs 0).
Proof. unfold presence. by rewrite presence_from. Qed.

Lemma max_alts_positive cs : ∀ m,
  (0 <? fold_left (λ m call, Z.max m (numberOfAlts call)) cs m)
  = (0 <? m) || existsb (λ c, 0 <? numberOfAlts c) cs.
Proof.
  induction cs as [|c cs IH]; intros m; simpl; [by rewrite orb_false_r|].
  rewrite IH, orb_assoc. f_equal.
  destruct (Z.ltb_spec 0 m), (Z.ltb_spec 0 (numberOfAlts c)),
    (Z.ltb_spec 0 (Z.max m (numberOfAlts c))); simpl; try done; lia.
Qed.

(** X11. A non-reference node past the checks of its anchors, on traced
    tables that fit [size_t], none of whose calls has the graph base present
    (so also a node without any call) is passed over without a record and
    without a line of log. *)
Theorem unused_node_is_passed_over_in_silence vg refPathName t calls node
    altBackward inNode outNode pin pout :
  trace_reference vg refPathName = Ok t →
  len (refSeq t) < 2 ^ 64 →
  referencePositionAndOrientation t !! Node.id node = None →
  anchored vg t node altBackward inNode outNode pin pout →
  get_node vg (Node.id (NodeTraversal.node inNode)) = Some (NodeTraversal.node inNode) →
  pin.1 < pout.1 →
  Forall (λ c, graphBasePresent c = false) (calls_of calls (Node.id node)) →
  call_alt_node vg t calls node = Ok nothing.
Proof.
  intros Htrace Hfits Hnode Hanchored Hget Hlt Habsent.
  destruct (call_alt_node_interval _ _ _ calls _ _ _ _ _ _
              Htrace Hfits Hnode Hanchored Hget Hlt) as (_ & _ & _ & _ & ->).
  unfold call_interval. rewrite presence_spec.
  assert (existsb graphBasePresent (calls_of calls (Node.id node)) = false) as ->; [|done].
  induction Habsent as [|c cs Hc _ IH]; simpl; [done|]. by rewrite Hc.
Qed.

Lemma unused_node_is_passed_over_in_silence_witness :
  call_alt_node bubble_vg bubble_trace ∅ (Node.mk 4 (text "TT")) = Ok nothing.
Proof.
  apply (unused_node_is_passed_over_in_silence bubble_vg "ref" bubble_trace ∅
           (Node.mk 4 (text "TT")) false
           (NodeTraversal.mk (Node.mk 1 (text "AC")) false)
           (NodeTraversal.mk (Node.mk 3 (text "TA")) false) (0, false) (3, false)).
  - reflexivity.
  - by vm_compute.
  - reflexivity.
  - exists (NodeTraversal.mk (Node.mk 1 (text "AC")) false),
      (NodeTraversal.mk (Node.mk 3 (text "TA")) false), (0, false), (3, false).
    repeat split; reflexivity.
  - reflexivity.
  - simpl. lia.
  - constructor.
Defined.

(** X12. A non-reference node past the checks of its anchors, on traced
    tables that fit [size_t], with a call that has the graph base present
    and a call that has not, gets no record: the pass writes the one line
    that the node is only partially present. The entries that the reader
    made to fill the call vector up to a later offset count as calls without
    the graph base. *)
Theorem partly_present_node_is_skipped vg refPathName t calls node
    altBackward inNode outNode pin pout :
  trace_reference vg refPathName = Ok t →
  len (refSeq t) < 2 ^ 64 →
  referencePositionAndOrientation t !! Node.id node = None →
  anchored vg t node altBackward inNode outNode pin pout →
  get_node vg (Node.id (NodeTraversal.node inNode)) = Some (NodeTraversal.node inNode) →
  pin.1 < pout.1 →
  Exists (λ c, graphBasePresent c = true) (calls_of calls (Node.id node)) →
  Exists (λ c, graphBasePresent c = false) (calls_of calls (Node.id node)) →
  call_alt_node vg t calls node
  = Ok (mkEmission
          ["Node " +:+ pretty (Node.id node) +:+ " is nonreference attached to "
             +:+ "reference, but only partially present. Skipping!"] []).
Proof.
  intros Htrace Hfits Hnode Hanchored Hget Hlt Hsome Hnot.
  destruct (call_alt_node_interval _ _ _ calls _ _ _ _ _ _
              Htrace Hfits Hnode Hanchored Hget Hlt) as (_ & _ & _ & _ & ->).
  unfold call_interval. rewrite presence_spec.
  assert (existsb graphBasePresent (calls_of calls (Node.id node)) = true) as ->.
  { apply existsb_exists. apply Exists_exists in Hsome as (c & Hc & Hpresent).
    exists c. by rewrite <- list_elem_of_In. }
  assert (forallb graphBasePresent (calls_of calls (Node.id node)) = false) as ->.
  { apply not_true_is_false. intros Hall.
    apply Exists_exists in Hnot as (c & Hc & Habsent).
    rewrite forallb_forall in Hall. rewrite list_elem_of_In in Hc.
    rewrite (Hall _ Hc) in Habsent. done. }
  done.
Qed.

Lemma partly_present_node_is_skipped_witness :
  partial_calls = <[4 := [BaseCall_default; mkBaseCall true []]]> ∅
  ∧ call_alt_node bubble_vg bubble_trace partial_calls (Node.mk 4 (text "TT"))
    = Ok (mkEmission
            ["Node " +:+ pretty (Node.id (Node.mk 4 (text "TT")))
               +:+ " is nonreference attached to "
               +:+ "reference, but only partially present. Skipping!"] []).
Proof.
  split; [reflexivity|].
  apply (partly_present_node_is_skipped bubble_vg "ref" bubble_trace partial_calls
           (Node.mk 4 (text "TT")) false
           (NodeTraversal.mk (Node.mk 1 (text "AC")) false)
           (NodeTraversal.mk (Node.mk 3 (text "TA")) false) (0, false) (3, false)).
  - reflexivity.
  - by vm_compute.
  - reflexivity.
  - exists (NodeTraversal.mk (Node.mk 1 (text "AC")) false),
      (NodeTraversal.mk (Node.mk 3 (text "TA")) false), (0, false), (3, false).
    repeat split; reflexivity.
  - reflexivity.
  - simpl. lia.
  - apply Exists_cons_tl, Exists_cons_hd. reflexivity.
  - apply Exists_cons_hd. reflexivity.
Defined.

(** The body from the interval on, for a node that is fully present, when
    the scan ends well: the lines of log. *)
Lemma call_interval_fully_present vg t calls node altBackward start pastEnd b found :
  fully_present calls node →
  scan_interval (scan_fuel start pastEnd) t calls start pastEnd false = Ok b →
  structural_variant vg t node altBackward start (wrap (pastEnd - start)) b = Ok found →
  call_interval vg t calls node altBackward start pastEnd
  = Ok (mkEmission
          ((if has_novel_alts calls node
            then [node_name node +:+ " is nonreference attached to "
                    +:+ "reference, and present, but has additional novel alts!"]
            else []) ++ stderr found)
          (stdout found)).
Proof.
  intros Hpresent Hscan Hfound. unfold call_interval.
  destruct (presence_fully_present _ _ Hpresent) as [maxAlts Hpresence].
  pose proof (presence_spec (calls_of calls (Node.id node))) as Hspec.
  rewrite Hpresence in Hspec. injection Hspec as _ _ ->.
  rewrite Hpresence. simpl. rewrite Hscan. simpl. rewrite Hfound. simpl.
  rewrite max_alts_positive. simpl. unfold has_novel_alts.
  by destruct (existsb _ _).
Qed.

(** A fully present node past the three checks, on traced tables, with
    calls for the bases of the interval: the scan ends well, and the record
    is made from the interval. *)
Lemma call_alt_node_record vg refPathName path t calls node altBackward
    inNode outNode pin pout :
  paths vg !! refPathName = Some path →
  trace_reference vg refPathName = Ok t →
  len (refSeq t) < 2 ^ 64 →
  referencePositionAndOrientation t !! Node.id node = None →
  anchored vg t node altBackward inNode outNode pin pout →
  get_node vg (Node.id (NodeTraversal.node inNode)) = Some (NodeTraversal.node inNode) →
  pin.1 < pout.1 →
  fully_present calls node →
  interval_covered calls (layout vg 0 path)
    (pin.1 + len (Node.sequence (NodeTraversal.node inNode))) pout.1 →
  0 ≤ pin.1
  ∧ pin.1 + len (Node.sequence (NodeTraversal.node inNode)) ≤ pout.1
  ∧ pout.1 ≤ len (refSeq t)
  ∧ ∃ b, ∀ found,
      structural_variant vg t node altBackward
        (pin.1 + len (Node.sequence (NodeTraversal.node inNode)))
        (pout.1 - (pin.1 + len (Node.sequence (NodeTraversal.node inNode)))) b
      = Ok found →
      call_alt_node vg t calls node
      = Ok (mkEmission
              ((if has_novel_alts calls node
                then [node_name node +:+ " is nonreference attached to "
                        +:+ "reference, and present, but has additional novel alts!"]
                else []) ++ stderr found)
              (stdout found)).
Proof.
  intros Hpath Htrace Hfits Hnode Hanchored Hget Hlt Hpresent Hcov.
  destruct (call_alt_node_interval _ _ _ calls _ _ _ _ _ _
              Htrace Hfits Hnode Hanchored Hget Hlt) as (H0 & Hle & Hend & Hsize & ->).
  destruct (anchored_placed _ _ _ _ _ _ _ _ Hanchored) as [Hin Hout].
  destruct (scan_interval_traced _ _ _ _ calls _ _ _ _ _
              Hpath Htrace Hfits Hin Hout Hget Hlt) as [Hscan _].
  destruct (Hscan Hcov) as (b & Hb & _).
  split; [done|]. split; [done|]. split; [done|].
  exists b. intros found Hfound. rewrite <- Hsize in Hfound.
  by apply (call_interval_fully_present _ _ _ _ _ _ _ b).
Qed.

(** X13. A non-reference node past the checks of its anchors that is fully
    present, on traced tables that fit [size_t] with calls for every base of
    the interval it replaces, gets its one record whether or not its calls
    record alt bases; when some call does, the pass writes a line of warning
    before the line of the record, and else the line of the record only. *)
Theorem novel_alts_are_warned_of vg refPathName path t calls node
    altBackward inNode outNode pin pout :
  paths vg !! refPathName = Some path →
  trace_reference vg refPathName = Ok t →
  len (refSeq t) < 2 ^ 64 →
  referencePositionAndOrientation t !! Node.id node = None →
  anchored vg t node altBackward inNode outNode pin pout →
  get_node vg (Node.id (NodeTraversal.node inNode)) = Some (NodeTraversal.node inNode) →
  pin.1 < pout.1 →
  fully_present calls node →
  interval_covered calls (layout vg 0 path)
    (pin.1 + len (Node.sequence (NodeTraversal.node inNode))) pout.1 →
  ∃ line v,
    call_alt_node vg t calls node
    = Ok (mkEmission
            ((if has_novel_alts calls node
              then ["Node " +:+ pretty (Node.id node) +:+ " is nonreference attached to "
                      +:+ "reference, and present, but has additional novel alts!"]
              else []) ++ [line])
            [v]).
Proof.
  intros Hpath Htrace Hfits Hnode Hanchored Hget Hlt Hpresent Hcov.
  destruct (call_alt_node_record _ _ _ _ _ _ _ _ _ _ _
              Hpath Htrace Hfits Hnode Hanchored Hget Hlt Hpresent Hcov)
    as (H0 & Hle & Hend & b & Hemit).
  pose proof (len_nonneg (Node.sequence (NodeTraversal.node inNode))) as Hlen.
  set (start := pin.1 + len (Node.sequence (NodeTraversal.node inNode))) in *.
  destruct (decide (start = pout.1)) as [Hempty|Hbases].
  - destruct (structural_variant_insertion vg t node altBackward start b)
      as [_ Hshift]; [lia..|].
    destruct Hshift as (base & line & _ & Hfound); [lia|].
    rewrite (Hemit _ ltac:(replace (pout.1 - start) with 0 by lia; exact Hfound)).
    by eexists _, _.
  - destruct (structural_variant_replacement vg t node altBackward start
                (pout.1 - start) b) as (line & Hfound); [lia..|].
    rewrite (Hemit _ Hfound). by eexists _, _.
Qed.

Lemma novel_alts_are_warned_of_witness :
  has_novel_alts novel_calls (Node.mk 4 (text "TT")) = true
  ∧ ∃ line v,
      call_alt_node bubble_vg bubble_trace novel_calls (Node.mk 4 (text "TT"))
      = Ok (mkEmission
              ((if has_novel_alts novel_calls (Node.mk 4 (text "TT"))
                then ["Node " +:+ pretty (Node.id (Node.mk 4 (text "TT")))
                        +:+ " is nonreference attached to "
                        +:+ "reference, and present, but has additional novel alts!"]
                else []) ++ [line])
              [v]).
Proof.
  split; [reflexivity|].
  apply (novel_alts_are_warned_of bubble_vg "ref"
           (map (λ i, Mapping.mk i false []) [1; 2; 3]) bubble_trace novel_calls
           (Node.mk 4 (text "TT")) false
           (NodeTraversal.mk (Node.mk 1 (text "AC")) false)
           (NodeTraversal.mk (Node.mk 3 (text "TA")) false) (0, false) (3, false)).
  - reflexivity.
  - reflexivity.
  - by vm_compute.
  - reflexivity.
  - exists (NodeTraversal.mk (Node.mk 1 (text "AC")) false),
      (NodeTraversal.mk (Node.mk 3 (text "TA")) false), (0, false), (3, false).
    repeat split; reflexivity.
  - reflexivity.
  - simpl. lia.
  - split; [done|]. vm_compute. repeat constructor.
  - intros e [He _]. vm_compute in He.
    repeat (apply elem_of_cons in He as [->|He]); [vm_compute; done..|].
    by apply elem_of_nil in He.
Defined.

(** X14. The record of a fully present non-reference node that replaces
    an interval of at least one base, on traced tables that fit [size_t]
    with calls for every base of the interval: its position is the start of
    the interval plus one, its reference allele is the reference sequence
    from the start of the interval to before the placement of the node it is
    left towards, as many bases as the interval has, and its quality is 0. *)
Theorem replacement_spells_the_replaced_interval vg refPathName path t calls node
    altBackward inNode outNode pin pout :
  paths vg !! refPathName = Some path →
  trace_reference vg refPathName = Ok t →
  len (refSeq t) < 2 ^ 64 →
  referencePositionAndOrientation t !! Node.id node = None →
  anchored vg t node altBackward inNode outNode pin pout →
  get_node vg (Node.id (NodeTraversal.node inNode)) = Some (NodeTraversal.node inNode) →
  fully_present calls node →
  pin.1 + len (Node.sequence (NodeTraversal.node inNode)) < pout.1 →
  interval_covered calls (layout vg 0 path)
    (pin.1 + len (Node.sequence (NodeTraversal.node inNode))) pout.1 →
  ∃ log v,
    call_alt_node vg t calls node = Ok (mkEmission log [v])
    ∧ position v = pin.1 + len (Node.sequence (NodeTraversal.node inNode)) + 1
    ∧ ref v
      = take (Z.to_nat (pout.1 - (pin.1 + len (Node.sequence (NodeTraversal.node inNode)))))
             (drop (Z.to_nat (pin.1 + len (Node.sequence (NodeTraversal.node inNode))))
                   (refSeq t))
    ∧ len (ref v) = pout.1 - (pin.1 + len (Node.sequence (NodeTraversal.node inNode)))
    ∧ quality v = 0.
Proof.
  intros Hpath Htrace Hfits Hnode Hanchored Hget Hpresent Hbases Hcov.
  pose proof (len_nonneg (Node.sequence (NodeTraversal.node inNode))) as Hlen.
  assert (pin.1 < pout.1) as Hlt by lia.
  destruct (call_alt_node_record _ _ _ _ _ _ _ _ _ _ _
              Hpath Htrace Hfits Hnode Hanchored Hget Hlt Hpresent Hcov)
    as (H0 & Hle & Hend & b & Hemit).
  set (start := pin.1 + len (Node.sequence (NodeTraversal.node inNode))) in *.
  destruct (structural_variant_replacement vg t node altBackward start
              (pout.1 - start) b) as (line & Hfound); [lia..|].
  rewrite (Hemit _ Hfound). eexists _, _. split; [done|]. simpl.
  split; [done|]. split; [done|]. split; [|done].
  unfold len in *. rewrite length_take, length_drop. lia.
Qed.

Lemma replacement_spells_the_replaced_interval_witness :
  ∃ log v,
    call_alt_node bubble_vg bubble_trace bubble_calls (Node.mk 4 (text "TT"))
    = Ok (mkEmission log [v])
    ∧ position v = (0, false).1 + len (Node.sequence (Node.mk 1 (text "AC"))) + 1
    ∧ ref v
      = take (Z.to_nat ((3, false).1
                        - ((0, false).1 + len (Node.sequence (Node.mk 1 (text "AC"))))))
             (drop (Z.to_nat ((0, false).1 + len (Node.sequence (Node.mk 1 (text "AC")))))
                   (refSeq bubble_trace))
    ∧ len (ref v)
      = (3, false).1 - ((0, false).1 + len (Node.sequence (Node.mk 1 (text "AC"))))
    ∧ quality v = 0.
Proof.
  apply (replacement_spells_the_replaced_interval bubble_vg "ref"
           (map (λ i, Mapping.mk i false []) [1; 2; 3]) bubble_trace bubble_calls
           (Node.mk 4 (text "TT")) false
           (NodeTraversal.mk (Node.mk 1 (text "AC")) false)
           (NodeTraversal.mk (Node.mk 3 (text "TA")) false) (0, false) (3, false)).
  - reflexivity.
  - reflexivity.
  - by vm_compute.
  - reflexivity.
  - exists (NodeTraversal.mk (Node.mk 1 (text "AC")) false),
      (NodeTraversal.mk (Node.mk 3 (text "TA")) false), (0, false), (3, false).
    repeat split; reflexivity.
  - reflexivity.
  - split; [done|]. vm_compute. repeat constructor.
  - by vm_compute.
  - intros e [He _]. vm_compute in He.
    repeat (apply elem_of_cons in He as [->|He]); [vm_compute; done..|].
    by apply elem_of_nil in He.
Defined.


(** ** A line of four tokens *)

Lemma decimal_from_nonneg ds : ∀ acc,
  0 ≤ acc → Forall (λ c, isdigit c = true) ds →
  0 ≤ fold_left (λ (acc : Z) (c : ascii), acc * 10 + (Z.of_N (code c) - 48)) ds acc.
Proof.
  induction ds as [|d ds IH]; intros acc Hacc Hds; simpl; [done|].
  apply Forall_cons in Hds as [Hd Hds]. apply IH; [|done].
  unfold isdigit in Hd. apply andb_true_iff in Hd as [Hd _].
  apply N.leb_le in Hd. lia.
Qed.

Lemma decimal_nonneg ds : Forall (λ c, isdigit c = true) ds → 0 ≤ decimal ds.
Proof. intros Hds. by apply decimal_from_nonneg. Qed.

Lemma no_digit_next_stops s :
  no_digit_next s → take_while isdigit s = [] ∧ drop_while isdigit s = s.
Proof. destruct s as [|x s]; simpl; [done|]. by intros ->. Qed.

Lemma ends_token_stops rest :
  ends_token rest →
  take_while (λ c, negb (isspace c)) rest = []
  ∧ drop_while (λ c, negb (isspace c)) rest = rest.
Proof. destruct rest as [|x rest]; simpl; [done|]. by intros ->. Qed.

Lemma num_get_digits (is_signed : bool) ds s :
  digits ds → no_digit_next s →
  decimal ds ≤ (if is_signed then 2 ^ 63 - 1 else SIZE_MAX) →
  num_get is_signed (ds ++ s) = (decimal ds, Some s).
Proof.
  intros [Hne Hds] Hs Hrange. pose proof (decimal_nonneg _ Hds) as H0.
  destruct (no_digit_next_stops _ Hs) as [Htake Hdrop].
  destruct ds as [|d ds]; [done|]. clear Hne.
  pose proof (Forall_inv Hds) as Hd. destruct (isdigit_not_sign d Hd) as [Hminus Hplus].
  unfold num_get. rewrite <- app_comm_cons.
  rewrite (decide_False (P := d = "-"%char)) by done.
  rewrite (decide_False (P := d = "+"%char)) by done.
  rewrite app_comm_cons, take_while_all, drop_while_all, Htake, Hdrop, app_nil_r by done.
  destruct is_signed.
  - destruct (Z.leb_spec (decimal (d :: ds)) (2 ^ 63 - 1)); [done|lia].
  - destruct (Z.leb_spec (decimal (d :: ds)) SIZE_MAX); [|lia].
    rewrite wrap_small; [done|]. unfold SIZE_MAX in *. lia.
Qed.

Lemma extract_num_digits (is_signed : bool) sp ds s :
  blank sp → digits ds → no_digit_next s →
  decimal ds ≤ (if is_signed then 2 ^ 63 - 1 else SIZE_MAX) →
  extract_num is_signed (Some (sp ++ ds ++ s)) = (Some (decimal ds), Some s).
Proof.
  intros Hsp Hds Hs Hrange. unfold extract_num.
  destruct ds as [|d tl]; [by destruct Hds|].
  pose proof (isdigit_not_space d (Forall_inv (proj2 Hds))) as Hd.
  rewrite <- app_comm_cons, (sentry_token _ _ _ Hsp Hd), app_comm_cons.
  by rewrite num_get_digits.
Qed.

Lemma extract_char_token sp b s :
  blank sp → isspace b = false →
  extract_char (Some (sp ++ b :: s)) = (Some b, Some s).
Proof. intros Hsp Hb. unfold extract_char. by rewrite (sentry_token _ _ _ Hsp Hb). Qed.

Lemma extract_string_token old sp call rest :
  blank sp → call ≠ [] → Forall (λ c, isspace c = false) call → ends_token rest →
  extract_string old (Some (sp ++ call ++ rest)) = (call, Some rest).
Proof.
  intros Hsp Hne Hcall Hrest. unfold extract_string.
  destruct (ends_token_stops _ Hrest) as [Htake Hdrop].
  assert (Forall (λ c, negb (isspace c) = true) call) as Hcall'.
  { eapply Forall_impl; [exact Hcall|]. by intros c ->. }
  destruct call as [|x call]; [done|].
  rewrite <- app_comm_cons, (sentry_token _ _ _ Hsp (Forall_inv Hcall)), app_comm_cons.
  by rewrite take_while_all, drop_while_all, Htake, Hdrop, app_nil_r.
Qed.

(** X15. A line of a node id, an offset, a character and a call string
    that white space separates is read into these four fields: the two
    numbers by their decimal value, when the first fits [int64_t] and the
    second [size_t]. White space before the node id is skipped, the call
    string may follow the character without white space between them, and
    what follows the call string after white space is not read. *)
Theorem four_tokens_are_the_four_fields sp0 t1 sp1 t2 sp2 b sp3 call rest :
  blank sp0 → digits t1 → decimal t1 ≤ 2 ^ 63 - 1 →
  sp1 ≠ [] → blank sp1 → digits t2 → decimal t2 ≤ SIZE_MAX →
  sp2 ≠ [] → blank sp2 → isspace b = false →
  blank sp3 → call ≠ [] → Forall (λ c, isspace c = false) call → ends_token rest →
  read_fields (sp0 ++ t1 ++ sp1 ++ t2 ++ sp2 ++ b :: sp3 ++ call ++ rest)
  = mkFields (Some (decimal t1)) (Some (decimal t2)) (Some b) call (Some rest).
Proof.
  intros Hsp0 Ht1 Hr1 Hne1 Hsp1 Ht2 Hr2 Hne2 Hsp2 Hb Hsp3 Hne Hcall Hrest.
  unfold read_fields.
  rewrite (extract_num_digits true) by (try done; by apply blank_no_digit_next).
  rewrite (extract_num_digits false) by (try done; by apply blank_no_digit_next).
  rewrite extract_char_token by done.
  by rewrite extract_string_token.
Qed.

Lemma four_tokens_are_the_four_fields_witness :
  read_fields (text " " ++ text "7" ++ text " " ++ text "12" ++ text "  "
               ++ "A"%char :: [] ++ text ".,C" ++ text " and more")
  = mkFields (Some (decimal (text "7"))) (Some (decimal (text "12"))) (Some "A"%char)
             (text ".,C") (Some (text " and more")).
Proof.
  apply four_tokens_are_the_four_fields;
    try (by vm_compute); try (split; [done|]); try (vm_compute; by repeat constructor).
Defined.

(** ** What a line stores *)

Lemma call_at_insert calls nodeId vec n i :
  call_at (<[nodeId := vec]> calls) n i
  = if decide (nodeId = n)
    then match vec !! Z.to_nat i with
         | Some c => Ok c
         | None => Err (CallIndexOutOfBounds n i)
         end
    else call_at calls n i.
Proof. unfold call_at. rewrite calls_of_insert. by case_decide. Qed.

Lemma f_offset_read_fields line :
  f_offset (read_fields line)
  = (extract_num false (extract_num true (Some line)).2).1.
Proof.
  unfold read_fields.
  destruct (extract_num true (Some line)) as [nodeId s1]. simpl.
  destruct (extract_num false s1) as [offset s2]. simpl.
  destruct (extract_char s2) as [graphBase s3]. simpl.
  by destruct (extract_string [] s3).
Qed.

Lemma num_get_unsigned_range s : 0 ≤ (num_get false s).1 < 2 ^ 64.
Proof.
  assert (∀ z, 0 ≤ wrap z < 2 ^ 64) as Hwrap.
  { intros z. unfold wrap. apply Z.mod_pos_bound. lia. }
  unfold num_get.
  destruct (match s with
            | [] => (false, s)
            | c :: r => if decide (c = "-"%char) then (true, r)
                        else if decide (c = "+"%char) then (false, r) else (false, s)
            end) as [negative s1].
  destruct (take_while isdigit s1); simpl; [lia|].
  case_match; simpl; [apply Hwrap|]. unfold SIZE_MAX. lia.
Qed.

Lemma extract_num_unsigned_range st v :
  (extract_num false st).1 = Some v → 0 ≤ v < 2 ^ 64.
Proof.
  unfold extract_num. destruct (sentry st) as [s|]; [|done].
  pose proof (num_get_unsigned_range s) as Hrange.
  destruct (num_get false s) as [v' st']. simpl in *. by intros [= <-].
Qed.

Lemma max_size_fits : 0 < max_size ∧ max_size < 2 ^ 64 - 1.
Proof. split; reflexivity. Qed.

Lemma add_line_stores calls line nodeId offset c :
  line ≠ [] →
  f_nodeId (read_fields line) = Some nodeId →
  f_offset (read_fields line) = Some offset →
  1 ≤ offset ≤ max_size →
  BaseCall_of (std_set (call_tokens (f_call (read_fields line)))) = Ok c →
  add_line calls line
  = Ok (<[nodeId := store (calls_of calls nodeId) (Z.to_nat (offset - 1)) c]> calls).
Proof.
  intros Hline Hid Hoffset Hrange Hc. pose proof max_size_fits as [_ Hmax].
  unfold add_line, store, vector_resize.
  rewrite decide_False by done. rewrite Hid, Hoffset.
  rewrite (wrap_small (offset - 1)) by lia.
  replace (offset - 1 + 1) with offset by lia. rewrite (wrap_small offset) by lia.
  replace (S (Z.to_nat (offset - 1))) with (Z.to_nat offset) by lia.
  destruct (Z.ltb_spec max_size offset) as [Hover|_]; [lia|]. rewrite andb_false_r.
  destruct (Z.leb_spec (len (calls_of calls nodeId)) (offset - 1)) as [Hle|Hgt];
    simpl; rewrite Hc; simpl; unfold len in *.
  - rewrite decide_True by lia. rewrite length_resize.
    by destruct (Z.ltb_spec (offset - 1) (Z.of_nat (Z.to_nat offset))); [|lia].
  - rewrite decide_False by lia.
    by destruct (Z.ltb_spec (offset - 1) (Z.of_nat (length (calls_of calls nodeId))));
      [|lia].
Qed.

Lemma length_store vec o c : length (store vec o c) = (length vec `max` S o)%nat.
Proof.
  unfold store. rewrite length_insert. case_decide; [rewrite length_resize|]; lia.
Qed.

Lemma lookup_store vec o c i :
  store vec o c !! i
  = if decide (i = o) then Some c
    else if decide (i < length vec)%nat then vec !! i
    else if decide (i < o)%nat then Some BaseCall_default else None.
Proof.
  unfold store. destruct (decide (i = o)) as [->|Hne].
  - apply list_lookup_insert_eq. case_decide; [rewrite length_resize|]; lia.
  - rewrite list_lookup_insert_ne by done.
    destruct (decide (i < length vec)%nat) as [Hi|Hi].
    + case_decide; [|done]. by rewrite lookup_resize by lia.
    + destruct (decide (i < o)%nat) as [Hlt|Hge].
      * rewrite decide_True by lia. by rewrite lookup_resize_new by lia.
      * case_decide; [by rewrite lookup_resize_old by lia|].
        apply lookup_ge_None. lia.
Qed.

(** X16. A line with a node id, an offset from 1 up to the [max_size] of
    the call vector and a call that the constructor accepts is stored, and
    read back: afterwards the call of the node at the offset less one is the
    call of the line, whatever was there before; the call vector of the node
    reaches up to the offset if it was shorter, its other calls are as
    before, the entries made to fill it are calls without the graph base and
    without alts, and the calls of every other node are as before. *)
Theorem stored_call_is_read_back calls line nodeId offset c :
  line ≠ [] →
  f_nodeId (read_fields line) = Some nodeId →
  f_offset (read_fields line) = Some offset →
  1 ≤ offset ≤ max_size →
  BaseCall_of (std_set (call_tokens (f_call (read_fields line)))) = Ok c →
  ∃ calls',
    add_line calls line = Ok calls'
    ∧ call_at calls' nodeId (offset - 1) = Ok c
    ∧ len (calls_of calls' nodeId) = Z.max (len (calls_of calls nodeId)) offset
    ∧ (∀ i, 0 ≤ i < len (calls_of calls nodeId) → i ≠ offset - 1 →
         call_at calls' nodeId i = call_at calls nodeId i)
    ∧ (∀ i, len (calls_of calls nodeId) ≤ i < offset - 1 →
         call_at calls' nodeId i = Ok BaseCall_default)
    ∧ (∀ n i, n ≠ nodeId → call_at calls' n i = call_at calls n i).
Proof.
  intros Hline Hid Hoffset Hrange Hc.
  rewrite (add_line_stores calls line nodeId offset c) by done.
  eexists. split; [done|].
  pose proof (len_nonneg (calls_of calls nodeId)) as Hvec.
  split; [|split; [|split; [|split]]].
  - rewrite call_at_insert, decide_True by done.
    by rewrite lookup_store, decide_True by done.
  - rewrite calls_of_insert, decide_True by done.
    unfold len. rewrite length_store. lia.
  - intros i Hi Hne. rewrite call_at_insert, decide_True by done.
    rewrite lookup_store, decide_False by lia.
    by rewrite decide_True by (unfold len in Hi; lia).
  - intros i Hi. rewrite call_at_insert, decide_True by done.
    rewrite lookup_store, decide_False by lia.
    rewrite decide_False by (unfold len in Hi; lia).
    by rewrite decide_True by lia.
  - intros n i Hn. rewrite call_at_insert. by rewrite decide_False by done.
Qed.

Lemma stored_call_is_read_back_witness :
  ∃ calls',
    add_line bubble_calls (text "9 3 A .,C") = Ok calls'
    ∧ call_at calls' 9 (3 - 1) = Ok (mkBaseCall true (text "C"))
    ∧ len (calls_of calls' 9) = Z.max (len (calls_of bubble_calls 9)) 3
    ∧ (∀ i, 0 ≤ i < len (calls_of bubble_calls 9) → i ≠ 3 - 1 →
         call_at calls' 9 i = call_at bubble_calls 9 i)
    ∧ (∀ i, len (calls_of bubble_calls 9) ≤ i < 3 - 1 →
         call_at calls' 9 i = Ok BaseCall_default)
    ∧ (∀ n i, n ≠ 9 → call_at calls' n i = call_at bubble_calls n i).
Proof.
  apply (stored_call_is_read_back bubble_calls (text "9 3 A .,C") 9 3
           (mkBaseCall true (text "C"))); try reflexivity; [done|].
  split; by vm_compute.
Defined.

Lemma add_line_at_zero calls line nodeId :
  line ≠ [] →
  f_nodeId (read_fields line) = Some nodeId →
  f_offset (read_fields line) = Some 0 →
  len (calls_of calls nodeId) < 2 ^ 64 →
  match BaseCall_of (std_set (call_tokens (f_call (read_fields line)))) with
  | Ok _ => add_line calls line = Err (CallIndexOutOfBounds nodeId SIZE_MAX)
  | Err f => add_line calls line = Err f
  end.
Proof.
  intros Hline Hid Hoffset Hlen. unfold add_line, vector_resize.
  rewrite decide_False by done. rewrite Hid, Hoffset.
  change (wrap (0 - 1)) with SIZE_MAX.
  destruct (Z.leb_spec (len (calls_of calls nodeId)) SIZE_MAX) as [_|Hgt];
    [|unfold SIZE_MAX in Hgt; lia].
  change (wrap (SIZE_MAX + 1)) with 0. change (Z.to_nat 0) with 0%nat.
  pose proof (len_nonneg (calls_of calls nodeId)) as Hvec.
  destruct (Z.ltb_spec (len (calls_of calls nodeId)) 0) as [Hneg|_]; [lia|].
  rewrite resize_0. simpl.
  destruct (BaseCall_of (std_set (call_tokens (f_call (read_fields line)))))
    as [c|f]; simpl; [|done].
  change (len (@nil BaseCall)) with 0.
  by destruct (Z.ltb_spec SIZE_MAX 0) as [Hlt|_]; [unfold SIZE_MAX in Hlt; lia|].
Qed.

(** X17. A line whose offset reads 0 never ends well: the offset less
    one is [(size_t) -1], the call vector of the node is resized to no
    entries, and the store at that offset is out of bounds, unless the
    constructor has failed on the call before. *)
Theorem offset_zero_is_out_of_bounds calls line nodeId :
  line ≠ [] →
  f_nodeId (read_fields line) = Some nodeId →
  f_offset (read_fields line) = Some 0 →
  len (calls_of calls nodeId) < 2 ^ 64 →
  (∃ f, add_line calls line = Err f)
  ∧ (∀ c, BaseCall_of (std_set (call_tokens (f_call (read_fields line)))) = Ok c →
          add_line calls line = Err (CallIndexOutOfBounds nodeId SIZE_MAX)).
Proof.
  intros Hline Hid Hoffset Hlen.
  pose proof (add_line_at_zero calls line nodeId Hline Hid Hoffset Hlen) as Hzero.
  destruct (BaseCall_of (std_set (call_tokens (f_call (read_fields line))))) as [c|f].
  - split; [by eexists|]. by intros _ _.
  - split; [by eexists|]. by intros c.
Qed.

Lemma offset_zero_is_out_of_bounds_witness :
  (∃ f, add_line bubble_calls (text "2 0 G .") = Err f)
  ∧ (∀ c, BaseCall_of (std_set (call_tokens (f_call (read_fields (text "2 0 G .")))))
          = Ok c →
          add_line bubble_calls (text "2 0 G .") = Err (CallIndexOutOfBounds 2 SIZE_MAX)).
Proof.
  apply (offset_zero_is_out_of_bounds bubble_calls (text "2 0 G .") 2);
    [done|reflexivity|reflexivity|by vm_compute].
Defined.

Lemma add_line_beyond_max_size calls line nodeId offset :
  line ≠ [] →
  f_nodeId (read_fields line) = Some nodeId →
  f_offset (read_fields line) = Some offset →
  max_size < offset →
  len (calls_of calls nodeId) ≤ max_size →
  add_line calls line = Err (Uncaught "std::length_error").
Proof.
  intros Hline Hid Hoffset Hover Hvec. pose proof max_size_fits as [Hpos _].
  pose proof Hoffset as Hrange. rewrite f_offset_read_fields in Hrange.
  apply extract_num_unsigned_range in Hrange.
  unfold add_line, vector_resize.
  rewrite decide_False by done. rewrite Hid, Hoffset.
  rewrite (wrap_small (offset - 1)) by lia.
  replace (offset - 1 + 1) with offset by lia. rewrite (wrap_small offset) by lia.
  destruct (Z.leb_spec (len (calls_of calls nodeId)) (offset - 1)) as [_|Hgt]; [|lia].
  destruct (Z.ltb_spec (len (calls_of calls nodeId)) offset) as [_|Hge]; [|lia].
  by destruct (Z.ltb_spec max_size offset) as [_|Hle]; [|lia].
Qed.



(** ** The tokens of a call as a set *)

Lemma string_lt_irrefl a : string_lt a a = false.
Proof. induction a as [|x a IH]; simpl; [done|]. by rewrite N.ltb_irrefl. Qed.

Lemma ascending_ext s1 : ∀ s2,
  ascending s1 → ascending s2 → (∀ x, x ∈ s1 ↔ x ∈ s2) → s1 = s2.
Proof.
  assert (∀ x s, ascending_from x s → x ∉ s) as Hfresh.
  { intros x s Hfrom Hx. unfold ascending_from in Hfrom.
    rewrite Forall_forall in Hfrom. specialize (Hfrom _ Hx).
    by rewrite string_lt_irrefl in Hfrom. }
  assert (∀ x y s, ascending_from x s → y ∈ s → string_lt x y = true) as Hbelow.
  { intros x y s Hfrom Hy. unfold ascending_from in Hfrom.
    rewrite Forall_forall in Hfrom. by apply Hfrom. }
  induction s1 as [|x s1 IH]; intros s2 H1 H2 Hsame.
  - destruct s2 as [|y s2]; [done|].
    pose proof (proj2 (Hsame y) (list_elem_of_here _ _)) as Hy.
    by apply elem_of_nil in Hy.
  - destruct s2 as [|y s2].
    { pose proof (proj1 (Hsame x) (list_elem_of_here _ _)) as Hx.
      by apply elem_of_nil in Hx. }
    inversion H1 as [|? ? Hx1 Hs1]; subst. inversion H2 as [|? ? Hy2 Hs2]; subst.
    assert (x = y) as <-.
    { pose proof (proj1 (Hsame x) (list_elem_of_here _ _)) as Hx.
      pose proof (proj2 (Hsame y) (list_elem_of_here _ _)) as Hy.
      apply elem_of_cons in Hx as [Hx|Hx]; [done|].
      apply elem_of_cons in Hy as [Hy|Hy]; [done|].
      pose proof (Hbelow _ _ _ Hy2 Hx) as Hyx. pose proof (Hbelow _ _ _ Hx1 Hy) as Hxy.
      pose proof (string_lt_trans _ _ _ Hxy Hyx) as Hxx.
      by rewrite string_lt_irrefl in Hxx. }
    f_equal. apply IH; [done..|]. intros z. split; intros Hz.
    + pose proof (proj1 (Hsame z) (list_elem_of_further _ _ _ Hz)) as Hz'.
      apply elem_of_cons in Hz' as [->|Hz']; [|done]. by apply Hfresh in Hx1.
    + pose proof (proj2 (Hsame z) (list_elem_of_further _ _ _ Hz)) as Hz'.
      apply elem_of_cons in Hz' as [->|Hz']; [|done]. by apply Hfresh in Hy2.
Qed.

(** X18. The call that the constructor makes of the tokens of a call
    string depends on which tokens there are only, not on their order nor on
    how often each occurs: ranges of tokens with the same elements give the
    same set and the same outcome of the constructor. *)
Theorem call_depends_on_the_set_of_tokens range1 range2 :
  (∀ x, x ∈ range1 ↔ x ∈ range2) →
  std_set range1 = std_set range2
  ∧ BaseCall_of (std_set range1) = BaseCall_of (std_set range2).
Proof.
  intros Hsame.
  assert (std_set range1 = std_set range2) as ->; [|done].
  apply ascending_ext; [apply std_set_ascending..|].
  intros x. by rewrite !elem_of_std_set.
Qed.

Lemma call_depends_on_the_set_of_tokens_witness :
  std_set (call_tokens (text "T,A")) = std_set (call_tokens (text "A,T,A"))
  ∧ BaseCall_of (std_set (call_tokens (text "T,A")))
    = BaseCall_of (std_set (call_tokens (text "A,T,A"))).
Proof.
  apply (call_depends_on_the_set_of_tokens (call_tokens (text "T,A"))
           (call_tokens (text "A,T,A"))).
  intros x. vm_compute call_tokens.
  rewrite !elem_of_cons, !elem_of_nil. tauto.
Defined.

(** ** The order of the lines *)

Lemma store_commute vec o1 c1 o2 c2 :
  o1 ≠ o2 → store (store vec o1 c1) o2 c2 = store (store vec o2 c2) o1 c1.
Proof.
  intros Hne. apply list_eq. intros i.
  rewrite !lookup_store, !length_store.
  repeat case_decide; try done; lia.
Qed.

(** X19. Two lines for different bases, each with a node id, an offset
    from 1 up to the [max_size] of the call vector and a call that the
    constructor accepts, may come in either order: read one after the other
    they leave the same call table. *)
Theorem lines_of_different_bases_commute calls line1 line2 n1 o1 c1 n2 o2 c2 :
  line1 ≠ [] → line2 ≠ [] →
  f_nodeId (read_fields line1) = Some n1 → f_offset (read_fields line1) = Some o1 →
  f_nodeId (read_fields line2) = Some n2 → f_offset (read_fields line2) = Some o2 →
  1 ≤ o1 ≤ max_size → 1 ≤ o2 ≤ max_size →
  BaseCall_of (std_set (call_tokens (f_call (read_fields line1)))) = Ok c1 →
  BaseCall_of (std_set (call_tokens (f_call (read_fields line2)))) = Ok c2 →
  (n1, o1) ≠ (n2, o2) →
  ∃ calls', read_calls calls [line1; line2] = Ok calls'
            ∧ read_calls calls [line2; line1] = Ok calls'.
Proof.
  intros Hl1 Hl2 Hn1 Ho1 Hn2 Ho2 Hr1 Hr2 Hc1 Hc2 Hne. simpl.
  rewrite (add_line_stores calls line1 n1 o1 c1) by done.
  rewrite (add_line_stores calls line2 n2 o2 c2) by done. simpl.
  rewrite (add_line_stores _ line2 n2 o2 c2) by done.
  rewrite (add_line_stores _ line1 n1 o1 c1) by done. simpl.
  eexists. split; [done|]. f_equal. rewrite !calls_of_insert.
  destruct (decide (n1 = n2)) as [->|Hn].
  - rewrite !decide_True by done. rewrite !insert_insert_eq. f_equal.
    apply store_commute. intros Ho. apply Hne. f_equal. lia.
  - rewrite !decide_False by done. by apply insert_insert_ne.
Qed.

Lemma lines_of_different_bases_commute_witness :
  ∃ calls', read_calls ∅ [text "4 2 T ."; text "4 1 T A"] = Ok calls'
            ∧ read_calls ∅ [text "4 1 T A"; text "4 2 T ."] = Ok calls'.
Proof.
  apply (lines_of_different_bases_commute ∅ (text "4 2 T .") (text "4 1 T A")
           4 2 (mkBaseCall true []) 4 1 (mkBaseCall false (text "A")));
    try reflexivity; try done; split; by vm_compute.
Defined.

(** ** Blank lines *)

(** X20. Lines without any character change nothing: the reader leaves
    the same call table, or stops at the same failure, with them as without
    them, and so does the run. *)
Theorem blank_lines_are_skipped vg refPathName (lines : list (list ascii)) :
  (∀ calls, read_calls calls (filter (λ line, line ≠ []) lines) = read_calls calls lines)
  ∧ run vg refPathName (filter (λ line, line ≠ []) lines) = run vg refPathName lines.
Proof.
  assert (∀ calls, read_calls calls (filter (λ line, line ≠ []) lines)
                   = read_calls calls lines) as Hread.
  { induction lines as [|line lines IH]; intros calls; [done|].
    rewrite filter_cons. destruct (decide (line ≠ [])) as [Hline|Hline].
    - simpl. destruct (add_line calls line); simpl; [apply IH|done].
    - apply dec_stable in Hline. subst line. simpl. apply IH. }
  split; [done|]. unfold run. by rewrite Hread.
Qed.

(** ** The call files that the reader accepts *)

Lemma add_line_rejects_call calls line nodeId offset f :
  line ≠ [] →
  f_nodeId (read_fields line) = Some nodeId →
  f_offset (read_fields line) = Some offset →
  BaseCall_of (std_set (call_tokens (f_call (read_fields line)))) = Err f →
  ∃ f', add_line calls line = Err f'.
Proof.
  intros Hline Hid Hoffset Hc. unfold add_line.
  rewrite decide_False by done. rewrite Hid, Hoffset.
  destruct (if len (calls_of calls nodeId) <=? wrap (offset - 1)
            then vector_resize (wrap (wrap (offset - 1) + 1)) (calls_of calls nodeId)
            else Ok (calls_of calls nodeId)) as [vec|f']; simpl; [|by eexists].
  rewrite Hc. by eexists.
Qed.

Lemma add_line_accepts calls line :
  vectors_fit calls →
  ((∃ calls', add_line calls line = Ok calls') ↔ line = [] ∨ storable_line line)
  ∧ (∀ calls', add_line calls line = Ok calls' → vectors_fit calls').
Proof.
  intros Hfit. pose proof max_size_fits as [Hpos Hmax].
  unfold storable_line. destruct (decide (line = [])) as [->|Hline].
  { split; [split; [by left|intros _; by exists calls]|]. by intros calls' [= <-]. }
  destruct (f_nodeId (read_fields line)) as [nodeId|] eqn:Hid.
  2:{ unfold add_line. rewrite decide_False, Hid by done.
      destruct (f_offset (read_fields line)); (split; [|done]);
        (split; [by intros [? ?]|]); intros [?|(? & ? & ? & ? & _)]; congruence. }
  destruct (f_offset (read_fields line)) as [offset|] eqn:Hoffset.
  2:{ unfold add_line. rewrite decide_False, Hid, Hoffset by done. split; [|done].
      split; [by intros [? ?]|]. intros [?|(? & ? & ? & _ & ? & _)]; congruence. }
  pose proof Hoffset as Hrange. rewrite f_offset_read_fields in Hrange.
  apply extract_num_unsigned_range in Hrange.
  assert (∀ f, add_line calls line = Err f →
            (∃ o, Some offset = Some o ∧ ¬ (o ≠ 0 ∧ o ≤ max_size
               ∧ ∃ c, BaseCall_of (std_set (call_tokens (f_call (read_fields line))))
                      = Ok c)) →
            ((∃ calls', add_line calls line = Ok calls')
             ↔ line = []
               ∨ (∃ nodeId0 offset0 c,
                    Some nodeId = Some nodeId0 ∧ Some offset = Some offset0
                    ∧ offset0 ≠ 0 ∧ offset0 ≤ max_size
                    ∧ BaseCall_of (std_set (call_tokens (f_call (read_fields line))))
                      = Ok c))
            ∧ (∀ calls', add_line calls line = Ok calls' → vectors_fit calls'))
    as Hfails.
  { intros f -> (o & [= <-] & Hno). split; [|done].
    split; [by intros [? ?]|]. intros [?|(? & o & c & _ & [= <-] & ? & ? & ?)]; [done|].
    destruct Hno. split; [done|]. split; [done|]. by exists c. }
  destruct (decide (offset = 0)) as [->|Hne].
  { assert (len (calls_of calls nodeId) < 2 ^ 64) as Hlen
      by (specialize (Hfit nodeId); lia).
    pose proof (add_line_at_zero calls line nodeId Hline Hid Hoffset Hlen) as Hzero.
    destruct (BaseCall_of (std_set (call_tokens (f_call (read_fields line)))));
      (eapply Hfails; [exact Hzero|]); exists 0; (split; [done|]); by intros [? _]. }
  destruct (decide (offset ≤ max_size)) as [Hle|Hover].
  2:{ eapply Hfails.
      - apply (add_line_beyond_max_size calls line nodeId offset); [done..|lia|apply Hfit].
      - exists offset. split; [done|]. intros (_ & ? & _). done. }
  destruct (BaseCall_of (std_set (call_tokens (f_call (read_fields line)))))
    as [c|f] eqn:Hc.
  2:{ destruct (add_line_rejects_call calls line nodeId offset f Hline Hid Hoffset Hc)
        as [f' Hf'].
      eapply Hfails; [exact Hf'|]. exists offset. split; [done|].
      by intros (_ & _ & c & ?). }
  rewrite (add_line_stores calls line nodeId offset c) by (try done; lia). split.
  - split; [|intros _; by eexists]. intros _. right. by exists nodeId, offset, c.
  - intros calls' [= <-] n. rewrite calls_of_insert.
    case_decide; [|apply Hfit]. specialize (Hfit nodeId).
    unfold len in *. rewrite length_store. lia.
Qed.

Lemma read_calls_accepts lines : ∀ calls,
  vectors_fit calls →
  (∃ calls', read_calls calls lines = Ok calls')
  ↔ Forall (λ line, line = [] ∨ storable_line line) lines.
Proof.
  induction lines as [|line lines IH]; intros calls Hfit; simpl.
  - split; [done|]. intros _. by eexists.
  - destruct (add_line_accepts calls line Hfit) as [Hline Hfit'].
    rewrite Forall_cons, <- Hline. split.
    + intros [calls' Hread].
      destruct (add_line calls line) as [calls1|f]; [|done]. simpl in Hread.
      split; [by eexists|]. apply (IH calls1); [by apply Hfit'|by eexists].
    + intros [[calls1 Hadd] Hrest]. rewrite Hadd. simpl.
      apply IH; [by apply Hfit'|done].
Qed.

(** X21. The reader ends well on a call file exactly when each of its
    lines either has no character or yields a node id, an offset other than
    0 and not above the [max_size] of the call vector, and a call that the
    constructor accepts. *)
Theorem reader_accepts_the_storable_lines lines :
  (∃ calls, read_calls ∅ lines = Ok calls)
  ↔ Forall (λ line, line = [] ∨ storable_line line) lines.
Proof.
  apply read_calls_accepts. intros nodeId. unfold calls_of.
  rewrite lookup_empty. by vm_compute.
Qed.

(** ** Records and the reference sequence *)

Lemma leftmost_Some_placed placements candidates a :
  (leftmost placements candidates).2 = Some a →
  a ∈ candidates ∧ ∃ pa, placements !! Node.id (NodeTraversal.node a) = Some pa.
Proof.
  unfold leftmost.
  destruct (leftmost_from placements candidates (SIZE_MAX, None))
    as [[-> _]|(k & a' & o & p & -> & _ & Hk & Ha & _)]; simpl; [done|].
  intros [= <-]. split; [by eapply list_elem_of_lookup_2|]. by eexists.
Qed.

Lemma structural_variant_on_reference vg t node altBackward start size b found :
  0 ≤ start → 0 ≤ size → start + size ≤ len (refSeq t) → len (refSeq t) < 2 ^ 64 →
  structural_variant vg t node altBackward start size b = Ok found →
  Forall (on_reference t) (stdout found).
Proof.
  intros Hstart Hsize Hend Hfits Hfound.
  destruct (decide (size = 0)) as [->|Hbases].
  - destruct (structural_variant_insertion vg t node altBackward start b)
      as [Hzero Hshift]; [lia..|].
    destruct (decide (start = 0)) as [->|Hne]; [by rewrite Hzero in Hfound|].
    destruct (Hshift Hne) as (base & line & Hbase & Hemit).
    rewrite Hemit in Hfound. injection Hfound as <-. simpl.
    constructor; [|done]. unfold on_reference, len. simpl.
    pose proof (lookup_lt_Some _ _ _ Hbase) as Hlt.
    split; [lia|]. split; [lia|].
    replace (start - 1 + 1 - 1) with (start - 1) by lia.
    by rewrite (drop_S _ _ _ Hbase).
  - destruct (structural_variant_replacement vg t node altBackward start size b)
      as (line & Hemit); [lia..|].
    rewrite Hemit in Hfound. injection Hfound as <-. simpl.
    constructor; [|done]. unfold on_reference, len in *. simpl.
    rewrite length_take, length_drop.
    split; [lia|]. split; [lia|].
    replace (start + 1 - 1) with start by lia.
    f_equal. lia.
Qed.

Lemma call_interval_on_reference vg t calls node altBackward start pastEnd e :
  0 ≤ start → start ≤ pastEnd → pastEnd ≤ len (refSeq t) → len (refSeq t) < 2 ^ 64 →
  call_interval vg t calls node altBackward start pastEnd = Ok e →
  Forall (on_reference t) (stdout e).
Proof.
  intros Hstart Hle Hend Hfits. unfold call_interval.
  destruct (presence (calls_of calls (Node.id node))) as [[fully partly] maxAlts].
  destruct partly; simpl; [|by intros [= <-]].
  destruct fully; simpl; [|by intros [= <-]].
  destruct (scan_interval _ t calls start pastEnd false) as [b|f]; simpl; [|done].
  rewrite (wrap_small (pastEnd - start)) by lia.
  destruct (structural_variant vg t node altBackward start (pastEnd - start) b)
    as [found|f] eqn:Hfound; simpl; [|done].
  apply structural_variant_on_reference in Hfound; [|lia..].
  intros [= <-]. simpl. by destruct (0 <? maxAlts).
Qed.

Lemma call_alt_node_on_reference vg refPathName t calls node e :
  trace_reference vg refPathName = Ok t →
  len (refSeq t) < 2 ^ 64 →
  Forall (λ c, get_node vg (Node.id (NodeTraversal.node c)) = Some (NodeTraversal.node c))
         (nodes_prev vg (NodeTraversal.mk node false)
          ++ nodes_next vg (NodeTraversal.mk node false)) →
  call_alt_node vg t calls node = Ok e →
  Forall (on_reference t) (stdout e).
Proof.
  intros Htrace Hfits Hneighbours Hcall.
  destruct (referencePositionAndOrientation t !! Node.id node) as [p|] eqn:Hnode.
  { unfold call_alt_node in Hcall. rewrite Hnode in Hcall. by injection Hcall as <-. }
  destruct (leftmost (referencePositionAndOrientation t)
              (nodes_prev vg (NodeTraversal.mk node false))).2 as [a|] eqn:Ha.
  2:{ unfold call_alt_node in Hcall. rewrite Hnode, Ha in Hcall.
      by injection Hcall as <-. }
  destruct (leftmost (referencePositionAndOrientation t)
              (nodes_next vg (NodeTraversal.mk node false))).2 as [b|] eqn:Hb.
  2:{ unfold call_alt_node in Hcall. rewrite Hnode, Ha, Hb in Hcall.
      by injection Hcall as <-. }
  destruct (leftmost_Some_placed _ _ _ Ha) as (Hain & pa & Hpa).
  destruct (leftmost_Some_placed _ _ _ Hb) as (Hbin & pb & Hpb).
  rewrite Forall_app, !Forall_forall in Hneighbours.
  destruct Hneighbours as [Hprev Hnext].
  destruct (eqb (eqb (NodeTraversal.backward a) pa.2) (eqb (NodeTraversal.backward b) pb.2))
    eqn:Hagree.
  2:{ unfold call_alt_node in Hcall. rewrite Hnode, Ha, Hb in Hcall.
      rewrite (placement_at_Some _ _ _ Hpa), (placement_at_Some _ _ _ Hpb) in Hcall.
      simpl in Hcall. rewrite Hagree in Hcall. by injection Hcall as <-. }
  apply eqb_prop in Hagree.
  assert (∃ altBackward inNode outNode pin pout,
            anchored vg t node altBackward inNode outNode pin pout
            ∧ get_node vg (Node.id (NodeTraversal.node inNode))
              = Some (NodeTraversal.node inNode))
    as (altBackward & inNode & outNode & pin & pout & Hanchored & Hget).
  { destruct (negb (eqb (NodeTraversal.backward a) pa.2)) eqn:Hback.
    - exists true, b, a, pb, pa. split; [|by apply Hnext].
      by exists a, b, pa, pb.
    - exists false, a, b, pa, pb. split; [|by apply Hprev].
      by exists a, b, pa, pb. }
  rewrite (call_alt_node_anchored _ _ _ _ _ _ _ _ _ Hnode Hanchored) in Hcall.
  destruct (Z.leb_spec pout.1 pin.1) as [_|Hlt]; [by injection Hcall as <-|].
  destruct (anchored_placed _ _ _ _ _ _ _ _ Hanchored) as [Hin Hout].
  destruct (interval_bounds _ _ _ _ _ _ _ _ Htrace Hfits Hin Hout Hget Hlt)
    as (H0 & Hstart & Hle & Hend & _).
  pose proof (len_nonneg (Node.sequence (NodeTraversal.node inNode))) as Hlen.
  rewrite call_bubble_asserted in Hcall by lia. rewrite Hstart in Hcall.
  apply call_interval_on_reference in Hcall; [done|lia..].
Qed.

Lemma call_ref_base_on_reference vg refPathName t calls node p i e :
  trace_reference vg refPathName = Ok t →
  len (refSeq t) < 2 ^ 64 →
  calls_well_formed calls →
  get_node vg (Node.id node) = Some node →
  referencePositionAndOrientation t !! Node.id node = Some p →
  0 ≤ i < len (Node.sequence node) →
  call_ref_base vg t calls node i = Ok e →
  Forall (on_reference t) (stdout e).
Proof.
  intros Htrace Hfits Hwf Hget Hplace Hi Hcall. destruct p as [first second].
  destruct (call_at calls (Node.id node) i) as [c|f] eqn:Hc.
  2:{ unfold call_ref_base in Hcall. by rewrite Hc in Hcall. }
  assert (i < len (calls_of calls (Node.id node))) as Hentry.
  { apply call_at_Ok in Hc; [|lia]. apply lookup_lt_Some in Hc. unfold len. lia. }
  destruct (call_ref_base_total _ _ _ _ _ _ _ _ Htrace Hfits Hwf Hget Hplace Hi Hentry)
    as (c' & base & Hc' & Hbase & H0 & Hend & Hwfc & _).
  rewrite Hc in Hc'. injection Hc' as <-.
  destruct (decide (alts c = [])) as [Hnone|Halts].
  - unfold call_ref_base in Hcall. rewrite Hc in Hcall. simpl in Hcall.
    unfold numberOfAlts in Hcall. rewrite Hnone in Hcall. by injection Hcall as <-.
  - destruct (call_ref_base_emits vg _ _ _ _ _ _ _ _ Hc Halts Hwfc Hplace Hi H0 Hend Hbase)
      as (line & Hemit).
    assert (0 ≤ reference_coordinate first second (len (Node.sequence node)) i) as Hpos.
    { unfold reference_coordinate. destruct second; lia. }
    set (coordinate := reference_coordinate first second (len (Node.sequence node)) i)
      in *.
    rewrite Hemit in Hcall. injection Hcall as <-. simpl.
    constructor; [|done]. unfold on_reference, len. simpl.
    pose proof (lookup_lt_Some _ _ _ Hbase) as Hlt.
    split; [lia|]. split; [lia|].
    replace (coordinate + 1 - 1) with coordinate by lia.
    by rewrite (drop_S _ _ _ Hbase).
Qed.

Lemma call_ref_node_on_reference vg refPathName t calls node e :
  trace_reference vg refPathName = Ok t →
  len (refSeq t) < 2 ^ 64 →
  calls_well_formed calls →
  get_node vg (Node.id node) = Some node →
  call_ref_node vg t calls node = Ok e →
  Forall (on_reference t) (stdout e).
Proof.
  intros Htrace Hfits Hwf Hget. unfold call_ref_node.
  destruct (referencePositionAndOrientation t !! Node.id node) as [p|] eqn:Hplace;
    [|by intros [= <-]].
  assert (Forall (λ i, 0 ≤ i < len (Node.sequence node))
                 (seqZ 0 (len (Node.sequence node)))) as Hoffsets.
  { apply Forall_forall. intros i Hi%elem_of_seqZ. lia. }
  revert e Hoffsets. generalize (seqZ 0 (len (Node.sequence node))).
  intros offsets. induction offsets as [|i offsets IH]; intros e Hoffsets; simpl.
  - by intros [= <-].
  - apply Forall_cons in Hoffsets as [Hi Hoffsets].
    destruct (call_ref_base vg t calls node i) as [e1|f] eqn:Hbase; simpl; [|done].
    destruct (call_ref_bases vg t calls node offsets) as [e2|f] eqn:Hrest; simpl; [|done].
    intros [= <-]. simpl. apply Forall_app. split.
    + by eapply call_ref_base_on_reference.
    + by apply IH.
Qed.

Lemma for_each_node_stdout (P : Variant → Prop) body ns e :
  Forall (λ n, ∀ e, body n = Ok e → Forall P (stdout e)) ns →
  for_each_node body ns = Ok e →
  Forall P (stdout e).
Proof.
  intros Hbody. revert e.
  induction Hbody as [|n ns Hn _ IH]; intros e; simpl; [by intros [= <-]|].
  destruct (body n) as [e1|f]; simpl; [|done].
  destruct (for_each_node body ns) as [e2|f]; simpl; [|done].
  intros [= <-]. simpl. apply Forall_app. split; [by apply Hn|by apply IH].
Qed.

(** X22. In a run that ends well on a graph that holds its nodes and their
    neighbours under their ids, with a traced reference that fits
    [size_t], every record lies on the reference: its position is at least
    1, its reference allele ends within the reference sequence, and its
    reference allele is the reference sequence from the position, less
    one, on. *)
Theorem every_record_spells_the_reference vg refPathName lines t e :
  graph_closed vg →
  trace_reference vg refPathName = Ok t →
  len (refSeq t) < 2 ^ 64 →
  run vg refPathName lines = Ok e →
  Forall (on_reference t) (stdout e).
Proof.
  intros Hclosed Htrace Hfits. unfold run. rewrite Htrace. simpl.
  destruct (read_calls ∅ lines) as [calls|f] eqn:Hread; simpl; [|done].
  pose proof (read_calls_from_empty_well_formed _ _ Hread) as Hwf.
  destruct (for_each_node (call_alt_node vg t calls) (nodes vg))
    as [structural|f] eqn:Hstructural; simpl; [|done].
  destruct (for_each_node (call_ref_node vg t calls) (nodes vg))
    as [snps|f] eqn:Hsnps; simpl; [|done].
  intros [= <-]. simpl. apply Forall_app. split.
  - eapply for_each_node_stdout; [|exact Hstructural].
    eapply Forall_impl; [exact Hclosed|]. intros n [_ Hneighbours] e' He'.
    by eapply call_alt_node_on_reference.
  - eapply for_each_node_stdout; [|exact Hsnps].
    eapply Forall_impl; [exact Hclosed|]. intros n [Hget _] e' He'.
    by eapply call_ref_node_on_reference.
Qed.

Lemma every_record_spells_the_reference_witness :
  Forall (on_reference insertion_trace)
    (stdout (mkEmission
               ["Found variant A -> AGG caused by node 3 at 1-based reference position 5";
                "Found variant C -> A,T, on node 2 at 1-based reference position 6"]
               [mkVariant 5 (text "A") [text "AGG"] "1/1" 0;
                mkVariant 6 (text "C") [text "A"; text "T"] "1/2" 0])).
Proof.
  apply (every_record_spells_the_reference insertion_vg "ref" insertion_lines).
  - vm_compute. repeat constructor.
  - reflexivity.
  - by vm_compute.
  - by vm_compute.
Defined.

(** ** From the tokens of a call to the alt alleles of a record *)

Lemma concat_singletons (s : list (list ascii)) :
  Forall (λ a, length a = 1%nat) s → map char_to_string (concat s) = s.
Proof.
  induction 1 as [|a s Ha _ IH]; [done|].
  destruct a as [|x [|y a]]; [done| |done]. simpl. by rewrite IH.
Qed.

(** X23. The alt tokens of a call come back as the alt alleles of the
    record: for a base of a reference node placed forward, with a call made
    of a call string, the record lists as alt alleles the strings that
    [char_to_string] makes of the stored alt bases, and these are the alt
    tokens of the call string in the order of the set of tokens. *)
Theorem alt_alleles_are_the_alt_tokens vg t calls node (first i : Z)
    (call : list ascii) (c : BaseCall) (base : ascii) :
  BaseCall_of (std_set (call_tokens call)) = Ok c →
  call_at calls (Node.id node) i = Ok c →
  alts c ≠ [] →
  referencePositionAndOrientation t !! Node.id node = Some (first, false) →
  0 ≤ i < len (Node.sequence node) →
  0 ≤ first → first + len (Node.sequence node) < 2 ^ 64 →
  refSeq t !! Z.to_nat (first + i) = Some base →
  ∃ log v,
    call_ref_base vg t calls node i = Ok (mkEmission log [v])
    ∧ alt v = map char_to_string (alts c)
    ∧ alt v = alt_tokens (std_set (call_tokens call)).
Proof.
  intros Hmade Hc Halts Hplace Hi H0 Hend Hbase.
  pose proof (BaseCall_of_well_formed _ _ Hmade) as Hwfc.
  destruct (call_ref_base_emits vg t calls node i c first false base
              Hc Halts Hwfc Hplace Hi H0 Hend Hbase) as (line & Hemit).
  exists [line]. eexists. split; [exact Hemit|]. simpl.
  split; [done|].
  unfold BaseCall_of in Hmade.
  pose proof (BaseCall_loop_spec (std_set (call_tokens call)) (mkBaseCall false []))
    as Hspec.
  rewrite Hmade in Hspec. simpl in Hspec. destruct Hspec as ([Hall _] & _ & ->).
  by apply concat_singletons.
Qed.

Lemma alt_alleles_are_the_alt_tokens_witness :
  ∃ log v,
    call_ref_base insertion_vg insertion_trace insertion_calls (Node.mk 2 (text "C")) 0
    = Ok (mkEmission log [v])
    ∧ alt v = map char_to_string (alts (mkBaseCall false (text "AT")))
    ∧ alt v = alt_tokens (std_set (call_tokens (text "T,A"))).
Proof.
  apply (alt_alleles_are_the_alt_tokens insertion_vg insertion_trace insertion_calls
           (Node.mk 2 (text "C")) 5 0 (text "T,A") (mkBaseCall false (text "AT"))
           "C"%char); try reflexivity; try done; by vm_compute.
Defined.
